(** * Tattoo gallery widget: a shallow embedding of [gallery-widget.js]

    The widget is one class, [TattooGallery], whose methods mutate the
    instance ([this]), the document and the browser's timer, console and
    network facilities.  The embedding keeps all of these in one record,
    [World], and writes every method as a computation in a small state and
    exception monad, so that a [throw] keeps the side effects that preceded
    it, as it does in JavaScript.

    Modelling choices, each stated where it is made:
    - JavaScript numbers that the widget uses are array indices, lengths,
      HTTP status codes and pixel coordinates: they are integers, [Z];
    - strings are [string]; values parsed from the response body are [json],
      and their conversion to a string, which throws for some objects, is
      [to_string];
    - [this.images] is a JavaScript array, [list json]; a gallery that
      stored a payload which is not an array is the separate outcome
      [OtherImages] of [init];
    - browser built-ins ([fetch], [JSON] parsing, [parseInt], the DOM) are
      not implemented: their results are inputs of the model. *)

From Stdlib Require Import ZArith List String Ascii Bool Lia DecimalString.
Import ListNotations.
Set Warnings "-register-all".
Open Scope string_scope.
Open Scope Z_scope.

(** ** JavaScript values read from the network *)

(** The value that [response.json()] resolves to.  [JNum] carries integral
    numbers only, meant of a magnitude that a double holds exactly and prints
    in plain decimal.  [JObj] lists the members of an object; when a name
    occurs twice the later member is the one an object read sees, as in
    [JSON.parse]. *)
Inductive json : Type :=
| JNull
| JBool (b : bool)
| JNum (z : Z)
| JStr (s : string)
| JArr (elems : list json)
| JObj (members : list (string * json)).

(** A JavaScript value that may be [undefined] ([None]). *)
Definition jsval : Type := option json.

(** Own member [key] of an object. *)
Fixpoint own (key : string) (ms : list (string * json)) : jsval :=
  match ms with
  | [] => None
  | (k, v) :: rest =>
      match own key rest with
      | Some v' => Some v'
      | None => if String.eqb k key then Some v else None
      end
  end.

(** The property read [v.key] for a name that no prototype defines (the
    widget reads [error], [message], [id] and [name]).  Reading a property
    of [null] or [undefined] is a TypeError: the outer [None]. *)
Definition get_field (key : string) (v : jsval) : option jsval :=
  match v with
  | None => None
  | Some JNull => None
  | Some (JObj ms) => Some (own key ms)
  | Some _ => Some None
  end.

(** ToBoolean. *)
Definition truthy (v : jsval) : bool :=
  match v with
  | None => false
  | Some JNull => false
  | Some (JBool b) => b
  | Some (JNum z) => negb (z =? 0)
  | Some (JStr s) => negb (String.eqb s "")
  | Some (JArr _) => true
  | Some (JObj _) => true
  end.

(** Decimal rendering of an integral number, as a template literal does. *)
Definition show (z : Z) : string := NilZero.string_of_int (Z.to_int z).

(** ToString on a parsed value; [None] when the conversion throws a
    TypeError.  An object is converted by the [toString] it inherits,
    unless it has a member of that name: a member parsed from JSON is not
    callable, the inherited [valueOf] returns the object itself, and no
    primitive value is found.  An array is converted by [join], which
    converts each element other than [null]. *)
Fixpoint to_string (j : json) : option string :=
  match j with
  | JNull => Some "null"
  | JBool true => Some "true"
  | JBool false => Some "false"
  | JNum z => Some (show z)
  | JStr s => Some s
  | JArr elems =>
      (fix join (l : list json) : option string :=
         match l with
         | [] => Some ""
         | x :: rest =>
             match match x with JNull => Some "" | _ => to_string x end with
             | None => None
             | Some sx =>
                 match rest with
                 | [] => Some sx
                 | _ :: _ =>
                     match join rest with
                     | None => None
                     | Some sr => Some (sx ++ "," ++ sr)
                     end
                 end
             end
         end) elems
  | JObj members =>
      match own "toString" members with
      | Some _ => None
      | None => Some "[object Object]"
      end
  end.

(** A value interpolated in a template literal, passed to [new Error], or
    assigned to a DOM attribute of type DOMString ([img.alt]); [None] when
    the conversion throws. *)
Definition template (v : jsval) : option string :=
  match v with
  | None => Some "undefined"
  | Some j => to_string j
  end.

(** A value assigned to a nullable DOMString attribute ([textContent]):
    [null] and [undefined] give the empty string. *)
Definition text_content (v : jsval) : option string :=
  match v with
  | None => Some ""
  | Some JNull => Some ""
  | Some j => to_string j
  end.

(** [x || y] *)
Definition js_or (x y : jsval) : jsval := if truthy x then x else y.

(** [arr[i]] on an array. *)
Definition js_index (arr : list json) (i : Z) : jsval :=
  if i <? 0 then None else nth_error arr (Z.to_nat i).

(** [arr.length] *)
Definition js_length (arr : list json) : Z := Z.of_nat (List.length arr).

(** An image descriptor as the endpoint documents it, and its parsed form. *)
Record Image : Type := mkImage { id : string; name : string }.

Definition descriptor (im : Image) : json :=
  JObj [("id", JStr (id im)); ("name", JStr (name im))].

(** [s.replace(pat, rep)] with a string pattern: the first occurrence. *)
Fixpoint replace_first (pat rep s : string) : string :=
  if String.prefix pat s
  then rep ++ String.substring (String.length pat)
                               (String.length s - String.length pat) s
  else match s with
       | EmptyString => EmptyString
       | String c rest => String c (replace_first pat rep rest)
       end.

(** ** Configuration *)

Module CONFIG.
Definition apiUrl : string :=
  "https://tattoo-gallery-api.garrett-tattooagent.workers.dev/gallery".
Definition defaults_columns : Z := 3.
Definition defaults_gap : Z := 16.
Definition defaults_animationSpeed : Z := 300.
End CONFIG.

(** ** Exceptions, network, DOM *)

Inductive exn : Type :=
| Error (message : string)   (* [new Error(message)] *)
| TypeError                  (* raised by the engine or by a rejected [fetch] *)
| SyntaxError.               (* [response.json()] on a body that is not JSON *)

(** A response: its status and what [response.json()] resolves to, [None]
    when the body does not parse. *)
Record Response : Type := mkResponse { status : Z; body : option json }.

(** [response.ok]: the status is in the range 200-299 (Fetch standard). *)
Definition ok (r : Response) : bool := (200 <=? status r) && (status r <=? 299).

Inductive FetchResult : Type :=
| NetworkFailure             (* [fetch] rejects *)
| Responded (r : Response).

(** The network: what a GET of a URL yields. *)
Definition Network : Type := string -> FetchResult.

(** The lightbox element built by [openLightbox], reduced to what the widget
    reads and writes of it. *)
Record Lightbox : Type := mkLightbox {
  lb_visible : bool;             (* class [tg-lightbox-visible] *)
  img_opacity : string;          (* [img.style.opacity] *)
  img_transition : string;       (* [img.style.transition] *)
  img_src : string;
  img_alt : string;
  img_onerror : option (jsval * string); (* [image.name], [imageUrl] captured *)
  img_onload : bool;
  caption : string;              (* [.tg-lightbox-caption] text *)
  counter : string;              (* [.tg-lightbox-counter] text *)
  prev_display : string;         (* [.tg-lightbox-prev] style.display *)
  next_display : string;         (* [.tg-lightbox-next] style.display *)
  clicks_wired : bool;           (* the five click listeners are attached *)
  touchStartX : option Z         (* touch listeners attached; their [touchStartX] *)
}.

(** The element right after [lightbox.innerHTML = ...]. *)
Definition fresh_lightbox : Lightbox :=
  {| lb_visible := false; img_opacity := ""; img_transition := "";
     img_src := ""; img_alt := ""; img_onerror := None; img_onload := false;
     caption := ""; counter := ""; prev_display := ""; next_display := "";
     clicks_wired := false; touchStartX := None |}.

(** A grid item built by [createImageItem]. *)
Record GridItem : Type := mkGridItem {
  thumb_data_src : string;       (* [img.dataset.src] *)
  thumb_alt : string;
  thumb_src : option string;
  thumb_lazy : bool;             (* class [tg-lazy] *)
  thumb_loaded : bool;           (* class [tg-loaded] *)
  thumb_onload : bool;
  thumb_observed : bool;         (* watched by the IntersectionObserver *)
  item_visible : bool;           (* class [tg-visible] *)
  click_index : Z                (* the [index] its click listener captured *)
}.

(** What the gallery container holds. *)
Inductive Content : Type :=
| Untouched
| LoadingBox
| EmptyBox
| ErrorBox (message : string)
| Grid (gallery : nat) (items : list GridItem). (* the [.tg-gallery] element *)

(** Callbacks handed to [setTimeout], with what each one captured: the
    gallery element (line 101; [count] is the number of items that were
    appended to it, the only children it ever has), the [i]-th item of a
    gallery (line 104), the lightbox element (lines 247 and 360). *)
Inductive Timer : Type :=
| RevealGrid (gallery : nat) (count : nat)
| RevealItem (gallery : nat) (i : nat)
| ShowLightbox (el : nat)
| RemoveLightbox (el : nat).

Inductive LogEntry : Type :=
| GalleryError (e : exn)                         (* line 61 *)
| ImageLoadFailed (name : jsval) (url : string)  (* line 318 *)
| Uncaught (e : exn).                            (* reported by the event loop *)

(** Method entries recorded for the statements about how often a method is
    invoked; no method reads them. *)
Inductive Call : Type := CallInit | CallPrevImage | CallNextImage.

(** ** The state *)

Record World : Type := mkWorld {
  (* this *)
  container : Content;
  folderId : option string;
  columns : Z;
  images : list json;
  currentImageIndex : Z;
  keyHandler : option nat;
  (* document *)
  lightboxes : list (nat * Lightbox);  (* [.tg-lightbox] children of body, in order *)
  overflow : string;                   (* [document.body.style.overflow] *)
  keydown : list nat;                  (* keydown listeners of the document *)
  (* browser *)
  timers : list (Z * Timer);           (* pending timeouts with their delay *)
  console : list LogEntry;
  requests : list string;              (* URLs fetched so far *)
  nextId : nat;                        (* identity of the next object created *)
  calls : list Call
}.

Definition set_container v w := mkWorld v (folderId w) (columns w) (images w) (currentImageIndex w) (keyHandler w) (lightboxes w) (overflow w) (keydown w) (timers w) (console w) (requests w) (nextId w) (calls w).
Definition set_folderId v w := mkWorld (container w) v (columns w) (images w) (currentImageIndex w) (keyHandler w) (lightboxes w) (overflow w) (keydown w) (timers w) (console w) (requests w) (nextId w) (calls w).
Definition set_columns v w := mkWorld (container w) (folderId w) v (images w) (currentImageIndex w) (keyHandler w) (lightboxes w) (overflow w) (keydown w) (timers w) (console w) (requests w) (nextId w) (calls w).
Definition set_images v w := mkWorld (container w) (folderId w) (columns w) v (currentImageIndex w) (keyHandler w) (lightboxes w) (overflow w) (keydown w) (timers w) (console w) (requests w) (nextId w) (calls w).
Definition set_currentImageIndex v w := mkWorld (container w) (folderId w) (columns w) (images w) v (keyHandler w) (lightboxes w) (overflow w) (keydown w) (timers w) (console w) (requests w) (nextId w) (calls w).
Definition set_keyHandler v w := mkWorld (container w) (folderId w) (columns w) (images w) (currentImageIndex w) v (lightboxes w) (overflow w) (keydown w) (timers w) (console w) (requests w) (nextId w) (calls w).
Definition set_lightboxes v w := mkWorld (container w) (folderId w) (columns w) (images w) (currentImageIndex w) (keyHandler w) v (overflow w) (keydown w) (timers w) (console w) (requests w) (nextId w) (calls w).
Definition set_overflow v w := mkWorld (container w) (folderId w) (columns w) (images w) (currentImageIndex w) (keyHandler w) (lightboxes w) v (keydown w) (timers w) (console w) (requests w) (nextId w) (calls w).
Definition set_keydown v w := mkWorld (container w) (folderId w) (columns w) (images w) (currentImageIndex w) (keyHandler w) (lightboxes w) (overflow w) v (timers w) (console w) (requests w) (nextId w) (calls w).
Definition set_timers v w := mkWorld (container w) (folderId w) (columns w) (images w) (currentImageIndex w) (keyHandler w) (lightboxes w) (overflow w) (keydown w) v (console w) (requests w) (nextId w) (calls w).
Definition set_console v w := mkWorld (container w) (folderId w) (columns w) (images w) (currentImageIndex w) (keyHandler w) (lightboxes w) (overflow w) (keydown w) (timers w) v (requests w) (nextId w) (calls w).
Definition set_requests v w := mkWorld (container w) (folderId w) (columns w) (images w) (currentImageIndex w) (keyHandler w) (lightboxes w) (overflow w) (keydown w) (timers w) (console w) v (nextId w) (calls w).
Definition set_nextId v w := mkWorld (container w) (folderId w) (columns w) (images w) (currentImageIndex w) (keyHandler w) (lightboxes w) (overflow w) (keydown w) (timers w) (console w) (requests w) v (calls w).
Definition set_calls v w := mkWorld (container w) (folderId w) (columns w) (images w) (currentImageIndex w) (keyHandler w) (lightboxes w) (overflow w) (keydown w) (timers w) (console w) (requests w) (nextId w) v.

(** A page on which no gallery has been constructed yet. *)
Definition blank_page : World :=
  {| container := Untouched; folderId := None; columns := 0; images := [];
     currentImageIndex := 0; keyHandler := None; lightboxes := [];
     overflow := ""; keydown := []; timers := []; console := [];
     requests := []; nextId := 0%nat; calls := [] |}.

(** ** The monad of methods *)

Inductive result (A : Type) : Type :=
| Ok (a : A) (w : World)       (* normal completion *)
| Raise (e : exn) (w : World). (* abrupt completion by [throw] *)
Arguments Ok {A} a w.
Arguments Raise {A} e w.

Definition M (A : Type) : Type := World -> result A.

Definition ret {A} (a : A) : M A := fun w => Ok a w.
Definition throw {A} (e : exn) : M A := fun w => Raise e w.
Definition bind {A B} (m : M A) (k : A -> M B) : M B :=
  fun w => match m w with
           | Ok a w' => k a w'
           | Raise e w' => Raise e w'
           end.
Definition try_catch {A} (m : M A) (handler : exn -> M A) : M A :=
  fun w => match m w with
           | Ok a w' => Ok a w'
           | Raise e w' => handler e w'
           end.
Definition gets {A} (f : World -> A) : M A := fun w => Ok (f w) w.
Definition modify (f : World -> World) : M unit := fun w => Ok tt (f w).

Notation "x <- m ;; k" := (bind m (fun x => k))
  (at level 61, m at next level, right associativity).
Notation "m ;; k" := (bind m (fun _ => k))
  (at level 61, right associativity).

(** The state a computation leaves, however it completes. *)
Definition final {A} (r : result A) : World :=
  match r with Ok _ w => w | Raise _ w => w end.

(** A property read that throws on [null] and [undefined]. *)
Definition read (key : string) (v : jsval) : M jsval :=
  match get_field key v with
  | Some x => ret x
  | None => throw TypeError
  end.

(** A conversion to a string that throws when the value has none. *)
Definition converted (conversion : option string) : M string :=
  match conversion with
  | Some s => ret s
  | None => throw TypeError
  end.

Definition setTimeout (cb : Timer) (delay : Z) : M unit :=
  modify (fun w => set_timers (timers w ++ [(delay, cb)]) w).

Definition console_error (entry : LogEntry) : M unit :=
  modify (fun w => set_console (console w ++ [entry]) w).

Definition record_call (c : Call) : M unit :=
  modify (fun w => set_calls (calls w ++ [c]) w).

(** ** Methods of [TattooGallery] *)

(** [showLoading], [showEmpty], [showError]: each replaces the content of the
    container. *)
Definition showLoading : M unit := modify (set_container LoadingBox).
Definition showEmpty : M unit := modify (set_container EmptyBox).
Definition showError (message : string) : M unit :=
  modify (set_container (ErrorBox message)).

(** [fetch(url)] and [response.json()]. *)
Definition fetch (net : Network) (url : string) : M Response :=
  modify (fun w => set_requests (requests w ++ [url]) w) ;;
  match net url with
  | NetworkFailure => throw TypeError
  | Responded r => ret r
  end.

Definition response_json (r : Response) : M json :=
  match body r with
  | Some data => ret data
  | None => throw SyntaxError
  end.

(** [this.folderId] interpolated in a template literal. *)
Definition template_folder (f : option string) : string :=
  match f with Some s => s | None => "undefined" end.

(** [fetchImages()], lines 69-83. *)
Definition fetchImages (net : Network) : M json :=
  folder <- gets folderId ;;
  response <- fetch net (CONFIG.apiUrl ++ "/" ++ template_folder folder) ;;
  if negb (ok response)
  then throw (Error ("API error: " ++ show (status response)))
  else
    data <- response_json response ;;
    err <- read "error" (Some data) ;;
    if truthy err
    then
      message <- read "message" (Some data) ;;
      text <- converted (template (js_or message (Some (JStr "Unknown error")))) ;;
      throw (Error text)
    else ret data.

(** [CONFIG.apiUrl.replace('/gallery', '')] *)
Definition image_base : string := replace_first "/gallery" "" CONFIG.apiUrl.

(** [createImageItem(image, index)], lines 114-143. *)
Definition createImageItem (image : json) (index : Z) : M GridItem :=
  image_id <- read "id" (Some image) ;;
  id_text <- converted (template image_id) ;;
  image_name <- read "name" (Some image) ;;
  alt <- converted (template image_name) ;;
  ret {| thumb_data_src := image_base ++ "/image/" ++ id_text ++ "?size=s800";
         thumb_alt := alt;
         thumb_src := None;
         thumb_lazy := true;
         thumb_loaded := false;
         thumb_onload := false;
         thumb_observed := false;
         item_visible := false;
         click_index := index |}.

(** The [forEach] of [renderGallery]: items are appended in array order and
    each receives its own index. *)
Fixpoint forEach_createImageItem (imgs : list json) (index : Z)
  : M (list GridItem) :=
  match imgs with
  | [] => ret []
  | image :: rest =>
      item <- createImageItem image index ;;
      items <- forEach_createImageItem rest (index + 1) ;;
      ret (item :: items)
  end.

(** [renderGallery()], lines 88-109. *)
Definition renderGallery : M unit :=
  gallery <- gets nextId ;;
  modify (set_nextId (S gallery)) ;;
  imgs <- gets images ;;
  items <- forEach_createImageItem imgs 0 ;;
  modify (set_container (Grid gallery items)) ;;
  setTimeout (RevealGrid gallery (List.length items)) 10.

(** [setupLazyLoading()], lines 148-173: every thumbnail that still has the
    class [tg-lazy] is observed. *)
Definition observe (it : GridItem) : GridItem :=
  if thumb_lazy it
  then mkGridItem (thumb_data_src it) (thumb_alt it) (thumb_src it)
         (thumb_lazy it) (thumb_loaded it) (thumb_onload it) true
         (item_visible it) (click_index it)
  else it.

Definition setupLazyLoading : M unit :=
  modify (fun w =>
            match container w with
            | Grid gallery items =>
                set_container (Grid gallery (map observe items)) w
            | _ => w
            end).

(** [document.querySelector('.tg-lightbox')]: the first one in the document. *)
Definition querySelector_lightbox (w : World) : option nat :=
  match lightboxes w with
  | [] => None
  | (el, _) :: _ => Some el
  end.

(** Mutation of the element [el]. *)
Fixpoint update_lightbox (el : nat) (f : Lightbox -> Lightbox)
  (l : list (nat * Lightbox)) : list (nat * Lightbox) :=
  match l with
  | [] => []
  | (e, lb) :: rest =>
      if Nat.eqb e el then (e, f lb) :: rest
      else (e, lb) :: update_lightbox el f rest
  end.

Fixpoint find_lightbox (el : nat) (l : list (nat * Lightbox)) : option Lightbox :=
  match l with
  | [] => None
  | (e, lb) :: rest => if Nat.eqb e el then Some lb else find_lightbox el rest
  end.

Definition on_lightbox (el : nat) (f : Lightbox -> Lightbox) : M unit :=
  modify (fun w => set_lightboxes (update_lightbox el f (lightboxes w)) w).

Definition hide_opacity (lb : Lightbox) : Lightbox :=
  mkLightbox (lb_visible lb) "0" (img_transition lb) (img_src lb) (img_alt lb)
    (img_onerror lb) (img_onload lb) (caption lb) (counter lb)
    (prev_display lb) (next_display lb) (clicks_wired lb) (touchStartX lb).

(** Line 305. *)
Definition set_img_src (imageUrl : string) (lb : Lightbox) : Lightbox :=
  mkLightbox (lb_visible lb) (img_opacity lb) (img_transition lb) imageUrl
    (img_alt lb) (img_onerror lb) (img_onload lb) (caption lb) (counter lb)
    (prev_display lb) (next_display lb) (clicks_wired lb) (touchStartX lb).

(** Line 306. *)
Definition set_img_alt (alt : string) (lb : Lightbox) : Lightbox :=
  mkLightbox (lb_visible lb) (img_opacity lb) (img_transition lb) (img_src lb)
    alt (img_onerror lb) (img_onload lb) (caption lb) (counter lb)
    (prev_display lb) (next_display lb) (clicks_wired lb) (touchStartX lb).

(** Lines 307-326 on one element. *)
Definition render_image (image_name : jsval) (imageUrl text : string)
  (index len : Z) (lb : Lightbox) : Lightbox :=
  {| lb_visible := lb_visible lb;
     img_opacity := img_opacity lb;
     img_transition := img_transition lb;
     img_src := img_src lb;
     img_alt := img_alt lb;
     img_onerror := Some (image_name, imageUrl);
     img_onload := true;
     caption := text;
     counter := show (index + 1) ++ " / " ++ show len;
     prev_display := if index =? 0 then "none" else "flex";
     next_display := if index =? len - 1 then "none" else "flex";
     clicks_wired := clicks_wired lb;
     touchStartX := touchStartX lb |}.

(** [updateLightboxImage(lightbox = document.querySelector('.tg-lightbox'))],
    lines 290-327.  The argument is [None] when the caller passes none. *)
Definition updateLightboxImage (arg : option nat) : M unit :=
  lightbox <- match arg with
              | Some el => ret (Some el)
              | None => gets querySelector_lightbox
              end ;;
  match lightbox with
  | None => ret tt
  | Some el =>
      index <- gets currentImageIndex ;;
      imgs <- gets images ;;
      let image := js_index imgs index in
      on_lightbox el hide_opacity ;;
      image_id <- read "id" image ;;
      id_text <- converted (template image_id) ;;
      let imageUrl := image_base ++ "/image/" ++ id_text ++ "?size=s2000" in
      on_lightbox el (set_img_src imageUrl) ;;
      image_name <- read "name" image ;;
      alt <- converted (template image_name) ;;
      on_lightbox el (set_img_alt alt) ;;
      text <- converted (text_content image_name) ;;
      on_lightbox el (render_image image_name imageUrl text index (js_length imgs))
  end.

(** [prevImage()], lines 332-337. *)
Definition prevImage : M unit :=
  record_call CallPrevImage ;;
  index <- gets currentImageIndex ;;
  if index >? 0
  then modify (set_currentImageIndex (index - 1)) ;; updateLightboxImage None
  else ret tt.

(** [nextImage()], lines 342-347. *)
Definition nextImage : M unit :=
  record_call CallNextImage ;;
  index <- gets currentImageIndex ;;
  len <- gets (fun w => js_length (images w)) ;;
  if index <? len - 1
  then modify (set_currentImageIndex (index + 1)) ;; updateLightboxImage None
  else ret tt.

Definition set_visible (v : bool) (lb : Lightbox) : Lightbox :=
  mkLightbox v (img_opacity lb) (img_transition lb) (img_src lb) (img_alt lb)
    (img_onerror lb) (img_onload lb) (caption lb) (counter lb)
    (prev_display lb) (next_display lb) (clicks_wired lb) (touchStartX lb).

(** [document.removeEventListener('keydown', handler)] *)
Definition removeEventListener (h : option nat) (l : list nat) : list nat :=
  match h with
  | None => l
  | Some k => filter (fun k' => negb (Nat.eqb k' k)) l
  end.

(** [closeLightbox()], lines 352-363. *)
Definition closeLightbox : M unit :=
  lightbox <- gets querySelector_lightbox ;;
  match lightbox with
  | None => ret tt
  | Some el =>
      on_lightbox el (set_visible false) ;;
      modify (fun w =>
                set_keydown (removeEventListener (keyHandler w) (keydown w)) w) ;;
      modify (set_overflow "") ;;
      setTimeout (RemoveLightbox el) 300
  end.

(** [handleSwipe(startX, endX)], lines 272-285. *)
Definition swipeThreshold : Z := 50.

Definition handleSwipe (startX endX : Z) : M unit :=
  let diff := startX - endX in
  if Z.abs diff >? swipeThreshold
  then if diff >? 0 then nextImage else prevImage
  else ret tt.

Definition wire_clicks (lb : Lightbox) : Lightbox :=
  mkLightbox (lb_visible lb) (img_opacity lb) (img_transition lb) (img_src lb)
    (img_alt lb) (img_onerror lb) (img_onload lb) (caption lb) (counter lb)
    (prev_display lb) (next_display lb) true (touchStartX lb).

Definition set_touchStartX (x : option Z) (lb : Lightbox) : Lightbox :=
  mkLightbox (lb_visible lb) (img_opacity lb) (img_transition lb) (img_src lb)
    (img_alt lb) (img_onerror lb) (img_onload lb) (caption lb) (counter lb)
    (prev_display lb) (next_display lb) (clicks_wired lb) x.

(** [setupTouchNavigation(lightbox)], lines 253-267: the two listeners share
    [touchStartX], initially 0. *)
Definition setupTouchNavigation (el : nat) : M unit :=
  on_lightbox el (set_touchStartX (Some 0)).

(** [openLightbox(index)], lines 178-248. *)
Definition openLightbox (index : Z) : M unit :=
  modify (set_currentImageIndex index) ;;
  el <- gets nextId ;;
  modify (set_nextId (S el)) ;;
  modify (fun w => set_lightboxes (lightboxes w ++ [(el, fresh_lightbox)]) w) ;;
  modify (set_overflow "hidden") ;;
  updateLightboxImage (Some el) ;;
  on_lightbox el wire_clicks ;;
  handler <- gets nextId ;;
  modify (set_nextId (S handler)) ;;
  modify (set_keyHandler (Some handler)) ;;
  modify (fun w => set_keydown (keydown w ++ [handler]) w) ;;
  setupTouchNavigation el ;;
  setTimeout (ShowLightbox el) 10.

(** The body of [this.keyHandler], lines 236-240. *)
Definition keyHandler_body (key : string) : M unit :=
  (if String.eqb key "Escape" then closeLightbox else ret tt) ;;
  (if String.eqb key "ArrowLeft" then prevImage else ret tt) ;;
  (if String.eqb key "ArrowRight" then nextImage else ret tt).

(** A gallery once its constructor or [init] has run.  [this.images] is an
    array in every [World]; a payload that is not an array is stored in
    [this.images] all the same (line 52), and the gallery that holds it is
    the second case: [data] is what [this.images] holds, the [World] gives
    every other field, the document and the browser.  Such a gallery never
    shows a grid, so that no listener of the widget is attached for it; the
    lightbox methods and the events are given for the first case. *)
Inductive Loaded : Type :=
| ArrayImages (w : World)
| OtherImages (data : json) (w : World).

(** [init()], lines 48-64.  The three [await]s are run through: nothing else
    touches the instance while it loads. *)
Definition init_catch (error : exn) : M unit :=
  console_error (GalleryError error) ;;
  showError "Failed to load gallery. Please try again later.".

Definition init_try (imgs : list json) : M unit :=
  modify (set_images imgs) ;;
  len <- gets (fun w => js_length (images w)) ;;
  if len =? 0
  then showEmpty
  else renderGallery ;; setupLazyLoading.

(** [data.length === 0] for a value that is not an array: a string has its
    number of characters, an object its member [length], a boolean or a
    number has none, and reading it of [null] is a TypeError ([None]). *)
Definition length_is_zero (data : json) : option bool :=
  match data with
  | JNull => None
  | JStr s => Some (String.eqb s "")
  | JObj members =>
      Some match own "length" members with
           | Some (JNum z) => z =? 0
           | _ => false
           end
  | JArr elems => Some (js_length elems =? 0)
  | JBool _ | JNum _ => Some false
  end.

(** Lines 52-59 when [data] is not an array: [renderGallery] creates its
    element and throws at line 92, where [this.images.forEach] is not a
    function (a string, a boolean and a number inherit none, and a member
    parsed from JSON is not callable). *)
Definition init_try_other (data : json) : M unit :=
  match length_is_zero data with
  | None => throw TypeError
  | Some true => showEmpty
  | Some false =>
      gallery <- gets nextId ;;
      modify (set_nextId (S gallery)) ;;
      throw TypeError
  end.

Definition init (net : Network) (w : World) : Loaded :=
  let w0 := final ((record_call CallInit ;; showLoading) w) in
  match fetchImages net w0 with
  | Raise error w1 => ArrayImages (final (init_catch error w1))
  | Ok (JArr imgs) w1 =>
      ArrayImages (final (try_catch (init_try imgs) init_catch w1))
  | Ok data w1 =>
      OtherImages data (final (try_catch (init_try_other data) init_catch w1))
  end.

(** The container element handed to the constructor: its [data-folder-id]
    attribute and what [parseInt] makes of [data-columns] ([None]: NaN). *)
Record ContainerElement : Type := mkContainerElement {
  dataset_folderId : option string;
  dataset_columns : option Z
}.

Definition falsy_string (s : option string) : bool :=
  match s with
  | None => true
  | Some s => String.eqb s ""
  end.

(** [new TattooGallery(container)], lines 30-43. *)
Definition TattooGallery (el : ContainerElement) (net : Network) (w : World)
  : Loaded :=
  let cols := match dataset_columns el with
              | Some n => if n =? 0 then CONFIG.defaults_columns else n
              | None => CONFIG.defaults_columns
              end in
  let w1 := set_currentImageIndex 0
              (set_images []
                 (set_columns cols
                    (set_folderId (dataset_folderId el)
                       (set_keyHandler None w)))) in
  if falsy_string (folderId w1)
  then ArrayImages (final (showError "Missing data-folder-id attribute" w1))
  else init net w1.

(** ** Events

    A listener runs to completion; an exception that escapes it is reported
    by the event loop and the effects it had stay. *)
Definition deliver (handler : M unit) (w : World) : World :=
  match handler w with
  | Ok _ w' => w'
  | Raise e w' => set_console (console w' ++ [Uncaught e]) w'
  end.

(** A click on the [k]-th grid item (line 140). *)
Definition click_item (k : nat) (w : World) : World :=
  match container w with
  | Grid _ items =>
      match nth_error items k with
      | Some item => deliver (openLightbox (click_index item)) w
      | None => w
      end
  | _ => w
  end.

(** Clicks inside the lightbox element [el] (lines 221-233). *)
Inductive Button : Type := CloseButton | Overlay | PrevButton | NextButton | ContentArea.

Definition click_lightbox (el : nat) (b : Button) (w : World) : World :=
  match find_lightbox el (lightboxes w) with
  | Some lb =>
      if clicks_wired lb
      then match b with
           | CloseButton | Overlay | ContentArea => deliver closeLightbox w
           | PrevButton => deliver prevImage w
           | NextButton => deliver nextImage w
           end
      else w
  | None => w
  end.

(** A key pressed: every keydown listener still registered when its turn
    comes runs [keyHandler_body]. *)
Fixpoint dispatch_keydown (key : string) (listeners : list nat) (w : World) : World :=
  match listeners with
  | [] => w
  | h :: rest =>
      let w' := if existsb (Nat.eqb h) (keydown w)
                then deliver (keyHandler_body key) w
                else w in
      dispatch_keydown key rest w'
  end.

Definition press (key : string) (w : World) : World :=
  dispatch_keydown key (keydown w) w.

(** Touches on the image container of [el] (lines 259-266); only [screenX]
    of the touch point is read, [screenY] is carried and never looked at. *)
Definition touchstart (el : nat) (screenX screenY : Z) (w : World) : World :=
  match find_lightbox el (lightboxes w) with
  | Some lb =>
      match touchStartX lb with
      | Some _ =>
          set_lightboxes
            (update_lightbox el (set_touchStartX (Some screenX)) (lightboxes w)) w
      | None => w
      end
  | None => w
  end.

Definition touchend (el : nat) (screenX screenY : Z) (w : World) : World :=
  match find_lightbox el (lightboxes w) with
  | Some lb =>
      match touchStartX lb with
      | Some startX => deliver (handleSwipe startX screenX) w
      | None => w
      end
  | None => w
  end.

(** The image of the lightbox finished loading, or failed (lines 311-320). *)
Definition loaded_image (lb : Lightbox) : Lightbox :=
  mkLightbox (lb_visible lb) "1" "opacity 0.3s" (img_src lb) (img_alt lb)
    (img_onerror lb) (img_onload lb) (caption lb) (counter lb)
    (prev_display lb) (next_display lb) (clicks_wired lb) (touchStartX lb).

Definition dimmed_image (lb : Lightbox) : Lightbox :=
  mkLightbox (lb_visible lb) "0.3" (img_transition lb) (img_src lb) (img_alt lb)
    (img_onerror lb) (img_onload lb) (caption lb) (counter lb)
    (prev_display lb) (next_display lb) (clicks_wired lb) (touchStartX lb).

Definition image_load (el : nat) (w : World) : World :=
  match find_lightbox el (lightboxes w) with
  | Some lb =>
      if img_onload lb
      then set_lightboxes (update_lightbox el loaded_image (lightboxes w)) w
      else w
  | None => w
  end.

Definition image_error (el : nat) (w : World) : World :=
  match find_lightbox el (lightboxes w) with
  | Some lb =>
      match img_onerror lb with
      | Some (image_name, imageUrl) =>
          set_lightboxes (update_lightbox el dimmed_image (lightboxes w))
            (set_console (console w ++ [ImageLoadFailed image_name imageUrl]) w)
      | None => w
      end
  | None => w
  end.

(** Timeouts.  [fire n] runs the [n]-th pending callback; the model fixes no
    order among them, so a statement over every [n] covers every schedule. *)
Fixpoint reveal_timers (gallery i count : nat) : list (Z * Timer) :=
  match count with
  | O => []
  | S rest =>
      (Z.of_nat i * 50, RevealItem gallery i)
        :: reveal_timers gallery (S i) rest
  end.

Definition reveal (it : GridItem) : GridItem :=
  mkGridItem (thumb_data_src it) (thumb_alt it) (thumb_src it) (thumb_lazy it)
    (thumb_loaded it) (thumb_onload it) (thumb_observed it) true (click_index it).

Fixpoint update_nth {A} (n : nat) (f : A -> A) (l : list A) : list A :=
  match l, n with
  | [], _ => []
  | x :: rest, O => f x :: rest
  | x :: rest, S n' => x :: update_nth n' f rest
  end.

(** The items of the gallery element [gallery] at the time its reveal
    timeout runs (line 102): those the container shows when it holds that
    gallery, and the [count] items it was built with when it has been taken
    out of the document. *)
Definition querySelectorAll_items (gallery count : nat) (w : World) : nat :=
  match container w with
  | Grid g items => if Nat.eqb g gallery then List.length items else count
  | _ => count
  end.

(** A reveal timeout acts on the gallery or the item it captured; marking an
    item of a gallery that is no longer in the document shows nowhere. *)
Definition run_timer (t : Timer) (w : World) : World :=
  match t with
  | RevealGrid gallery count =>
      set_timers
        (timers w
           ++ reveal_timers gallery 0 (querySelectorAll_items gallery count w))
        w
  | RevealItem gallery i =>
      match container w with
      | Grid g items =>
          if Nat.eqb g gallery
          then set_container (Grid g (update_nth i reveal items)) w
          else w
      | _ => w
      end
  | ShowLightbox el =>
      set_lightboxes (update_lightbox el (set_visible true) (lightboxes w)) w
  | RemoveLightbox el =>
      set_lightboxes
        (filter (fun p => negb (Nat.eqb (fst p) el)) (lightboxes w)) w
  end.

Fixpoint remove_nth {A} (n : nat) (l : list A) : list A :=
  match l, n with
  | [], _ => []
  | _ :: rest, O => rest
  | x :: rest, S n' => x :: remove_nth n' rest
  end.

Definition fire (n : nat) (w : World) : World :=
  match nth_error (timers w) n with
  | Some (_, t) => run_timer t (set_timers (remove_nth n (timers w)) w)
  | None => w
  end.

(** A thumbnail comes near the viewport, and later loads (lines 155-168). *)
Definition intersecting (it : GridItem) : GridItem :=
  if thumb_observed it
  then mkGridItem (thumb_data_src it) (thumb_alt it) (Some (thumb_data_src it))
         false (thumb_loaded it) true false (item_visible it) (click_index it)
  else it.

Definition thumb_load (it : GridItem) : GridItem :=
  if thumb_onload it
  then mkGridItem (thumb_data_src it) (thumb_alt it) (thumb_src it)
         (thumb_lazy it) true (thumb_onload it) (thumb_observed it)
         (item_visible it) (click_index it)
  else it.

Definition on_item (k : nat) (f : GridItem -> GridItem) (w : World) : World :=
  match container w with
  | Grid gallery items => set_container (Grid gallery (update_nth k f items)) w
  | _ => w
  end.

(** What can happen to an open page, one event at a time. *)
Inductive Event : Type :=
| ClickItem (k : nat)
| ClickLightbox (el : nat) (b : Button)
| Press (key : string)
| TouchStart (el : nat) (x y : Z)
| TouchEnd (el : nat) (x y : Z)
| ImageLoad (el : nat)
| ImageError (el : nat)
| Fire (n : nat)
| Intersect (k : nat)
| ThumbLoad (k : nat).

Definition step (ev : Event) (w : World) : World :=
  match ev with
  | ClickItem k => click_item k w
  | ClickLightbox el b => click_lightbox el b w
  | Press key => press key w
  | TouchStart el x y => touchstart el x y w
  | TouchEnd el x y => touchend el x y w
  | ImageLoad el => image_load el w
  | ImageError el => image_error el w
  | Fire n => fire n w
  | Intersect k => on_item k intersecting w
  | ThumbLoad k => on_item k thumb_load w
  end.

Definition run (evs : list Event) (w : World) : World :=
  fold_left (fun w ev => step ev w) evs w.

(** * Vocabulary of the statements *)

(** The index that [nextImage] and [prevImage] leave. *)
Definition next_index (w : World) : Z :=
  if currentImageIndex w <? js_length (images w) - 1
  then currentImageIndex w + 1
  else currentImageIndex w.

Definition prev_index (w : World) : Z :=
  if currentImageIndex w >? 0
  then currentImageIndex w - 1
  else currentImageIndex w.

(** The invariant of an open lightbox. *)
Definition in_range (w : World) : Prop :=
  0 <= currentImageIndex w < js_length (images w).

(** A property that a computation keeps, however it completes. *)
Definition keeps (P : World -> Prop) {A} (m : M A) : Prop :=
  forall w, P w -> P (final (m w)).

(** Every click listener of the grid captured an index of the image array. *)
Definition grid_ok (w : World) : Prop :=
  forall gallery items, container w = Grid gallery items ->
    Forall (fun it => 0 <= click_index it < js_length (images w)) items.

(** While a lightbox element is in the document, the current index is one of
    the image array; the array is [imgs]. *)
Definition session_inv (imgs : list json) (w : World) : Prop :=
  images w = imgs /\ grid_ok w /\ (lightboxes w = [] \/ in_range w).

(** The thumbnail of a well-formed descriptor. *)
Definition thumbnail (im : Image) (index : Z) : GridItem :=
  {| thumb_data_src := image_base ++ "/image/" ++ id im ++ "?size=s800";
     thumb_alt := name im;
     thumb_src := None;
     thumb_lazy := true;
     thumb_loaded := false;
     thumb_onload := false;
     thumb_observed := false;
     item_visible := false;
     click_index := index |}.

Fixpoint thumbnails (ims : list Image) (index : Z) : list GridItem :=
  match ims with
  | [] => []
  | im :: rest => thumbnail im index :: thumbnails rest (index + 1)
  end.

(** The element that a call of [updateLightboxImage] works on. *)
Definition target (arg : option nat) (w : World) : option nat :=
  match arg with
  | Some el => Some el
  | None => querySelector_lightbox w
  end.

(** The navigation that a swipe from [startX] to [endX] asks for. *)
Definition swipe_calls (startX endX : Z) : list Call :=
  if Z.abs (startX - endX) >? swipeThreshold
  then if startX - endX >? 0 then [CallNextImage] else [CallPrevImage]
  else [].

(** The URL that [fetchImages] requests, and the state once it is requested. *)
Definition endpoint (w : World) : string :=
  CONFIG.apiUrl ++ "/" ++ template_folder (folderId w).

Definition requested (w : World) : World :=
  set_requests (requests w ++ [endpoint w]) w.

(** What [fetchImages] throws for a body whose [error] is truthy: an Error
    with [data.message] as a string, or with "Unknown error" when it is
    absent or falsy; a TypeError when it has no conversion to a string. *)
Definition application_error (message : jsval) : exn :=
  if truthy message
  then match template message with
       | Some text => Error text
       | None => TypeError
       end
  else Error "Unknown error".

Definition generic_message : string :=
  "Failed to load gallery. Please try again later.".

(** The state in which [init] issues its request. *)
Definition loading (w : World) : World :=
  final ((record_call CallInit ;; showLoading) w).

(** Identities handed out so far are below [nextId]. *)
Definition fresh (w : World) : Prop :=
  forall e lb, In (e, lb) (lightboxes w) -> (e < nextId w)%nat.

(** The element that [openLightbox(index)] leaves in the document. *)
(** Lines 299-326 on one element, for an image whose [id] converts to
    [id_text] and whose [name] converts to [alt] and, as a caption, to
    [text]. *)
Definition presented (image_name : jsval) (id_text alt text : string)
  (index len : Z) (lb : Lightbox) : Lightbox :=
  let imageUrl := image_base ++ "/image/" ++ id_text ++ "?size=s2000" in
  render_image image_name imageUrl text index len
    (set_img_alt alt (set_img_src imageUrl (hide_opacity lb))).

Definition opened_lightbox (image_name : jsval) (id_text alt text : string)
  (index len : Z) : Lightbox :=
  set_touchStartX (Some 0)
    (wire_clicks
       (presented image_name id_text alt text index len fresh_lightbox)).

(** An element that the widget can present: its [id] and its [name] can be
    read, so it is not [null], and each has a conversion to a string.  Every
    [descriptor] is one. *)
Definition presentable (image : json) : bool :=
  match get_field "id" (Some image), get_field "name" (Some image) with
  | Some image_id, Some image_name =>
      match template image_id, template image_name with
      | Some _, Some _ => true
      | _, _ => false
      end
  | _, _ => false
  end.

Definition all_presentable (arr : list json) : Prop :=
  forallb presentable arr = true.

Definition is_array (data : json) : bool :=
  match data with
  | JArr _ => true
  | _ => false
  end.

(** The document and browser that a gallery leaves, and what its [images]
    field holds. *)
Definition state_of (g : Loaded) : World :=
  match g with
  | ArrayImages w => w
  | OtherImages _ w => w
  end.

Definition held (g : Loaded) : json :=
  match g with
  | ArrayImages w => JArr (images w)
  | OtherImages data _ => data
  end.

(** What the buttons of an element show, against an index and a length. *)
Definition shows_at (lb : Lightbox) (index len : Z) : Prop :=
  prev_display lb = (if index =? 0 then "none" else "flex") /\
  next_display lb = (if index =? len - 1 then "none" else "flex").

Definition shows (lb : Lightbox) (w : World) : Prop :=
  shows_at lb (currentImageIndex w) (js_length (images w)).

(** The document holds at most one lightbox element, and it shows the
    current index; a grid exists only over an array of presentable
    elements. *)
Definition one_session (w : World) : Prop :=
  grid_ok w /\
  (forall gallery items,
     container w = Grid gallery items -> all_presentable (images w)) /\
  (lightboxes w = [] \/
   exists el lb, lightboxes w = [(el, lb)] /\ in_range w /\
                 all_presentable (images w) /\ shows lb w).

(** Events that respect the protocol of the lightbox: a grid item is
    activated only when no lightbox element is in the document. *)
Fixpoint from_closed (evs : list Event) (w : World) : Prop :=
  match evs with
  | [] => True
  | ev :: rest =>
      match ev with
      | ClickItem _ => lightboxes w = []
      | _ => True
      end /\ from_closed rest (step ev w)
  end.

(** The page of the specification's example: folder "F1", two images. *)
Definition cat_dog : list Image := [mkImage "a" "Cat"; mkImage "b" "Dog"].

Definition cat_dog_net : Network :=
  fun _ => Responded (mkResponse 200 (Some (JArr (map descriptor cat_dog)))).

Definition f1 : ContainerElement := mkContainerElement (Some "F1") None.

Definition cat_dog_gallery : World :=
  Eval vm_compute in
    match TattooGallery f1 cat_dog_net blank_page with
    | ArrayImages w => w
    | OtherImages _ _ => blank_page
    end.

(** The same page after a click on the second item. *)
Definition dog_open : World := Eval vm_compute in click_item 1 cat_dog_gallery.

Definition dog_lightbox : Lightbox :=
  Eval vm_compute in
    match find_lightbox 1 (lightboxes dog_open) with
    | Some lb => lb
    | None => fresh_lightbox
    end.

(** Item 1 is opened, a timeout runs, and the left arrow goes back to "Cat". *)
Definition back_to_cat : list Event :=
  [ClickItem 1; Fire 1; Press "ArrowLeft"].

Definition cat_lightbox : Lightbox :=
  Eval vm_compute in
    match lightboxes (run back_to_cat cat_dog_gallery) with
    | (_, lb) :: _ => lb
    | [] => fresh_lightbox
    end.

Definition not_found : Response := mkResponse 404 None.

(** An object with a member [toString]: it has no conversion to a string.
    A body that reports an error with such a message, and a listing whose
    one element has such an [id]. *)
Definition unprintable : json := JObj [("toString", JNum 1)].

Definition unprintable_message : Response :=
  mkResponse 200
    (Some (JObj [("error", JBool true); ("message", unprintable)])).

Definition unprintable_id_net : Network :=
  fun _ => Responded
             (mkResponse 200
                (Some (JArr [JObj [("id", unprintable); ("name", JStr "x")]]))).

Definition quota_exceeded : Response :=
  mkResponse 200
    (Some (JObj [("error", JBool true); ("message", JStr "quota exceeded")])).

(** ** Vocabulary of the further properties *)

(** [n] calls of a method in a row, each from the state the previous one
    left. *)
Definition repeatedly (m : M unit) (n : nat) (w : World) : World :=
  Nat.iter n (fun w => final (m w)) w.

(** What a lightbox element presents of an image: source, alternative text,
    caption, counter, what its error handler would report, and whether it
    has a load handler. *)
Definition view (lb : Lightbox)
  : string * string * string * string * option (jsval * string) * bool :=
  (img_src lb, img_alt lb, caption lb, counter lb, img_onerror lb,
   img_onload lb).

(** The presentation of the current image, when there is one to read the
    [id] and [name] of and both have a conversion to a string: the
    full-size proxy URL of its [id], its [name] as
    alternative text and as caption, its position among the images, an
    error handler that reports its [name] and that URL, and a load
    handler. *)
Definition current_view (w : World)
  : option (string * string * string * string * option (jsval * string)
            * bool) :=
  let image := js_index (images w) (currentImageIndex w) in
  match get_field "id" image, get_field "name" image with
  | Some image_id, Some image_name =>
      match template image_id, template image_name,
            text_content image_name with
      | Some id_text, Some alt, Some text =>
          let imageUrl := image_base ++ "/image/" ++ id_text ++ "?size=s2000" in
          Some (imageUrl,
                alt,
                text,
                show (currentImageIndex w + 1) ++ " / "
                  ++ show (js_length (images w)),
                Some (image_name, imageUrl),
                true)
      | _, _, _ => None
      end
  | _, _ => None
  end.

(** One session ([one_session]) whose element presents the current image. *)
Definition one_view (w : World) : Prop :=
  one_session w /\
  forall e lb, In (e, lb) (lightboxes w) -> current_view w = Some (view lb).

(** The grid items of the container, none when it holds no grid. *)
Definition grid_items (w : World) : list GridItem :=
  match container w with
  | Grid _ items => items
  | _ => []
  end.

(** A thumbnail as [createImageItem] builds it and [setupLazyLoading] leaves
    it: no [src] yet, class [tg-lazy], observed. *)
Definition waiting (it : GridItem) : Prop :=
  thumb_src it = None /\ thumb_lazy it = true /\ thumb_observed it = true /\
  thumb_loaded it = false /\ item_visible it = false.

(** The thumbnail of a descriptor once it came near the viewport: its [src]
    is the proxy URL that [data-src] held, it is no longer lazy nor
    observed, and it has a load handler. *)
Definition requested_thumbnail (im : Image) (index : Z) : GridItem :=
  {| thumb_data_src := image_base ++ "/image/" ++ id im ++ "?size=s800";
     thumb_alt := name im;
     thumb_src := Some (image_base ++ "/image/" ++ id im ++ "?size=s800");
     thumb_lazy := false;
     thumb_loaded := false;
     thumb_onload := true;
     thumb_observed := false;
     item_visible := false;
     click_index := index |}.

(** A timeout that will remove the element [el] is pending. *)
Definition pending_removal (el : nat) (w : World) : Prop :=
  In (RemoveLightbox el) (map snd (timers w)).

(** Listeners in step with the lightbox: identities handed out are below
    [nextId]; and either no keydown listener is registered, or exactly one
    is, it is [this.keyHandler], and the document holds exactly one lightbox
    element, for which no removal is pending. *)
Definition tidy (w : World) : Prop :=
  Forall (fun e => (e < nextId w)%nat) (map fst (lightboxes w)) /\
  (forall el, pending_removal el w -> (el < nextId w)%nat) /\
  (keydown w = [] \/
   exists h el,
     keydown w = [h] /\ keyHandler w = Some h /\
     map fst (lightboxes w) = [el] /\ ~ pending_removal el w).

(** The reveal timeouts of the items [order] of the gallery element
    [gallery], run one after the other. *)
Definition reveal_in_order (gallery : nat) (order : list nat) (w : World)
  : World :=
  fold_left (fun w i => run_timer (RevealItem gallery i) w) order w.

(** The example gallery as [init] alone leaves it, its grid items, and a
    listing in which the second element is [null]. *)
Definition cat_dog_loaded : World :=
  Eval vm_compute in
    match init cat_dog_net blank_page with
    | ArrayImages w => w
    | OtherImages _ _ => blank_page
    end.

(** The example page with a second item activated while the lightbox of
    the first is open: two lightbox elements in the document. *)
Definition two_open : World :=
  Eval vm_compute in run [ClickItem 0; ClickItem 1] cat_dog_gallery.

Definition first_of_two : Lightbox :=
  Eval vm_compute in
    match lightboxes two_open with
    | (_, lb) :: _ => lb
    | [] => fresh_lightbox
    end.

Definition second_of_two : Lightbox :=
  Eval vm_compute in
    match lightboxes two_open with
    | _ :: (_, lb) :: _ => lb
    | _ => fresh_lightbox
    end.

(** A gallery that holds the two descriptors and has rendered nothing yet,
    and the same once [renderGallery] has run. *)
Definition listed : World := set_images (map descriptor cat_dog) blank_page.

Definition rendered : World := Eval vm_compute in final (renderGallery listed).

Definition cat_null_net : Network :=
  fun _ => Responded
             (mkResponse 200
                (Some (JArr [descriptor (mkImage "a" "Cat"); JNull]))).

(** * Properties *)

(** ** Tactics and frame lemmas *)

Arguments image_base : simpl never.
Arguments get_field : simpl never.

Ltac unfold_monad :=
  unfold read, converted, setTimeout, console_error, record_call,
    on_lightbox in *;
  unfold bind, ret, throw, gets, modify, try_catch in *.

Ltac break_match :=
  match goal with
  | |- context [match ?x with _ => _ end] => destruct x eqn:?
  end.

Ltac frame_fields := repeat (split; [first [reflexivity | lia]|]).


Lemma set_lightboxes_same (w : World) : set_lightboxes (lightboxes w) w = w.
Proof. destruct w; reflexivity. Qed.

Lemma update_lightbox_ids el f l :
  map fst (update_lightbox el f l) = map fst l.
Proof.
  induction l as [|[e lb] rest IH]; simpl; [reflexivity|].
  destruct (Nat.eqb e el); simpl; [reflexivity | now rewrite IH].
Qed.

Lemma find_update_lightbox el f l lb :
  find_lightbox el l = Some lb ->
  find_lightbox el (update_lightbox el f l) = Some (f lb).
Proof.
  induction l as [|[e x] rest IH]; simpl; [discriminate|].
  destruct (Nat.eqb e el) eqn:E; simpl; rewrite E.
  - now intros [= ->].
  - exact IH.
Qed.

Lemma find_lightbox_app_fresh el l lb :
  (forall e x, In (e, x) l -> (e < el)%nat) ->
  find_lightbox el (l ++ [(el, lb)]) = Some lb.
Proof.
  induction l as [|[e x] rest IH]; simpl; intros F.
  - now rewrite Nat.eqb_refl.
  - destruct (Nat.eqb e el) eqn:E.
    + apply Nat.eqb_eq in E. specialize (F e x (or_introl eq_refl)). lia.
    + apply IH. intros e' x' H. apply (F e' x'). now right.
Qed.

(** Rendering touches the lightbox elements and nothing else, and it neither
    adds nor removes one. *)
Lemma updateLightboxImage_frame arg w :
  exists L, final (updateLightboxImage arg w) = set_lightboxes L w
            /\ map fst L = map fst (lightboxes w).
Proof.
  assert (render : forall el,
    exists L,
      final
        ((index <- gets currentImageIndex ;;
          imgs <- gets images ;;
          let image := js_index imgs index in
          on_lightbox el hide_opacity ;;
          image_id <- read "id" image ;;
          id_text <- converted (template image_id) ;;
          let imageUrl := image_base ++ "/image/" ++ id_text ++ "?size=s2000" in
          on_lightbox el (set_img_src imageUrl) ;;
          image_name <- read "name" image ;;
          alt <- converted (template image_name) ;;
          on_lightbox el (set_img_alt alt) ;;
          text <- converted (text_content image_name) ;;
          on_lightbox el
            (render_image image_name imageUrl text index (js_length imgs))) w)
      = set_lightboxes L w /\ map fst L = map fst (lightboxes w)).
  { intros el. unfold_monad. cbn [final].
    destruct (get_field "id" _) as [image_id|]; cbn [final];
      [destruct (template image_id); cbn [final];
       [destruct (get_field "name" _) as [image_name|]; cbn [final];
        [destruct (template image_name); cbn [final];
         [destruct (text_content image_name); cbn [final]|]|]|]|];
      eexists; (split; [reflexivity|]); cbn [lightboxes set_lightboxes];
      now rewrite ?update_lightbox_ids. }
  unfold updateLightboxImage.
  destruct arg as [el|].
  - apply (render el).
  - unfold bind at 1, gets at 1.
    destruct (querySelector_lightbox w) as [el|].
    + apply (render el).
    + exists (lightboxes w). now rewrite set_lightboxes_same.
Qed.

Lemma nextImage_frame w :
  exists L,
    final (nextImage w) =
      set_lightboxes L
        (set_currentImageIndex (next_index w)
           (set_calls (calls w ++ [CallNextImage]) w))
    /\ map fst L = map fst (lightboxes w).
Proof.
  unfold nextImage, next_index. unfold_monad. simpl.
  destruct (currentImageIndex w <? js_length (images w) - 1) eqn:C.
  - match goal with
    | |- context [updateLightboxImage None ?w0] =>
        destruct (updateLightboxImage_frame None w0) as (L & HL & Hids);
        destruct (updateLightboxImage None w0); simpl in *; subst;
        exists L; (split; [reflexivity | exact Hids])
    end.
  - simpl. exists (lightboxes w). split; [|reflexivity].
    destruct w; reflexivity.
Qed.

Lemma prevImage_frame w :
  exists L,
    final (prevImage w) =
      set_lightboxes L
        (set_currentImageIndex (prev_index w)
           (set_calls (calls w ++ [CallPrevImage]) w))
    /\ map fst L = map fst (lightboxes w).
Proof.
  unfold prevImage, prev_index. unfold_monad. simpl.
  destruct (currentImageIndex w >? 0) eqn:C.
  - match goal with
    | |- context [updateLightboxImage None ?w0] =>
        destruct (updateLightboxImage_frame None w0) as (L & HL & Hids);
        destruct (updateLightboxImage None w0); simpl in *; subst;
        exists L; (split; [reflexivity | exact Hids])
    end.
  - simpl. exists (lightboxes w). split; [|reflexivity].
    destruct w; reflexivity.
Qed.

(** C1.  In a lightbox state, i.e. with [0 <= i < N] for the current index
    [i] and the number [N] of images: [nextImage] leaves [i] when
    [i = N - 1] and otherwise makes it [i + 1]; [prevImage] leaves [i] when
    [i = 0] and otherwise makes it [i - 1]; neither leaves the range
    [0 .. N-1], so neither wraps around.  This holds of the state the call
    leaves whether or not the re-rendering it triggers completes. *)
Theorem navigation_moves_by_one_without_wrapping (w : World) :
  in_range w ->
  let i := currentImageIndex w in
  let N := js_length (images w) in
  let i_next := currentImageIndex (final (nextImage w)) in
  let i_prev := currentImageIndex (final (prevImage w)) in
  (i = N - 1 -> i_next = i) /\ (i <> N - 1 -> i_next = i + 1) /\
  (i = 0 -> i_prev = i) /\ (i <> 0 -> i_prev = i - 1) /\
  0 <= i_next < N /\ 0 <= i_prev < N /\
  images (final (nextImage w)) = images w /\
  images (final (prevImage w)) = images w.
Proof.
  intros R. unfold in_range in R. cbv zeta.
  destruct (nextImage_frame w) as (Ln & -> & _).
  destruct (prevImage_frame w) as (Lp & -> & _).
  simpl. unfold next_index, prev_index.
  destruct (currentImageIndex w <? js_length (images w) - 1) eqn:A;
    destruct (currentImageIndex w >? 0) eqn:B;
    repeat split; try lia.
Qed.

(** ** What each lightbox method leaves untouched *)

Lemma closeLightbox_ok w : exists w', closeLightbox w = Ok tt w'.
Proof.
  unfold closeLightbox. unfold_monad.
  destruct (querySelector_lightbox w); eexists; reflexivity.
Qed.

Lemma closeLightbox_frame w :
  let w' := final (closeLightbox w) in
  images w' = images w /\ container w' = container w /\
  currentImageIndex w' = currentImageIndex w /\
  calls w' = calls w /\ nextId w' = nextId w /\
  map fst (lightboxes w') = map fst (lightboxes w).
Proof.
  unfold closeLightbox. unfold_monad.
  destruct (querySelector_lightbox w); cbn; repeat split; trivial.
  now rewrite update_lightbox_ids.
Qed.

Lemma openLightbox_frame k w :
  let w' := final (openLightbox k w) in
  images w' = images w /\ container w' = container w /\
  currentImageIndex w' = k /\
  calls w' = calls w /\ overflow w' = "hidden" /\
  map fst (lightboxes w') = (map fst (lightboxes w) ++ [nextId w])%list /\
  (nextId w < nextId w')%nat.
Proof.
  unfold openLightbox, setupTouchNavigation. unfold_monad. cbv zeta.
  match goal with
  | |- context [updateLightboxImage ?a ?w0] =>
      destruct (updateLightboxImage_frame a w0) as (L & HL & Hids);
      destruct (updateLightboxImage a w0); cbn in HL |- *; subst
  end; cbn in Hids |- *;
    rewrite ?update_lightbox_ids, Hids, map_app; cbn;
    repeat split; trivial; lia.
Qed.

Lemma nextImage_frame' w :
  let w' := final (nextImage w) in
  images w' = images w /\ container w' = container w /\
  currentImageIndex w' = next_index w /\
  calls w' = (calls w ++ [CallNextImage])%list /\ nextId w' = nextId w /\
  map fst (lightboxes w') = map fst (lightboxes w).
Proof.
  destruct (nextImage_frame w) as (L & -> & H). cbn. now rewrite H.
Qed.

Lemma prevImage_frame' w :
  let w' := final (prevImage w) in
  images w' = images w /\ container w' = container w /\
  currentImageIndex w' = prev_index w /\
  calls w' = (calls w ++ [CallPrevImage])%list /\ nextId w' = nextId w /\
  map fst (lightboxes w') = map fst (lightboxes w).
Proof.
  destruct (prevImage_frame w) as (L & -> & H). cbn. now rewrite H.
Qed.

Lemma keeps_ret P {A} (a : A) : keeps P (ret a).
Proof. intros w H. exact H. Qed.

Lemma keeps_bind P {A B} (m : M A) (k : A -> M B) :
  keeps P m -> (forall a, keeps P (k a)) -> keeps P (bind m k).
Proof.
  intros Hm Hk w H. unfold bind. specialize (Hm w H).
  destruct (m w) as [a w'|e w']; cbn in *; [now apply Hk | exact Hm].
Qed.

Lemma keeps_if P {A} (b : bool) (m1 m2 : M A) :
  keeps P m1 -> keeps P m2 -> keeps P (if b then m1 else m2).
Proof. now destruct b. Qed.

(** ** The session invariant *)

Lemma ids_nil {A B} (l l' : list (A * B)) :
  map fst l' = map fst l -> l = [] -> l' = [].
Proof. intros H ->. now destruct l'. Qed.

Lemma session_inv_transfer imgs w w' :
  session_inv imgs w ->
  images w' = images w -> container w' = container w ->
  (lightboxes w = [] -> lightboxes w' = []) ->
  (in_range w -> in_range w') ->
  session_inv imgs w'.
Proof.
  intros (Hi & Hg & Hr) Ei Ec El Er. repeat split.
  - congruence.
  - intros gallery items Hc. rewrite Ei. apply (Hg gallery). congruence.
  - destruct Hr; [left | right]; auto.
Qed.

Lemma next_index_in_range w :
  in_range w -> 0 <= next_index w < js_length (images w).
Proof.
  unfold in_range, next_index.
  destruct (currentImageIndex w <? js_length (images w) - 1) eqn:C; lia.
Qed.

Lemma prev_index_in_range w :
  in_range w -> 0 <= prev_index w < js_length (images w).
Proof.
  unfold in_range, prev_index.
  destruct (currentImageIndex w >? 0) eqn:C; lia.
Qed.

Lemma keeps_nextImage imgs : keeps (session_inv imgs) nextImage.
Proof.
  intros w H. destruct (nextImage_frame' w) as (Ei & Ec & Ex & _ & _ & El).
  apply (session_inv_transfer imgs w); trivial.
  - now apply ids_nil.
  - intros R. unfold in_range. rewrite Ex, Ei. now apply next_index_in_range.
Qed.

Lemma keeps_prevImage imgs : keeps (session_inv imgs) prevImage.
Proof.
  intros w H. destruct (prevImage_frame' w) as (Ei & Ec & Ex & _ & _ & El).
  apply (session_inv_transfer imgs w); trivial.
  - now apply ids_nil.
  - intros R. unfold in_range. rewrite Ex, Ei. now apply prev_index_in_range.
Qed.

Lemma keeps_closeLightbox imgs : keeps (session_inv imgs) closeLightbox.
Proof.
  intros w H. destruct (closeLightbox_frame w) as (Ei & Ec & Ex & _ & _ & El).
  apply (session_inv_transfer imgs w); trivial.
  - now apply ids_nil.
  - unfold in_range. now rewrite Ex, Ei.
Qed.

Lemma keeps_openLightbox imgs k :
  0 <= k < js_length imgs -> keeps (session_inv imgs) (openLightbox k).
Proof.
  intros Hk w (Hi & Hg & Hr).
  destruct (openLightbox_frame k w) as (Ei & Ec & Ex & _ & _ & El & _).
  repeat split.
  - congruence.
  - intros gallery items Hc. rewrite Ei. apply (Hg gallery). congruence.
  - right. unfold in_range. rewrite Ex, Ei, Hi. exact Hk.
Qed.

Lemma keeps_keyHandler_body imgs key :
  keeps (session_inv imgs) (keyHandler_body key).
Proof.
  unfold keyHandler_body.
  repeat (apply keeps_bind; [|intros _]);
    apply keeps_if;
    auto using keeps_ret, keeps_closeLightbox, keeps_prevImage, keeps_nextImage.
Qed.

Lemma keeps_handleSwipe imgs startX endX :
  keeps (session_inv imgs) (handleSwipe startX endX).
Proof.
  unfold handleSwipe.
  repeat apply keeps_if;
    auto using keeps_ret, keeps_prevImage, keeps_nextImage.
Qed.

Lemma deliver_inv imgs (h : M unit) w :
  keeps (session_inv imgs) h -> session_inv imgs w ->
  session_inv imgs (deliver h w).
Proof.
  intros K H. specialize (K w H). unfold deliver.
  destruct (h w) as [u w'|e w']; cbn in K; [exact K|].
  apply (session_inv_transfer imgs w'); trivial.
Qed.

Lemma dispatch_keydown_inv imgs key ls w :
  session_inv imgs w -> session_inv imgs (dispatch_keydown key ls w).
Proof.
  revert w. induction ls as [|h rest IH]; intros w H; cbn; [exact H|].
  apply IH. destruct (existsb _ _); [|exact H].
  apply deliver_inv; [apply keeps_keyHandler_body | exact H].
Qed.

Lemma update_nth_click {A} (P : A -> Prop) f n (l : list A) :
  (forall x, P x -> P (f x)) -> Forall P l -> Forall P (update_nth n f l).
Proof.
  intros Hf. revert n. induction l as [|x rest IH]; intros n H; [destruct n; exact H|].
  inversion H; subst. destruct n; cbn; constructor; auto.
Qed.

Lemma on_item_inv imgs k f w :
  (forall it, click_index (f it) = click_index it) ->
  session_inv imgs w -> session_inv imgs (on_item k f w).
Proof.
  intros Hf (Hi & Hg & Hr). unfold on_item.
  destruct (container w) as [| | | |gallery items] eqn:C;
    try (repeat split; assumption).
  repeat split; trivial.
  intros gallery' items' [= <- <-]. cbn.
  apply update_nth_click; [intros it; now rewrite Hf | now apply (Hg gallery)].
Qed.

Lemma fire_inv imgs n w : session_inv imgs w -> session_inv imgs (fire n w).
Proof.
  intros H. unfold fire.
  destruct (nth_error (timers w) n) as [[d t]|]; [|exact H].
  assert (H0 : session_inv imgs (set_timers (remove_nth n (timers w)) w))
    by (apply (session_inv_transfer imgs w); trivial).
  revert H0. generalize (set_timers (remove_nth n (timers w)) w) as w0.
  intros w0 H0. destruct t; cbn.
  - apply (session_inv_transfer imgs w0); trivial.
  - pose proof (on_item_inv imgs i reveal w0 (fun it => eq_refl) H0) as R.
    unfold on_item in R.
    destruct (container w0) as [| | | |g items]; try exact H0.
    destruct (Nat.eqb g gallery); [exact R | exact H0].
  - apply (session_inv_transfer imgs w0); trivial.
    cbn. intros ->. reflexivity.
  - apply (session_inv_transfer imgs w0); trivial.
    cbn. intros ->. reflexivity.
Qed.

Lemma step_inv imgs ev w : session_inv imgs w -> session_inv imgs (step ev w).
Proof.
  intros H. destruct ev; cbn.
  - unfold click_item.
    destruct (container w) as [| | | |gallery items] eqn:C; trivial.
    destruct (nth_error items k) as [it|] eqn:N; trivial.
    apply deliver_inv; trivial. apply keeps_openLightbox.
    destruct H as (Hi & Hg & _). specialize (Hg gallery items C).
    rewrite Forall_forall in Hg. rewrite <- Hi.
    apply Hg. eapply nth_error_In; eassumption.
  - unfold click_lightbox. destruct (find_lightbox _ _); trivial.
    destruct (clicks_wired _); trivial.
    destruct b; apply deliver_inv;
      auto using keeps_closeLightbox, keeps_prevImage, keeps_nextImage.
  - apply dispatch_keydown_inv; trivial.
  - unfold touchstart. destruct (find_lightbox _ _) as [lb|]; trivial.
    destruct (touchStartX lb); trivial.
    apply (session_inv_transfer imgs w); trivial.
    cbn. intros ->. reflexivity.
  - unfold touchend. destruct (find_lightbox _ _) as [lb|]; trivial.
    destruct (touchStartX lb); trivial.
    apply deliver_inv; trivial. apply keeps_handleSwipe.
  - unfold image_load. destruct (find_lightbox _ _) as [lb|]; trivial.
    destruct (img_onload lb); trivial.
    apply (session_inv_transfer imgs w); trivial.
    cbn. intros ->. reflexivity.
  - unfold image_error. destruct (find_lightbox _ _) as [lb|]; trivial.
    destruct (img_onerror lb) as [[nm url]|]; trivial.
    apply (session_inv_transfer imgs w); trivial.
    cbn. intros ->. reflexivity.
  - now apply fire_inv.
  - apply on_item_inv; trivial. intros it. unfold intersecting.
    now destruct (thumb_observed it).
  - apply on_item_inv; trivial. intros it. unfold thumb_load.
    now destruct (thumb_onload it).
Qed.

Lemma run_inv imgs evs w : session_inv imgs w -> session_inv imgs (run evs w).
Proof.
  unfold run. revert w.
  induction evs as [|ev rest IH]; intros w H; cbn; [exact H|].
  apply IH. now apply step_inv.
Qed.

(** ** Rendering the grid *)

Lemma createImageItem_run image index w :
  createImageItem image index w =
  match get_field "id" (Some image) with
  | Some image_id =>
      match template image_id with
      | Some id_text =>
          match get_field "name" (Some image) with
          | Some image_name =>
              match template image_name with
              | Some alt =>
                  Ok {| thumb_data_src :=
                          image_base ++ "/image/" ++ id_text ++ "?size=s800";
                        thumb_alt := alt;
                        thumb_src := None;
                        thumb_lazy := true;
                        thumb_loaded := false;
                        thumb_onload := false;
                        thumb_observed := false;
                        item_visible := false;
                        click_index := index |} w
              | None => Raise TypeError w
              end
          | None => Raise TypeError w
          end
      | None => Raise TypeError w
      end
  | None => Raise TypeError w
  end.
Proof.
  unfold createImageItem. unfold_monad.
  destruct (get_field "id" (Some image)) as [image_id|]; [|reflexivity].
  destruct (template image_id); [|reflexivity].
  destruct (get_field "name" (Some image)) as [image_name|]; [|reflexivity].
  destruct (template image_name); reflexivity.
Qed.

Lemma createImageItem_state image index w :
  final (createImageItem image index w) = w.
Proof.
  rewrite createImageItem_run. repeat (break_match; try reflexivity).
Qed.

Lemma createImageItem_index image index w item w' :
  createImageItem image index w = Ok item w' -> click_index item = index.
Proof.
  rewrite createImageItem_run.
  repeat (break_match; try discriminate). now intros [= <- _].
Qed.

Lemma get_field_both key1 key2 v x :
  get_field key1 v = Some x -> exists y, get_field key2 v = Some y.
Proof.
  destruct v as [[]|]; cbn; try discriminate; intros _; eexists; reflexivity.
Qed.

(** What [presentable] gives: both members are read and converted, and the
    caption has a text as well. *)
Lemma presentable_fields image :
  presentable image = true ->
  exists image_id image_name id_text alt text,
    get_field "id" (Some image) = Some image_id /\
    get_field "name" (Some image) = Some image_name /\
    template image_id = Some id_text /\
    template image_name = Some alt /\
    text_content image_name = Some text.
Proof.
  unfold presentable.
  destruct (get_field "id" (Some image)) as [image_id|]; [|discriminate].
  destruct (get_field "name" (Some image)) as [image_name|]; [|discriminate].
  destruct (template image_id) as [id_text|] eqn:Ti; [|discriminate].
  destruct (template image_name) as [alt|] eqn:Tn; [|discriminate].
  intros _. exists image_id, image_name, id_text, alt.
  destruct image_name as [[]|]; cbn in Tn |- *;
    eexists; (repeat split; try reflexivity); eassumption.
Qed.

Lemma all_presentable_In arr image :
  all_presentable arr -> In image arr -> presentable image = true.
Proof.
  unfold all_presentable. rewrite forallb_forall. auto.
Qed.

Lemma descriptors_presentable ims : all_presentable (map descriptor ims).
Proof.
  unfold all_presentable. apply forallb_forall. intros image I.
  apply in_map_iff in I. destruct I as (im & <- & _). reflexivity.
Qed.

Lemma createImageItem_ok image index w :
  presentable image = true ->
  exists item, createImageItem image index w = Ok item w.
Proof.
  intros H. rewrite createImageItem_run.
  destruct (presentable_fields image H) as (a & b & sa & sb & t & -> & -> & -> & -> & _).
  eexists; reflexivity.
Qed.

Lemma forEach_state imgs : forall index w,
  final (forEach_createImageItem imgs index w) = w.
Proof.
  induction imgs as [|image rest IH]; intros index w; cbn; [reflexivity|].
  unfold bind. pose proof (createImageItem_state image index w) as H1.
  destruct (createImageItem image index w) as [item w1|e w1]; cbn in H1; subst;
    [|reflexivity].
  specialize (IH (index + 1) w).
  destruct (forEach_createImageItem rest (index + 1) w); exact IH.
Qed.

Lemma forEach_items imgs : forall index w items w',
  forEach_createImageItem imgs index w = Ok items w' ->
  List.length items = List.length imgs /\
  Forall (fun it => index <= click_index it
                    < index + Z.of_nat (List.length imgs)) items.
Proof.
  induction imgs as [|image rest IH]; intros index w items w'; cbn.
  - intros [= <- _]. split; [reflexivity | constructor].
  - unfold bind.
    destruct (createImageItem image index w) as [item w1|e w1] eqn:C;
      [|discriminate].
    destruct (forEach_createImageItem rest (index + 1) w1) as [its w2|e w2] eqn:F;
      [|discriminate].
    intros [= <- _]. apply IH in F. destruct F as (Hl & Hf).
    apply createImageItem_index in C. split; [cbn; now rewrite Hl|].
    constructor; [lia|].
    eapply Forall_impl; [|exact Hf]. cbn. intros it. lia.
Qed.

Lemma forEach_ok imgs : forall index w,
  all_presentable imgs ->
  exists items, forEach_createImageItem imgs index w = Ok items w.
Proof.
  unfold all_presentable.
  induction imgs as [|image rest IH]; intros index w H; cbn.
  - eexists; reflexivity.
  - cbn in H. apply andb_true_iff in H. destruct H as (Hn & Hr). unfold bind.
    destruct (createImageItem_ok image index w Hn) as (item & ->).
    destruct (IH (index + 1) w Hr) as (items & ->).
    eexists; reflexivity.
Qed.

Lemma createImageItem_raise image index w :
  presentable image = false ->
  createImageItem image index w = Raise TypeError w.
Proof.
  rewrite createImageItem_run. unfold presentable.
  destruct (get_field "id" (Some image)) as [image_id|] eqn:I.
  - destruct (get_field_both "id" "name" _ _ I) as (image_name & ->).
    destruct (template image_id); [|reflexivity].
    destruct (template image_name); [discriminate | reflexivity].
  - reflexivity.
Qed.

Lemma forEach_unpresentable imgs : forall index w,
  forallb presentable imgs = false ->
  forEach_createImageItem imgs index w = Raise TypeError w.
Proof.
  induction imgs as [|image rest IH]; intros index w H; [discriminate|].
  cbn [forEach_createImageItem]. unfold bind at 1. cbn in H.
  destruct (presentable image) eqn:P.
  - destruct (createImageItem_ok image index w P) as (item & ->).
    unfold bind. now rewrite (IH _ _ H).
  - now rewrite (createImageItem_raise image index w P).
Qed.

Lemma forEach_descriptors ims : forall index w,
  forEach_createImageItem (map descriptor ims) index w
  = Ok (thumbnails ims index) w.
Proof.
  induction ims as [|im rest IH]; intros index w; cbn; [reflexivity|].
  unfold bind at 1.
  change (createImageItem (descriptor im) index w)
    with (Ok (thumbnail im index) w).
  unfold bind. now rewrite IH.
Qed.

Lemma thumbnails_nth ims : forall index k,
  nth_error (thumbnails ims index) k
  = option_map (fun im => thumbnail im (index + Z.of_nat k)) (nth_error ims k).
Proof.
  induction ims as [|im rest IH]; intros index k; destruct k; cbn;
    try reflexivity.
  - now rewrite Z.add_0_r.
  - rewrite IH. destruct (nth_error rest k); cbn; [|reflexivity].
    do 2 f_equal. lia.
Qed.

Lemma thumbnails_length ims : forall index,
  List.length (thumbnails ims index) = List.length ims.
Proof. induction ims; intros; cbn; [reflexivity | now rewrite IHims]. Qed.

(** ** Rendering one lightbox element *)

Lemma update_lightbox_twice el f g l :
  update_lightbox el f (update_lightbox el g l)
  = update_lightbox el (fun lb => f (g lb)) l.
Proof.
  induction l as [|[e lb] rest IH]; cbn; [reflexivity|].
  destruct (Nat.eqb e el) eqn:E; cbn; rewrite E; [reflexivity|].
  now rewrite IH.
Qed.

(** The call unfolded: the element it works on, and how far it gets.  A
    TypeError at line 303 leaves the image of the element transparent; one
    at line 306 comes after [img.src] has been set. *)
Lemma updateLightboxImage_run arg w :
  updateLightboxImage arg w =
  match target arg w with
  | None => Ok tt w
  | Some el =>
      let on f := set_lightboxes (update_lightbox el f (lightboxes w)) w in
      let image := js_index (images w) (currentImageIndex w) in
      match get_field "id" image with
      | None => Raise TypeError (on hide_opacity)
      | Some image_id =>
          match template image_id with
          | None => Raise TypeError (on hide_opacity)
          | Some id_text =>
              let imageUrl :=
                image_base ++ "/image/" ++ id_text ++ "?size=s2000" in
              let at_src lb := set_img_src imageUrl (hide_opacity lb) in
              match get_field "name" image with
              | None => Raise TypeError (on at_src)
              | Some image_name =>
                  match template image_name with
                  | None => Raise TypeError (on at_src)
                  | Some alt =>
                      match text_content image_name with
                      | None =>
                          Raise TypeError
                            (on (fun lb => set_img_alt alt (at_src lb)))
                      | Some text =>
                          Ok tt
                            (on (presented image_name id_text alt text
                                   (currentImageIndex w)
                                   (js_length (images w))))
                      end
                  end
              end
          end
      end
  end.
Proof.
  assert (render : forall el,
    (index <- gets currentImageIndex ;;
     imgs <- gets images ;;
     let image := js_index imgs index in
     on_lightbox el hide_opacity ;;
     image_id <- read "id" image ;;
     id_text <- converted (template image_id) ;;
     let imageUrl := image_base ++ "/image/" ++ id_text ++ "?size=s2000" in
     on_lightbox el (set_img_src imageUrl) ;;
     image_name <- read "name" image ;;
     alt <- converted (template image_name) ;;
     on_lightbox el (set_img_alt alt) ;;
     text <- converted (text_content image_name) ;;
     on_lightbox el
       (render_image image_name imageUrl text index (js_length imgs))) w
    = match target (Some el) w with
      | None => Ok tt w
      | Some el =>
      let on f := set_lightboxes (update_lightbox el f (lightboxes w)) w in
      let image := js_index (images w) (currentImageIndex w) in
      match get_field "id" image with
      | None => Raise TypeError (on hide_opacity)
      | Some image_id =>
          match template image_id with
          | None => Raise TypeError (on hide_opacity)
          | Some id_text =>
              let imageUrl :=
                image_base ++ "/image/" ++ id_text ++ "?size=s2000" in
              let at_src lb := set_img_src imageUrl (hide_opacity lb) in
              match get_field "name" image with
              | None => Raise TypeError (on at_src)
              | Some image_name =>
                  match template image_name with
                  | None => Raise TypeError (on at_src)
                  | Some alt =>
                      match text_content image_name with
                      | None =>
                          Raise TypeError
                            (on (fun lb => set_img_alt alt (at_src lb)))
                      | Some text =>
                          Ok tt
                            (on (presented image_name id_text alt text
                                   (currentImageIndex w)
                                   (js_length (images w))))
                      end
                  end
              end
          end
      end
      end).
  { intros el. unfold target, presented. unfold_monad. cbv zeta.
    cbn [images currentImageIndex lightboxes set_lightboxes].
    destruct (get_field "id" _) as [image_id|]; [|reflexivity].
    destruct (template image_id) as [id_text|]; [|reflexivity].
    cbn [images currentImageIndex lightboxes set_lightboxes].
    rewrite update_lightbox_twice.
    destruct (get_field "name" _) as [image_name|]; [|reflexivity].
    destruct (template image_name) as [alt|]; [|reflexivity].
    cbn [images currentImageIndex lightboxes set_lightboxes].
    rewrite update_lightbox_twice.
    destruct (text_content image_name) as [text|]; [|reflexivity].
    cbn [images currentImageIndex lightboxes set_lightboxes].
    rewrite update_lightbox_twice. reflexivity. }
  unfold updateLightboxImage.
  destruct arg as [el|].
  - apply (render el).
  - unfold bind at 1, gets at 1. unfold target.
    destruct (querySelector_lightbox w) as [el|]; [|reflexivity].
    apply (render el).
Qed.

(** ** Closing, reopening, swiping *)

(** C10.  When the document holds no lightbox element, [closeLightbox()] and
    [updateLightboxImage()] (called without argument) complete normally and
    change nothing at all: the keydown listeners, the page's overflow style,
    the gallery's fields, the pending timeouts are as before. *)
Theorem no_lightbox_no_effect (w : World) :
  lightboxes w = [] ->
  closeLightbox w = Ok tt w /\ updateLightboxImage None w = Ok tt w.
Proof.
  intros H. unfold closeLightbox, updateLightboxImage, querySelector_lightbox.
  unfold_monad. now rewrite H.
Qed.

Lemma fire_frame n w :
  images (fire n w) = images w /\
  currentImageIndex (fire n w) = currentImageIndex w.
Proof.
  unfold fire. destruct (nth_error (timers w) n) as [[d t]|]; [|now split].
  destruct t; cbn; try (now split).
  destruct (container w) as [| | | |g items]; try (now split).
  destruct (Nat.eqb g gallery); now split.
Qed.

Lemma run_fire_images ns : forall w,
  images (run (map Fire ns) w) = images w.
Proof.
  unfold run. induction ns as [|n rest IH]; intros w; cbn; [reflexivity|].
  rewrite IH. apply fire_frame.
Qed.

(** C9.  Take any state, whatever its current index.  After
    [closeLightbox()], and after any of the pending timeouts have run (among
    them the removal of the closed element, which may or may not have come
    yet), [openLightbox(k)] with [0 <= k < N] leaves a state whose current
    index is [k], within the image array, with a new lightbox element in the
    document and the page's scrolling disabled. *)
Theorem reopen_lands_on_requested_index (w : World) (k : Z) (ns : list nat) :
  0 <= k < js_length (images w) ->
  let closed := run (map Fire ns) (final (closeLightbox w)) in
  let reopened := final (openLightbox k closed) in
  currentImageIndex reopened = k /\
  in_range reopened /\
  images reopened = images w /\
  In (nextId closed) (map fst (lightboxes reopened)) /\
  overflow reopened = "hidden".
Proof.
  intros Hk closed reopened.
  destruct (openLightbox_frame k closed) as (Ei & _ & Ex & _ & Eo & El & _).
  fold reopened in Ei, Ex, Eo, El.
  assert (Ec : images closed = images w).
  { unfold closed. rewrite run_fire_images. apply closeLightbox_frame. }
  repeat split; trivial.
  - rewrite Ex. lia.
  - unfold in_range in *. rewrite Ex, Ei, Ec. lia.
  - congruence.
  - rewrite El. apply in_or_app. right. now left.
Qed.

Lemma deliver_calls h w : calls (deliver h w) = calls (final (h w)).
Proof. unfold deliver. now destruct (h w). Qed.

Lemma handleSwipe_calls startX endX w :
  calls (final (handleSwipe startX endX w))
  = (calls w ++ swipe_calls startX endX)%list.
Proof.
  unfold handleSwipe, swipe_calls.
  destruct (Z.abs (startX - endX) >? swipeThreshold).
  - destruct (startX - endX >? 0).
    + apply nextImage_frame'.
    + apply prevImage_frame'.
  - cbn. now rewrite app_nil_r.
Qed.

(** C8.  [handleSwipe(startX, endX)] with [startX - endX > 50] (a leftward
    swipe) is one call of [nextImage()]; with [endX - startX > 50] (a
    rightward swipe) it is one call of [prevImage()]; with
    [|startX - endX| <= 50] it does nothing.  For a touch that starts at
    [(x1, y1)] and ends at [(x2, y2)] on a lightbox whose touch listeners are
    attached, the methods entered are exactly those of
    [handleSwipe(x1, x2)]: one [nextImage], one [prevImage] or none, whatever
    [y1] and [y2] are; a touch that does not move horizontally enters
    none. *)
Theorem swipe_navigates_once_beyond_threshold
  (w : World) (el : nat) (lb : Lightbox) (x0 x1 y1 x2 y2 : Z) :
  find_lightbox el (lightboxes w) = Some lb ->
  touchStartX lb = Some x0 ->
  (x1 - x2 > swipeThreshold ->
     handleSwipe x1 x2 w = nextImage w /\
     calls (final (nextImage w)) = (calls w ++ [CallNextImage])%list) /\
  (x2 - x1 > swipeThreshold ->
     handleSwipe x1 x2 w = prevImage w /\
     calls (final (prevImage w)) = (calls w ++ [CallPrevImage])%list) /\
  (Z.abs (x1 - x2) <= swipeThreshold -> handleSwipe x1 x2 w = Ok tt w) /\
  calls (touchend el x2 y2 (touchstart el x1 y1 w))
  = (calls w ++ swipe_calls x1 x2)%list /\
  (x1 = x2 -> calls (touchend el x2 y2 (touchstart el x1 y1 w)) = calls w).
Proof.
  intros F T.
  assert (E : calls (touchend el x2 y2 (touchstart el x1 y1 w))
              = (calls w ++ swipe_calls x1 x2)%list).
  { unfold touchstart. rewrite F, T. unfold touchend. cbn [lightboxes set_lightboxes].
    rewrite (find_update_lightbox el _ _ lb F). cbn [touchStartX set_touchStartX].
    rewrite deliver_calls, handleSwipe_calls. reflexivity. }
  unfold handleSwipe, swipeThreshold in *. repeat split.
  - destruct (Z.gtb_spec (Z.abs (x1 - x2)) 50); [|lia].
    destruct (Z.gtb_spec (x1 - x2) 0); [reflexivity | lia].
  - apply nextImage_frame'.
  - destruct (Z.gtb_spec (Z.abs (x1 - x2)) 50); [|lia].
    destruct (Z.gtb_spec (x1 - x2) 0); [lia | reflexivity].
  - apply prevImage_frame'.
  - intros H. destruct (Z.gtb_spec (Z.abs (x1 - x2)) 50); [lia | reflexivity].
  - exact E.
  - intros ->. rewrite E. unfold swipe_calls, swipeThreshold.
    rewrite Z.sub_diag. cbn. now rewrite app_nil_r.
Qed.

(** ** Fetching *)

Lemma fetchImages_run net w :
  fetchImages net w =
  match net (endpoint w) with
  | NetworkFailure => Raise TypeError (requested w)
  | Responded r =>
      if negb (ok r)
      then Raise (Error ("API error: " ++ show (status r))) (requested w)
      else match body r with
           | None => Raise SyntaxError (requested w)
           | Some data =>
               match get_field "error" (Some data) with
               | None => Raise TypeError (requested w)
               | Some err =>
                   if truthy err
                   then match get_field "message" (Some data) with
                        | Some message =>
                            Raise (application_error message) (requested w)
                        | None => Raise TypeError (requested w)
                        end
                   else Ok data (requested w)
               end
           end
  end.
Proof.
  unfold fetchImages, fetch, response_json, endpoint, requested. unfold_monad.
  cbn [folderId set_requests].
  destruct (net _) as [|r]; [reflexivity|].
  destruct (negb (ok r)); [reflexivity|].
  destruct (body r) as [data|]; [|reflexivity].
  destruct (get_field "error" (Some data)) as [err|]; [|reflexivity].
  destruct (truthy err); [|reflexivity].
  destruct (get_field "message" (Some data)) as [message|]; [|reflexivity].
  unfold application_error, js_or.
  destruct (truthy message); [now destruct (template message) | reflexivity].
Qed.

Lemma fetchImages_state net w : final (fetchImages net w) = requested w.
Proof.
  rewrite fetchImages_run.
  repeat (break_match; try reflexivity).
Qed.

(** C3, as the code has it.  For a response with a non-success status,
    [fetchImages] throws an Error whose message is "API error: " followed by
    the status code.  For a response with a success status and a parsed body
    [data]: if [data.error] is truthy it throws an Error whose message is
    "Unknown error" when [data.message] is absent or falsy, and otherwise
    [data.message] converted to a string, which is [data.message] itself
    when it is a string; when [data.message] is truthy and has no conversion
    to a string (an object with a member [toString], or an array that holds
    one) the conversion throws and a TypeError comes out instead of the
    Error.  If [data.error] is absent or falsy, [data] is returned as it is;
    in particular every array, empty or not, is returned as it is. *)
Theorem fetchImages_by_status_and_truthy_error
  (net : Network) (w : World) (r : Response) :
  net (endpoint w) = Responded r ->
  (ok r = false ->
     fetchImages net w
     = Raise (Error ("API error: " ++ show (status r))) (requested w)) /\
  (ok r = true -> forall data, body r = Some data ->
     (forall err, get_field "error" (Some data) = Some err ->
        truthy err = true ->
        exists message,
          get_field "message" (Some data) = Some message /\
          (truthy message = false ->
             fetchImages net w = Raise (Error "Unknown error") (requested w)) /\
          (truthy message = true ->
             forall text, template message = Some text ->
               fetchImages net w = Raise (Error text) (requested w)) /\
          (forall s, message = Some (JStr s) -> s <> "" ->
             fetchImages net w = Raise (Error s) (requested w)) /\
          (truthy message = true -> template message = None ->
             fetchImages net w = Raise TypeError (requested w))) /\
     (forall err, get_field "error" (Some data) = Some err ->
        truthy err = false ->
        fetchImages net w = Ok data (requested w)) /\
     (forall imgs, data = JArr imgs ->
        fetchImages net w = Ok (JArr imgs) (requested w))).
Proof.
  intros N. rewrite fetchImages_run, N. split.
  - intros ->. reflexivity.
  - intros -> data ->. cbn [negb]. repeat split.
    + intros err E T. rewrite E, T.
      destruct (get_field_both "error" "message" _ _ E) as (message & M).
      exists message. rewrite M. unfold application_error.
      split; [reflexivity|]. split; [|split; [|split]].
      * now intros ->.
      * now intros -> text ->.
      * intros s -> Hs. cbn. apply String.eqb_neq in Hs. now rewrite Hs.
      * now intros -> ->.
    + intros err E T. now rewrite E, T.
    + intros imgs ->. reflexivity.
Qed.

(** C3 as stated fails: a success-status response whose body contains an
    [error] member, here [{"error": false}], is returned and nothing is
    thrown; and the body [null], which has no [error] member, is not
    returned: reading [data.error] throws a TypeError. *)
Lemma fetchImages_error_member_false_is_returned :
  let body_false := JObj [("error", JBool false)] in
  let answers (data : json) : Network :=
    fun _ => Responded (mkResponse 200 (Some data)) in
  ok (mkResponse 200 (Some body_false)) = true /\
  own "error" [("error", JBool false)] = Some (JBool false) /\
  fetchImages (answers body_false) blank_page
  = Ok body_false (requested blank_page) /\
  fetchImages (answers JNull) blank_page
  = Raise TypeError (requested blank_page).
Proof. repeat split. Qed.

(** ** Construction and initialisation *)

(** C6.  A container without [data-folder-id]: the constructor shows the
    error "Missing data-folder-id attribute" and returns.  No request is
    issued, [init] is not entered, no timeout is set and nothing is logged;
    the outcome is the same whatever the network would have answered. *)
Theorem missing_folder_id_shows_error_without_fetch
  (el : ContainerElement) (net : Network) (page : World) :
  dataset_folderId el = None ->
  exists w,
    TattooGallery el net page = ArrayImages w /\
    container w = ErrorBox "Missing data-folder-id attribute" /\
    requests w = requests page /\
    calls w = calls page /\
    timers w = timers page /\
    console w = console page /\
    (forall net', TattooGallery el net' page = ArrayImages w).
Proof.
  intros H. unfold TattooGallery. cbn. rewrite H. cbn.
  eexists. repeat split.
Qed.

(** [renderGallery] unfolded: the gallery element takes the next identity,
    and the container is replaced only when every item has been built. *)
Lemma renderGallery_run w :
  renderGallery w =
  let w0 := set_nextId (S (nextId w)) w in
  match forEach_createImageItem (images w) 0 w0 with
  | Ok items _ =>
      Ok tt
        (set_timers
           (timers w ++ [(10, RevealGrid (nextId w) (List.length items))])
           (set_container (Grid (nextId w) items) w0))
  | Raise e _ => Raise e w0
  end.
Proof.
  unfold renderGallery. unfold_monad. cbv zeta.
  cbn [images set_nextId].
  pose proof (forEach_state (images w) 0 (set_nextId (S (nextId w)) w)) as St.
  destruct (forEach_createImageItem (images w) 0 (set_nextId (S (nextId w)) w))
    as [items w1|e w1]; cbn in St; subst w1; reflexivity.
Qed.

Lemma init_try_run imgs w :
  init_try imgs w =
  let w0 := set_images imgs w in
  if js_length imgs =? 0
  then Ok tt (set_container EmptyBox w0)
  else match forEach_createImageItem imgs 0 (set_nextId (S (nextId w)) w0) with
       | Ok items _ =>
           Ok tt
             (set_container (Grid (nextId w) (map observe items))
                (set_timers
                   (timers w
                      ++ [(10, RevealGrid (nextId w) (List.length items))])
                   (set_nextId (S (nextId w)) w0)))
       | Raise e _ => Raise e (set_nextId (S (nextId w)) w0)
       end.
Proof.
  unfold init_try, showEmpty. unfold bind at 1 2, modify at 1, gets at 1.
  cbv zeta. cbv beta.
  change (images (set_images imgs w)) with imgs.
  destruct (js_length imgs =? 0); [reflexivity|].
  unfold bind. rewrite renderGallery_run. cbv zeta.
  change (images (set_images imgs w)) with imgs.
  change (nextId (set_images imgs w)) with (nextId w).
  destruct (forEach_createImageItem imgs 0 _); reflexivity.
Qed.

Lemma init_try_other_run data w :
  final (try_catch (init_try_other data) init_catch w) =
  match length_is_zero data with
  | Some true => set_container EmptyBox w
  | Some false =>
      set_container (ErrorBox generic_message)
        (set_console (console w ++ [GalleryError TypeError])
           (set_nextId (S (nextId w)) w))
  | None =>
      set_container (ErrorBox generic_message)
        (set_console (console w ++ [GalleryError TypeError]) w)
  end.
Proof.
  unfold try_catch, init_try_other, init_catch, showEmpty, showError.
  unfold_monad. destruct (length_is_zero data) as [[|]|]; reflexivity.
Qed.

Lemma init_try_state imgs w :
  let w' := final (try_catch (init_try imgs) init_catch w) in
  images w' = imgs /\ lightboxes w' = lightboxes w /\
  currentImageIndex w' = currentImageIndex w /\
  grid_ok w'.
Proof.
  unfold try_catch. rewrite init_try_run. cbv zeta.
  unfold init_catch, showError, grid_ok. unfold_monad.
  destruct (js_length imgs =? 0); cbn; [repeat split; intros; discriminate|].
  match goal with
  | |- context [forEach_createImageItem imgs 0 ?w0] =>
      pose proof (forEach_items imgs 0 w0) as I;
      destruct (forEach_createImageItem imgs 0 w0) as [items w1|e w1]
  end; cbn; repeat split; try (intros; discriminate).
  intros gallery' items' [= <- <-]. destruct (I items _ eq_refl) as (_ & F).
  rewrite Forall_forall in *. intros it' Hin.
  apply in_map_iff in Hin. destruct Hin as (it & <- & Hin).
  specialize (F it Hin). unfold js_length, observe.
  destruct (thumb_lazy it); cbn; lia.
Qed.

Lemma init_state net w w' :
  init net w = ArrayImages w' ->
  lightboxes w' = lightboxes w /\
  currentImageIndex w' = currentImageIndex w /\
  grid_ok w'.
Proof.
  unfold init.
  pose proof (fetchImages_state net (loading w)) as S. fold (loading w).
  destruct (fetchImages net (loading w)) as [data w1|e w1]; cbn in S; subst w1.
  - destruct data; try discriminate. intros [= <-].
    destruct (init_try_state elems (requested (loading w))) as (_ & L & X & G).
    repeat split; trivial.
  - intros [= <-]. unfold init_catch, showError, grid_ok. unfold_monad. cbn.
    repeat split. intros; discriminate.
Qed.

Lemma TattooGallery_session el net page w :
  lightboxes page = [] ->
  TattooGallery el net page = ArrayImages w ->
  session_inv (images w) w.
Proof.
  intros L. unfold TattooGallery. destruct (falsy_string _).
  - intros [= <-]. repeat split; [intros gallery items; discriminate | now left].
  - intros H. apply init_state in H. destruct H as (El & _ & G).
    repeat split; trivial. left. now rewrite El.
Qed.

(** C7.  [init] always completes without an exception of its own.  When
    [fetchImages] throws, whatever it throws, the container shows the one
    fixed message and the exception goes to the console only.  When it
    returns the empty array, the container shows the empty state and holds no
    grid.  When it returns a non-empty array of presentable elements
    (objects whose [id] and [name] have a conversion to a string, as those
    of every image descriptor have), the container holds the grid, one item
    per element; for descriptors the items are their thumbnails, each
    observed for lazy loading.  A non-empty array with an element that is not
    presentable ([null], or an [id] or [name] without conversion) makes
    [createImageItem] throw, and the outcome is that of a failed fetch.  A
    returned value that is not an array is stored all the same: the
    container shows the empty state when its [length] is 0 and the fixed
    message otherwise. *)
Theorem init_outcomes (net : Network) (w : World) :
  (forall e w1, fetchImages net (loading w) = Raise e w1 ->
     exists w',
       init net w = ArrayImages w' /\
       container w' = ErrorBox generic_message /\
       console w' = (console w ++ [GalleryError e])%list) /\
  (forall w1, fetchImages net (loading w) = Ok (JArr []) w1 ->
     exists w',
       init net w = ArrayImages w' /\ container w' = EmptyBox /\ images w' = []) /\
  (forall imgs w1, fetchImages net (loading w) = Ok (JArr imgs) w1 ->
     imgs <> [] ->
     forallb presentable imgs = true ->
     exists w' items,
       init net w = ArrayImages w' /\
       container w' = Grid (nextId w) items /\
       List.length items = List.length imgs /\
       images w' = imgs /\
       console w' = console w /\
       (forall ims, imgs = map descriptor ims ->
          items = map observe (thumbnails ims 0))) /\
  (forall imgs w1, fetchImages net (loading w) = Ok (JArr imgs) w1 ->
     forallb presentable imgs = false ->
     exists w',
       init net w = ArrayImages w' /\
       container w' = ErrorBox generic_message /\
       console w' = (console w ++ [GalleryError TypeError])%list /\
       images w' = imgs) /\
  (forall data w1, fetchImages net (loading w) = Ok data w1 ->
     is_array data = false ->
     exists w',
       init net w = OtherImages data w' /\
       (length_is_zero data = Some true ->
          container w' = EmptyBox /\ console w' = console w) /\
       (length_is_zero data <> Some true ->
          container w' = ErrorBox generic_message /\
          console w' = (console w ++ [GalleryError TypeError])%list)).
Proof.
  split; [|split; [|split; [|split]]].
  - intros e w1 F. unfold init. fold (loading w). rewrite F.
    pose proof (fetchImages_state net (loading w)) as S. rewrite F in S.
    cbn in S. subst w1. eexists. repeat split.
  - intros w1 F. unfold init. fold (loading w). rewrite F.
    eexists. repeat split.
  - intros imgs w1 F Hne Hp. unfold init. fold (loading w). rewrite F.
    pose proof (fetchImages_state net (loading w)) as S. rewrite F in S.
    cbn [final] in S. subst w1.
    unfold try_catch. rewrite init_try_run. cbv zeta.
    destruct (Z.eqb_spec (js_length imgs) 0) as [E|_].
    { destruct imgs; [contradiction | discriminate]. }
    match goal with
    | |- context [forEach_createImageItem imgs 0 ?w0] =>
        destruct (forEach_ok imgs 0 w0 Hp) as (items & FE)
    end.
    rewrite FE. cbn. do 2 eexists.
    split; [reflexivity|]. split; [reflexivity|].
    split; [|split; [reflexivity|split; [reflexivity|]]].
    + rewrite length_map. now destruct (forEach_items imgs 0 _ _ _ FE).
    + intros ims ->. rewrite forEach_descriptors in FE.
      now injection FE as <-.
  - intros imgs w1 F Hp. unfold init. fold (loading w). rewrite F.
    pose proof (fetchImages_state net (loading w)) as S. rewrite F in S.
    cbn [final] in S. subst w1.
    unfold try_catch. rewrite init_try_run. cbv zeta.
    destruct (Z.eqb_spec (js_length imgs) 0) as [E|_].
    { destruct imgs; [discriminate Hp | discriminate E]. }
    rewrite (forEach_unpresentable imgs 0 _ Hp).
    eexists. repeat split.
  - intros data w1 F Hd.
    pose proof (fetchImages_state net (loading w)) as S. rewrite F in S.
    cbn [final] in S. subst w1.
    assert (E : init net w
                = OtherImages data
                    (final (try_catch (init_try_other data) init_catch
                              (requested (loading w))))).
    { unfold init. fold (loading w). rewrite F.
      destruct data; try reflexivity; discriminate Hd. }
    eexists. split; [exact E|]. rewrite init_try_other_run.
    destruct (length_is_zero data) as [[|]|]; cbn;
      split; intros H; try congruence; now split.
Qed.

(** ** Opening from the grid *)

Lemma update_lightbox_app_fresh el f l x :
  (forall e y, In (e, y) l -> (e < el)%nat) ->
  update_lightbox el f (l ++ [(el, x)]) = (l ++ [(el, f x)])%list.
Proof.
  induction l as [|[e y] rest IH]; cbn; intros F.
  - now rewrite Nat.eqb_refl.
  - destruct (Nat.eqb e el) eqn:E.
    + apply Nat.eqb_eq in E. specialize (F e y (or_introl eq_refl)). lia.
    + f_equal. apply IH. intros e' y' H. apply (F e' y'). now right.
Qed.

Lemma openLightbox_run k w image image_id image_name id_text alt text :
  fresh w ->
  js_index (images w) k = Some image ->
  get_field "id" (Some image) = Some image_id ->
  get_field "name" (Some image) = Some image_name ->
  template image_id = Some id_text ->
  template image_name = Some alt ->
  text_content image_name = Some text ->
  exists w',
    openLightbox k w = Ok tt w' /\
    currentImageIndex w' = k /\
    lightboxes w' =
      (lightboxes w
         ++ [(nextId w,
              opened_lightbox image_name id_text alt text k
                (js_length (images w)))])%list.
Proof.
  intros F J I N Ti Tn Tc.
  unfold openLightbox, setupTouchNavigation. unfold_monad.
  rewrite updateLightboxImage_run. unfold target. cbv zeta.
  cbn [images currentImageIndex lightboxes nextId set_currentImageIndex
       set_nextId set_lightboxes set_overflow].
  rewrite J, I, N, Ti, Tn, Tc.
  eexists. split; [reflexivity|].
  cbn [images currentImageIndex lightboxes nextId set_currentImageIndex
       set_nextId set_lightboxes set_overflow set_keyHandler set_keydown
       set_timers].
  split; [reflexivity|].
  rewrite !update_lightbox_app_fresh by exact F.
  reflexivity.
Qed.

Lemma js_index_of_nat (arr : list json) (k : nat) :
  js_index arr (Z.of_nat k) = nth_error arr k.
Proof.
  unfold js_index. destruct (Z.ltb_spec (Z.of_nat k) 0); [lia|].
  now rewrite Nat2Z.id.
Qed.

(** C5.  In a gallery whose images are the descriptors [ims]:
    [renderGallery] completes and puts a grid of exactly as many items in the
    container, the [k]-th item being the thumbnail of the [k]-th descriptor;
    and a click on the [k]-th item opens a lightbox, leaving the current
    index at [k], and the element it adds to the document has the name of the
    [k]-th descriptor as caption and "k+1 / N" as counter. *)
Theorem grid_items_open_their_image (ims : list Image) (w : World) :
  images w = map descriptor ims ->
  fresh w ->
  exists w1 items,
    renderGallery w = Ok tt w1 /\
    container w1 = Grid (nextId w) items /\
    List.length items = List.length ims /\
    forall k im, nth_error ims k = Some im ->
      nth_error items k = Some (thumbnail im (Z.of_nat k)) /\
      let w2 := click_item k w1 in
      currentImageIndex w2 = Z.of_nat k /\
      exists lb,
        lightboxes w2 = (lightboxes w1 ++ [(nextId w1, lb)])%list /\
        find_lightbox (nextId w1) (lightboxes w2) = Some lb /\
        caption lb = name im /\
        counter lb
        = show (Z.of_nat k + 1) ++ " / " ++ show (Z.of_nat (List.length ims)).
Proof.
  intros Hi Hf.
  rewrite renderGallery_run. cbv zeta. rewrite Hi, forEach_descriptors.
  do 2 eexists. split; [reflexivity|]. cbn [container set_container set_timers].
  split; [reflexivity|]. split; [apply thumbnails_length|].
  intros k im Hk.
  assert (Hitem : nth_error (thumbnails ims 0) k
                  = Some (thumbnail im (Z.of_nat k)))
    by (now rewrite thumbnails_nth, Hk).
  split; [exact Hitem|].
  unfold click_item. cbn [container set_container set_timers].
  rewrite Hitem. cbn [click_index thumbnail].
  match goal with
  | |- context [deliver _ ?w0] => set (w1 := w0)
  end.
  assert (J : js_index (images w1) (Z.of_nat k) = Some (descriptor im)).
  { rewrite js_index_of_nat. unfold w1.
    cbn [images set_container set_timers set_nextId].
    rewrite Hi, nth_error_map, Hk. reflexivity. }
  assert (Hf1 : fresh w1).
  { intros e lb H. unfold w1 in *. cbn in H |- *.
    specialize (Hf e lb H). lia. }
  destruct (openLightbox_run (Z.of_nat k) w1 (descriptor im)
              (Some (JStr (id im))) (Some (JStr (name im)))
              (id im) (name im) (name im))
    as (w2 & Ho & Hx & Hl); trivial.
  unfold deliver. rewrite Ho. split; [exact Hx|].
  eexists. split; [exact Hl|]. split.
  - rewrite Hl. now apply find_lightbox_app_fresh.
  - split; [reflexivity|].
    unfold opened_lightbox, presented, w1.
    cbn [counter render_image set_touchStartX wire_clicks].
    cbn [images set_container set_timers set_nextId]. rewrite Hi.
    unfold js_length. now rewrite length_map.
Qed.

(** C2.  The invariant [0 <= currentImageIndex < images.length] of an open
    lightbox: [openLightbox(k)] establishes it when [0 <= k < N];
    [nextImage()] and [prevImage()] preserve it; and on a page that had no
    lightbox when the gallery was constructed, after any sequence of user
    events and timeouts, whenever a lightbox element is in the document the
    invariant holds. *)
Theorem lightbox_index_invariant :
  (forall w k, 0 <= k < js_length (images w) ->
     in_range (final (openLightbox k w))) /\
  (forall w, in_range w ->
     in_range (final (nextImage w)) /\ in_range (final (prevImage w))) /\
  (forall el net page w evs,
     lightboxes page = [] ->
     TattooGallery el net page = ArrayImages w ->
     lightboxes (run evs w) <> [] ->
     in_range (run evs w)).
Proof.
  repeat split.
  - destruct (openLightbox_frame k w) as (Ei & _ & Ex & _). rewrite Ex. lia.
  - destruct (openLightbox_frame k w) as (Ei & _ & Ex & _).
    rewrite Ex, Ei. lia.
  - destruct (nextImage_frame' w) as (Ei & _ & Ex & _). rewrite Ex.
    now apply next_index_in_range.
  - destruct (nextImage_frame' w) as (Ei & _ & Ex & _). rewrite Ex, Ei.
    now apply next_index_in_range.
  - destruct (prevImage_frame' w) as (Ei & _ & Ex & _). rewrite Ex.
    now apply prev_index_in_range.
  - destruct (prevImage_frame' w) as (Ei & _ & Ex & _). rewrite Ex, Ei.
    now apply prev_index_in_range.
  - pose proof (run_inv _ evs w (TattooGallery_session el net page w H H0))
      as (_ & _ & [E|R]); [contradiction | apply R].
  - pose proof (run_inv _ evs w (TattooGallery_session el net page w H H0))
      as (_ & _ & [E|R]); [contradiction | apply R].
Qed.

(** ** One session at a time *)

Lemma one_session_open w el lb :
  grid_ok w ->
  (forall gallery items,
     container w = Grid gallery items -> all_presentable (images w)) ->
  lightboxes w = [(el, lb)] -> in_range w -> all_presentable (images w) ->
  shows lb w ->
  one_session w.
Proof.
  intros G Gn L R N S. split; [exact G|]. split; [exact Gn|].
  right. exists el, lb. auto.
Qed.

Lemma one_session_closed w :
  grid_ok w ->
  (forall gallery items,
     container w = Grid gallery items -> all_presentable (images w)) ->
  lightboxes w = [] ->
  one_session w.
Proof. intros G Gn L. split; [exact G|]. split; [exact Gn|]. now left. Qed.

Lemma js_index_in_range arr i :
  0 <= i < js_length arr ->
  exists image, js_index arr i = Some image /\ In image arr.
Proof.
  intros H. unfold js_index, js_length in *.
  destruct (Z.ltb_spec i 0); [lia|].
  destruct (nth_error arr (Z.to_nat i)) as [image|] eqn:N.
  - exists image. split; [reflexivity|]. eapply nth_error_In; eassumption.
  - apply nth_error_None in N. lia.
Qed.

Lemma js_index_fields arr i :
  0 <= i < js_length arr -> all_presentable arr ->
  exists image_id image_name id_text alt text,
    get_field "id" (js_index arr i) = Some image_id /\
    get_field "name" (js_index arr i) = Some image_name /\
    template image_id = Some id_text /\
    template image_name = Some alt /\
    text_content image_name = Some text.
Proof.
  intros R N. destruct (js_index_in_range arr i R) as (image & -> & I).
  apply presentable_fields. now apply (all_presentable_In arr).
Qed.

Lemma render_single w el lb :
  lightboxes w = [(el, lb)] -> in_range w -> all_presentable (images w) ->
  exists lb',
    updateLightboxImage None w = Ok tt (set_lightboxes [(el, lb')] w) /\
    shows lb' w.
Proof.
  intros L R N. rewrite updateLightboxImage_run.
  unfold target, querySelector_lightbox. rewrite L. cbv zeta.
  destruct (js_index_fields _ _ R N)
    as (a & b & sa & sb & t & -> & -> & -> & -> & ->).
  cbn [lightboxes set_lightboxes update_lightbox]. rewrite Nat.eqb_refl.
  eexists. split; [reflexivity|]. split; reflexivity.
Qed.

Lemma one_session_moved w el lb i c :
  one_session w ->
  lightboxes w = [(el, lb)] ->
  0 <= i < js_length (images w) ->
  one_session
    (final (updateLightboxImage None
              (set_currentImageIndex i (set_calls c w)))).
Proof.
  intros (G & Gn & S) L R.
  destruct S as [E|(el' & lb' & L' & _ & N & _)]; [congruence|].
  destruct (render_single (set_currentImageIndex i (set_calls c w)) el lb)
    as (lb2 & -> & Sh); trivial.
  apply (one_session_open _ el lb2); trivial.
Qed.

Lemma updateLightboxImage_absent w :
  lightboxes w = [] -> updateLightboxImage None w = Ok tt w.
Proof.
  intros H. rewrite updateLightboxImage_run.
  unfold target, querySelector_lightbox. now rewrite H.
Qed.

Lemma nextImage_run w :
  nextImage w =
  let w0 := set_calls (calls w ++ [CallNextImage]) w in
  if currentImageIndex w <? js_length (images w) - 1
  then updateLightboxImage None
         (set_currentImageIndex (currentImageIndex w + 1) w0)
  else Ok tt w0.
Proof.
  unfold nextImage. unfold_monad. cbn.
  now destruct (currentImageIndex w <? js_length (images w) - 1).
Qed.

Lemma prevImage_run w :
  prevImage w =
  let w0 := set_calls (calls w ++ [CallPrevImage]) w in
  if currentImageIndex w >? 0
  then updateLightboxImage None
         (set_currentImageIndex (currentImageIndex w - 1) w0)
  else Ok tt w0.
Proof.
  unfold prevImage. unfold_monad. cbn.
  now destruct (currentImageIndex w >? 0).
Qed.

Lemma one_session_step_to w i c :
  one_session w ->
  0 <= i < js_length (images w) \/ lightboxes w = [] ->
  one_session
    (final (updateLightboxImage None
              (set_currentImageIndex i (set_calls c w)))).
Proof.
  intros H R. pose proof H as (G & Gn & [E|(el & lb & L & _)]).
  - rewrite updateLightboxImage_absent by exact E.
    now apply one_session_closed.
  - destruct R as [R|E]; [|congruence].
    now apply (one_session_moved w el lb).
Qed.

Lemma keeps_one_nextImage : keeps one_session nextImage.
Proof.
  intros w H. rewrite nextImage_run. cbv zeta.
  destruct (Z.ltb_spec (currentImageIndex w) (js_length (images w) - 1)).
  - apply one_session_step_to; trivial.
    destruct H as (_ & _ & [E|(el & lb & _ & R & _)]); [now right|].
    left. unfold in_range in R. lia.
  - exact H.
Qed.

Lemma keeps_one_prevImage : keeps one_session prevImage.
Proof.
  intros w H. rewrite prevImage_run. cbv zeta.
  destruct (Z.gtb_spec (currentImageIndex w) 0).
  - apply one_session_step_to; trivial.
    destruct H as (_ & _ & [E|(el & lb & _ & R & _)]); [now right|].
    left. unfold in_range in R. lia.
  - exact H.
Qed.

(** A change of one element that leaves its buttons as they are. *)
Lemma one_session_touch w el f :
  (forall lb, prev_display (f lb) = prev_display lb /\
              next_display (f lb) = next_display lb) ->
  one_session w ->
  one_session (set_lightboxes (update_lightbox el f (lightboxes w)) w).
Proof.
  intros Hf (G & Gn & S).
  destruct S as [E|(e & lb & L & R & N & Sh)].
  - apply one_session_closed; trivial. cbn. now rewrite E.
  - destruct (Nat.eqb e el) eqn:Q.
    + apply (one_session_open _ e (f lb)); trivial.
      * cbn [lightboxes set_lightboxes]. rewrite L. cbn [update_lightbox].
        now rewrite Q.
      * destruct (Hf lb) as (P1 & P2). destruct Sh as (S1 & S2).
        split; [now rewrite P1 | now rewrite P2].
    + apply (one_session_open _ e lb); trivial.
      cbn [lightboxes set_lightboxes]. rewrite L. cbn [update_lightbox].
      now rewrite Q.
Qed.

Lemma keeps_one_closeLightbox : keeps one_session closeLightbox.
Proof.
  intros w H. unfold closeLightbox. unfold_monad.
  destruct (querySelector_lightbox w) as [el|]; cbn [final]; [|exact H].
  apply (one_session_touch w el (set_visible false)) in H;
    [exact H | intros lb; split; reflexivity].
Qed.

Lemma keeps_one_keyHandler_body key : keeps one_session (keyHandler_body key).
Proof.
  unfold keyHandler_body.
  repeat (apply keeps_bind; [|intros _]);
    apply keeps_if;
    auto using keeps_ret, keeps_one_closeLightbox, keeps_one_prevImage,
      keeps_one_nextImage.
Qed.

Lemma keeps_one_handleSwipe startX endX :
  keeps one_session (handleSwipe startX endX).
Proof.
  unfold handleSwipe.
  repeat apply keeps_if;
    auto using keeps_ret, keeps_one_prevImage, keeps_one_nextImage.
Qed.

Lemma deliver_one (h : M unit) w :
  keeps one_session h -> one_session w -> one_session (deliver h w).
Proof.
  intros K H. specialize (K w H). unfold deliver.
  destruct (h w) as [u w'|e w']; exact K.
Qed.

Lemma dispatch_keydown_one key ls w :
  one_session w -> one_session (dispatch_keydown key ls w).
Proof.
  revert w. induction ls as [|h rest IH]; intros w H; cbn; [exact H|].
  apply IH. destruct (existsb _ _); [|exact H].
  apply deliver_one; [apply keeps_one_keyHandler_body | exact H].
Qed.

Lemma on_item_one k f w :
  (forall it, click_index (f it) = click_index it) ->
  one_session w -> one_session (on_item k f w).
Proof.
  intros Hf H. unfold on_item.
  destruct (container w) as [| | | |gallery items] eqn:C; try exact H.
  destruct H as (G & Gn & S).
  split; [|split; [|exact S]].
  - unfold grid_ok. cbn [container images set_container].
    intros gallery' items' [= <- <-].
    apply update_nth_click; [intros it; now rewrite Hf | now apply (G gallery)].
  - intros gallery' items' _. now apply (Gn gallery items).
Qed.

Lemma openLightbox_one k w :
  one_session w -> lightboxes w = [] ->
  0 <= k < js_length (images w) -> all_presentable (images w) ->
  one_session (final (openLightbox k w)).
Proof.
  intros (G & Gn & _) L R N.
  destruct (js_index_in_range _ _ R) as (image & J & I).
  destruct (presentable_fields image (all_presentable_In _ _ N I))
    as (a & b & sa & sb & t & Ha & Hb & Ta & Tb & Tc).
  destruct (openLightbox_run k w image a b sa sb t) as (w' & E & X & Lw);
    trivial.
  { intros e lb. rewrite L. intros []. }
  pose proof (openLightbox_frame k w) as F. cbv zeta in F.
  rewrite E in F |- *. cbn [final] in F |- *.
  destruct F as (Ei & Ec & _).
  rewrite L in Lw. cbn in Lw.
  eapply one_session_open; [| | exact Lw | | |].
  - intros gallery items Hc. rewrite Ei. apply (G gallery). congruence.
  - intros gallery items Hc. rewrite Ei. apply (Gn gallery items). congruence.
  - unfold in_range. now rewrite X, Ei.
  - now rewrite Ei.
  - unfold shows. rewrite X, Ei. split; reflexivity.
Qed.

Lemma fire_one n w : one_session w -> one_session (fire n w).
Proof.
  intros H. unfold fire.
  destruct (nth_error (timers w) n) as [[d t]|]; [|exact H].
  assert (H0 : one_session (set_timers (remove_nth n (timers w)) w)) by exact H.
  revert H0. generalize (set_timers (remove_nth n (timers w)) w) as w0.
  intros w0 H0. destruct t; cbn.
  - exact H0.
  - pose proof (on_item_one i reveal w0 (fun it => eq_refl) H0) as R.
    unfold on_item in R.
    destruct (container w0) as [| | | |g items]; try exact H0.
    destruct (Nat.eqb g gallery); [exact R | exact H0].
  - apply (one_session_touch w0 el (set_visible true)); trivial.
    intros lb; split; reflexivity.
  - destruct H0 as (G & Gn & S).
    destruct S as [E|(e & lb & L & R & N & Sh)].
    + apply one_session_closed; trivial. cbn. now rewrite E.
    + destruct (negb (Nat.eqb e el)) eqn:Q.
      * apply (one_session_open _ e lb); trivial.
        cbn [lightboxes set_lightboxes]. rewrite L. cbn [filter fst].
        now rewrite Q.
      * apply one_session_closed; trivial.
        cbn [lightboxes set_lightboxes]. rewrite L. cbn [filter fst].
        now rewrite Q.
Qed.

Lemma step_one ev w :
  one_session w ->
  match ev with ClickItem _ => lightboxes w = [] | _ => True end ->
  one_session (step ev w).
Proof.
  intros H Hc. destruct ev; cbn.
  - unfold click_item.
    destruct (container w) as [| | | |gallery items] eqn:C; trivial.
    destruct (nth_error items k) as [it|] eqn:N; trivial.
    pose proof H as (G & Gn & _).
    assert (R : 0 <= click_index it < js_length (images w)).
    { specialize (G gallery items C). rewrite Forall_forall in G.
      apply G. eapply nth_error_In; eassumption. }
    pose proof (openLightbox_one (click_index it) w H Hc R
                  (Gn gallery items C)) as O.
    unfold deliver. destruct (openLightbox (click_index it) w); exact O.
  - unfold click_lightbox. destruct (find_lightbox _ _); trivial.
    destruct (clicks_wired _); trivial.
    destruct b; apply deliver_one;
      auto using keeps_one_closeLightbox, keeps_one_prevImage,
        keeps_one_nextImage.
  - apply dispatch_keydown_one; trivial.
  - unfold touchstart. destruct (find_lightbox _ _) as [lb|]; trivial.
    destruct (touchStartX lb); trivial.
    apply one_session_touch; trivial. intros lb'; split; reflexivity.
  - unfold touchend. destruct (find_lightbox _ _) as [lb|]; trivial.
    destruct (touchStartX lb); trivial.
    apply deliver_one; trivial. apply keeps_one_handleSwipe.
  - unfold image_load. destruct (find_lightbox _ _) as [lb|]; trivial.
    destruct (img_onload lb); trivial.
    apply one_session_touch; trivial. intros lb'; split; reflexivity.
  - unfold image_error. destruct (find_lightbox _ _) as [lb|]; trivial.
    destruct (img_onerror lb) as [[nm url]|]; trivial.
    apply (one_session_touch
             (set_console (console w ++ [ImageLoadFailed nm url]) w)
             el dimmed_image); trivial.
    intros lb'; split; reflexivity.
  - now apply fire_one.
  - apply on_item_one; trivial. intros it. unfold intersecting.
    now destruct (thumb_observed it).
  - apply on_item_one; trivial. intros it. unfold thumb_load.
    now destruct (thumb_onload it).
Qed.

Lemma run_one evs : forall w,
  one_session w -> from_closed evs w -> one_session (run evs w).
Proof.
  unfold run. induction evs as [|ev rest IH]; intros w H F; cbn; [exact H|].
  destruct F as (Fc & Fr). apply IH; [now apply step_one | exact Fr].
Qed.

Lemma forEach_presentable imgs : forall index w items w',
  forEach_createImageItem imgs index w = Ok items w' -> all_presentable imgs.
Proof.
  intros index w items w' F. unfold all_presentable.
  destruct (forallb presentable imgs) eqn:P; [reflexivity|].
  rewrite (forEach_unpresentable imgs index w P) in F. discriminate.
Qed.

Lemma init_try_presentable imgs w gallery items :
  container (final (try_catch (init_try imgs) init_catch w))
  = Grid gallery items ->
  all_presentable imgs.
Proof.
  unfold try_catch. rewrite init_try_run. cbv zeta.
  unfold init_catch, showError. unfold_monad.
  destruct (js_length imgs =? 0); cbn; [discriminate|].
  match goal with
  | |- context [forEach_createImageItem imgs 0 ?w0] =>
      pose proof (forEach_presentable imgs 0 w0) as N;
      destruct (forEach_createImageItem imgs 0 w0) as [its w1|e w1]
  end; cbn; [|discriminate].
  intros _. eapply N. reflexivity.
Qed.

Lemma TattooGallery_one el net page w :
  lightboxes page = [] ->
  TattooGallery el net page = ArrayImages w ->
  one_session w.
Proof.
  intros L T.
  destruct (TattooGallery_session el net page w L T) as (_ & G & _).
  split; [exact G|]. split.
  - revert T. unfold TattooGallery. destruct (falsy_string _).
    + intros [= <-] gallery items. discriminate.
    + unfold init.
      match goal with
      | |- context [fetchImages net ?w0] =>
          pose proof (fetchImages_state net w0) as S;
          destruct (fetchImages net w0) as [data w1|e w1]
      end.
      * destruct data; try discriminate. intros [= <-] gallery items Hc.
        pose proof (init_try_presentable _ _ _ _ Hc) as N.
        now destruct (init_try_state elems w1) as (-> & _).
      * intros [= <-] gallery items. discriminate.
  - left. revert T. unfold TattooGallery. destruct (falsy_string _).
    + now intros [= <-].
    + intros T. apply init_state in T. destruct T as (-> & _). exact L.
Qed.

(** C4.  Whenever [updateLightboxImage] renders a lightbox element (it
    completes, and the element it works on is in the document), that element
    has its previous button hidden ([display: none]) if and only if the
    current index is 0, and its next button hidden if and only if the current
    index is [N - 1]; a button that is not hidden is shown ([flex]).  And on
    a page that had no lightbox when the gallery was constructed, after any
    sequence of user events and timeouts in which a grid item is activated
    only while no lightbox element is in the document, every lightbox element
    of the document has its buttons in that state. *)
Theorem rendered_buttons_hidden_at_the_ends :
  (forall (arg : option nat) (w w' : World) (el : nat) (lb : Lightbox),
     target arg w = Some el ->
     find_lightbox el (lightboxes w) = Some lb ->
     updateLightboxImage arg w = Ok tt w' ->
     exists lb',
       find_lightbox el (lightboxes w') = Some lb' /\
       (prev_display lb' = "none" <-> currentImageIndex w' = 0) /\
       (next_display lb' = "none"
        <-> currentImageIndex w' = js_length (images w') - 1) /\
       (prev_display lb' = "none" \/ prev_display lb' = "flex") /\
       (next_display lb' = "none" \/ next_display lb' = "flex") /\
       in_range w') /\
  (forall el net page w evs e lb,
     lightboxes page = [] ->
     TattooGallery el net page = ArrayImages w ->
     from_closed evs w ->
     In (e, lb) (lightboxes (run evs w)) ->
     (prev_display lb = "none" <-> currentImageIndex (run evs w) = 0) /\
     (next_display lb = "none"
      <-> currentImageIndex (run evs w)
          = js_length (images (run evs w)) - 1)).
Proof.
  split.
  - intros arg w w' el lb T F. rewrite updateLightboxImage_run, T. cbv zeta.
    destruct (get_field "id" _) as [image_id|] eqn:I; [|discriminate].
    destruct (template image_id) as [id_text|]; [|discriminate].
    destruct (get_field "name" _) as [image_name|]; [|discriminate].
    destruct (template image_name) as [alt|]; [|discriminate].
    destruct (text_content image_name) as [text|]; [|discriminate].
    intros [= <-]. eexists. split.
    + cbn. apply find_update_lightbox. exact F.
    + cbn.
      assert (R : 0 <= currentImageIndex w < js_length (images w)).
      { unfold js_index in I.
        destruct (currentImageIndex w <? 0) eqn:Neg; [discriminate|].
        destruct (nth_error (images w) (Z.to_nat (currentImageIndex w))) eqn:N;
          [|discriminate].
        assert (nth_error (images w) (Z.to_nat (currentImageIndex w)) <> None)
          as Hn by congruence.
        apply nth_error_Some in Hn. unfold js_length. lia. }
      unfold in_range. cbn.
      destruct (Z.eqb_spec (currentImageIndex w) 0);
        destruct (Z.eqb_spec (currentImageIndex w) (js_length (images w) - 1));
        repeat split; intros; auto; try congruence; try lia.
  - intros el net page w evs e lb L T F I.
    pose proof (run_one evs w (TattooGallery_one el net page w L T) F)
      as (_ & _ & [E|(e' & lb' & L' & _ & _ & P & N)]).
    + rewrite E in I. destruct I.
    + rewrite L' in I. destruct I as [[= <- <-]|[]].
      rewrite P, N.
      destruct (Z.eqb_spec (currentImageIndex (run evs w)) 0);
        destruct (Z.eqb_spec (currentImageIndex (run evs w))
                    (js_length (images (run evs w)) - 1));
        repeat split; intros; auto; try congruence; try lia.
Qed.

(** Outside that protocol the second statement fails: a grid item activated
    after [closeLightbox()] and before the closed element is removed opens a
    second element, and the next navigation renders the closing one, which
    is the first [.tg-lightbox] of the document; the new element keeps the
    buttons of the index it was opened at. *)
Example navigation_renders_the_closing_element :
  let w := run [ClickItem 0; Press "Escape"; ClickItem 0; Press "ArrowRight"]
               cat_dog_gallery in
  currentImageIndex w = 1 /\
  exists closing opened,
    lightboxes w = [(1%nat, closing); (3%nat, opened)] /\
    counter closing = "2 / 2" /\ prev_display closing = "flex" /\
    counter opened = "1 / 2" /\ prev_display opened = "none".
Proof.
  cbv zeta. split; [reflexivity|]. do 2 eexists.
  split; [vm_compute; reflexivity|]. repeat split.
Qed.

(** * The properties on a concrete page *)

Example cat_dog_gallery_constructed :
  TattooGallery f1 cat_dog_net blank_page = ArrayImages cat_dog_gallery.
Proof. reflexivity. Qed.

(** The grid shows two items; a click on item 1 opens the lightbox on "Dog",
    counter "2 / 2", previous button shown, next button hidden. *)
Example cat_dog_example :
  (exists a b, container cat_dog_gallery = Grid 0 [a; b]) /\
  currentImageIndex dog_open = 1 /\
  lightboxes dog_open = [(1%nat, dog_lightbox)] /\
  caption dog_lightbox = "Dog" /\
  counter dog_lightbox = "2 / 2" /\
  prev_display dog_lightbox = "flex" /\
  next_display dog_lightbox = "none".
Proof. repeat split. do 2 eexists. reflexivity. Qed.

Lemma navigation_moves_by_one_without_wrapping_witness :
  in_range cat_dog_gallery /\
  currentImageIndex (final (nextImage cat_dog_gallery)) = 1 /\
  currentImageIndex (final (prevImage cat_dog_gallery)) = 0 /\
  currentImageIndex (final (nextImage dog_open)) = 1 /\
  currentImageIndex (final (prevImage dog_open)) = 0.
Proof.
  assert (R0 : in_range cat_dog_gallery) by (unfold in_range; cbn; lia).
  assert (R1 : in_range dog_open) by (unfold in_range; cbn; lia).
  destruct (navigation_moves_by_one_without_wrapping cat_dog_gallery R0)
    as (_ & N0 & P0 & _).
  destruct (navigation_moves_by_one_without_wrapping dog_open R1)
    as (N1 & _ & _ & P1 & _).
  split; [exact R0|].
  split; [rewrite N0; [reflexivity | cbn; lia]|].
  split; [rewrite P0; reflexivity|].
  split; [rewrite N1; reflexivity|].
  rewrite P1; [reflexivity | cbn; lia].
Defined.

Lemma lightbox_index_invariant_witness :
  lightboxes blank_page = [] /\
  TattooGallery f1 cat_dog_net blank_page = ArrayImages cat_dog_gallery /\
  lightboxes (run [ClickItem 1; Press "ArrowLeft"; Fire 0] cat_dog_gallery) <> [] /\
  in_range (run [ClickItem 1; Press "ArrowLeft"; Fire 0] cat_dog_gallery).
Proof.
  assert (L : lightboxes
                (run [ClickItem 1; Press "ArrowLeft"; Fire 0] cat_dog_gallery)
              <> []) by (vm_compute; discriminate).
  split; [reflexivity|]. split; [reflexivity|]. split; [exact L|].
  exact (proj2 (proj2 lightbox_index_invariant)
           f1 cat_dog_net blank_page cat_dog_gallery _ eq_refl eq_refl L).
Defined.

Lemma fetchImages_by_status_and_truthy_error_witness :
  fetchImages (fun _ => Responded not_found) blank_page
  = Raise (Error "API error: 404") (requested blank_page) /\
  fetchImages (fun _ => Responded quota_exceeded) blank_page
  = Raise (Error "quota exceeded") (requested blank_page) /\
  fetchImages cat_dog_net blank_page
  = Ok (JArr (map descriptor cat_dog)) (requested blank_page) /\
  fetchImages (fun _ => Responded unprintable_message) blank_page
  = Raise TypeError (requested blank_page).
Proof.
  split; [|split; [|split]].
  - apply (fetchImages_by_status_and_truthy_error
             (fun _ => Responded not_found) blank_page not_found eq_refl).
    reflexivity.
  - destruct (fetchImages_by_status_and_truthy_error
                (fun _ => Responded quota_exceeded) blank_page quota_exceeded
                eq_refl) as (_ & H).
    destruct (H eq_refl _ eq_refl) as (E & _).
    destruct (E (Some (JBool true)) eq_refl eq_refl)
      as (message & M & _ & _ & F & _).
    injection M as <-. apply (F "quota exceeded" eq_refl). discriminate.
  - destruct (fetchImages_by_status_and_truthy_error
                cat_dog_net blank_page
                (mkResponse 200 (Some (JArr (map descriptor cat_dog))))
                eq_refl) as (_ & H).
    destruct (H eq_refl _ eq_refl) as (_ & _ & A).
    exact (A _ eq_refl).
  - destruct (fetchImages_by_status_and_truthy_error
                (fun _ => Responded unprintable_message) blank_page
                unprintable_message eq_refl) as (_ & H).
    destruct (H eq_refl _ eq_refl) as (E & _).
    destruct (E (Some (JBool true)) eq_refl eq_refl)
      as (message & M & _ & _ & _ & F).
    injection M as <-. exact (F eq_refl eq_refl).
Defined.

Lemma rendered_buttons_hidden_at_the_ends_witness :
  target None dog_open = Some 1%nat /\
  find_lightbox 1 (lightboxes dog_open) = Some dog_lightbox /\
  updateLightboxImage None dog_open = Ok tt dog_open /\
  (exists lb',
     find_lightbox 1 (lightboxes dog_open) = Some lb' /\
     (prev_display lb' = "none" <-> currentImageIndex dog_open = 0) /\
     (next_display lb' = "none"
      <-> currentImageIndex dog_open = js_length (images dog_open) - 1)) /\
  from_closed back_to_cat cat_dog_gallery /\
  In (1%nat, cat_lightbox) (lightboxes (run back_to_cat cat_dog_gallery)) /\
  (prev_display cat_lightbox = "none"
   <-> currentImageIndex (run back_to_cat cat_dog_gallery) = 0).
Proof.
  assert (U : updateLightboxImage None dog_open = Ok tt dog_open)
    by reflexivity.
  assert (F : from_closed back_to_cat cat_dog_gallery)
    by (vm_compute; repeat split).
  assert (I : In (1%nat, cat_lightbox)
                 (lightboxes (run back_to_cat cat_dog_gallery)))
    by (vm_compute; left; reflexivity).
  split; [reflexivity|]. split; [reflexivity|]. split; [exact U|]. split.
  - destruct (proj1 rendered_buttons_hidden_at_the_ends
                None dog_open dog_open 1%nat dog_lightbox eq_refl eq_refl U)
      as (lb' & Fl & P & N & _).
    exists lb'. split; [exact Fl|]. split; [exact P | exact N].
  - split; [exact F|]. split; [exact I|].
    exact (proj1 (proj2 rendered_buttons_hidden_at_the_ends
                    f1 cat_dog_net blank_page cat_dog_gallery back_to_cat
                    1%nat cat_lightbox eq_refl eq_refl F I)).
Defined.

Lemma grid_items_open_their_image_witness :
  let w := set_images (map descriptor cat_dog) blank_page in
  images w = map descriptor cat_dog /\
  fresh w /\
  exists w1 items,
    renderGallery w = Ok tt w1 /\ container w1 = Grid 0 items /\
    List.length items = 2%nat /\
    currentImageIndex (click_item 1 w1) = 1.
Proof.
  intros w.
  assert (F : fresh w) by (intros e lb []).
  split; [reflexivity|]. split; [exact F|].
  destruct (grid_items_open_their_image cat_dog w eq_refl F)
    as (w1 & items & R & C & L & K).
  exists w1, items.
  split; [exact R|]. split; [exact C|]. split; [exact L|].
  destruct (K 1%nat (mkImage "b" "Dog") eq_refl) as (_ & X & _). exact X.
Defined.

Lemma missing_folder_id_shows_error_without_fetch_witness :
  dataset_folderId (mkContainerElement None (Some 4)) = None /\
  exists w,
    TattooGallery (mkContainerElement None (Some 4)) cat_dog_net blank_page
    = ArrayImages w /\
    container w = ErrorBox "Missing data-folder-id attribute" /\
    requests w = [].
Proof.
  split; [reflexivity|].
  destruct (missing_folder_id_shows_error_without_fetch
              (mkContainerElement None (Some 4)) cat_dog_net blank_page eq_refl)
    as (w & T & C & R & _).
  exists w. split; [exact T|]. split; [exact C | exact R].
Defined.

Lemma init_outcomes_witness :
  (exists w',
     init (fun _ => Responded not_found) blank_page = ArrayImages w' /\
     container w' = ErrorBox generic_message) /\
  (exists w',
     init (fun _ => Responded quota_exceeded) blank_page = ArrayImages w' /\
     container w' = ErrorBox generic_message) /\
  (exists w',
     init (fun _ => Responded (mkResponse 200 (Some (JArr [])))) blank_page
     = ArrayImages w' /\ container w' = EmptyBox) /\
  (exists w' items,
     init cat_dog_net blank_page = ArrayImages w' /\
     container w' = Grid 0 items /\
     items = map observe (thumbnails cat_dog 0)) /\
  (exists w',
     init cat_null_net blank_page = ArrayImages w' /\
     container w' = ErrorBox generic_message /\
     console w' = [GalleryError TypeError]) /\
  (exists w',
     init unprintable_id_net blank_page = ArrayImages w' /\
     container w' = ErrorBox generic_message /\
     console w' = [GalleryError TypeError]) /\
  (exists w',
     init (fun _ => Responded (mkResponse 200 (Some (JStr "")))) blank_page
     = OtherImages (JStr "") w' /\
     container w' = EmptyBox) /\
  (exists w',
     init (fun _ => Responded (mkResponse 200 (Some (JObj [])))) blank_page
     = OtherImages (JObj []) w' /\
     container w' = ErrorBox generic_message).
Proof.
  split; [|split; [|split; [|split; [|split; [|split; [|split]]]]]].
  - destruct (proj1 (init_outcomes (fun _ => Responded not_found) blank_page)
                _ _ eq_refl) as (w' & I & C & _).
    exists w'. split; [exact I | exact C].
  - destruct (proj1 (init_outcomes (fun _ => Responded quota_exceeded)
                       blank_page) _ _ eq_refl) as (w' & I & C & _).
    exists w'. split; [exact I | exact C].
  - destruct (proj1 (proj2 (init_outcomes
                (fun _ => Responded (mkResponse 200 (Some (JArr []))))
                blank_page)) _ eq_refl) as (w' & I & C & _).
    exists w'. split; [exact I | exact C].
  - assert (E : map descriptor cat_dog <> []) by discriminate.
    destruct (proj1 (proj2 (proj2 (init_outcomes cat_dog_net blank_page)))
                _ _ eq_refl E eq_refl) as (w' & items & I & C & _ & _ & _ & D).
    exists w', items. split; [exact I|]. split; [exact C|].
    exact (D cat_dog eq_refl).
  - destruct (proj1 (proj2 (proj2 (proj2
                (init_outcomes cat_null_net blank_page))))
                _ _ eq_refl eq_refl) as (w' & I & C & L & _).
    exists w'. split; [exact I|]. split; [exact C | exact L].
  - destruct (proj1 (proj2 (proj2 (proj2
                (init_outcomes unprintable_id_net blank_page))))
                _ _ eq_refl eq_refl) as (w' & I & C & L & _).
    exists w'. split; [exact I|]. split; [exact C | exact L].
  - destruct (proj2 (proj2 (proj2 (proj2
                (init_outcomes
                   (fun _ => Responded (mkResponse 200 (Some (JStr ""))))
                   blank_page))))
                _ _ eq_refl eq_refl) as (w' & I & Z & _).
    exists w'. split; [exact I|]. exact (proj1 (Z eq_refl)).
  - destruct (proj2 (proj2 (proj2 (proj2
                (init_outcomes
                   (fun _ => Responded (mkResponse 200 (Some (JObj []))))
                   blank_page))))
                _ _ eq_refl eq_refl) as (w' & I & _ & N).
    exists w'. split; [exact I|].
    apply N. cbn. discriminate.
Defined.

Lemma swipe_navigates_once_beyond_threshold_witness :
  find_lightbox 1 (lightboxes dog_open) = Some dog_lightbox /\
  touchStartX dog_lightbox = Some 0 /\
  handleSwipe 100 200 dog_open = prevImage dog_open /\
  handleSwipe 200 100 dog_open = nextImage dog_open /\
  handleSwipe 100 150 dog_open = Ok tt dog_open /\
  calls (touchend 1 200 900 (touchstart 1 100 10 dog_open))
  = (calls dog_open ++ [CallPrevImage])%list.
Proof.
  pose proof (swipe_navigates_once_beyond_threshold
                dog_open 1%nat dog_lightbox 0 100 10 200 900 eq_refl eq_refl)
    as (_ & P & _ & T & _).
  pose proof (swipe_navigates_once_beyond_threshold
                dog_open 1%nat dog_lightbox 0 200 10 100 900 eq_refl eq_refl)
    as (N & _).
  pose proof (swipe_navigates_once_beyond_threshold
                dog_open 1%nat dog_lightbox 0 100 10 150 900 eq_refl eq_refl)
    as (_ & _ & S & _).
  split; [reflexivity|]. split; [reflexivity|].
  split; [apply P; unfold swipeThreshold; lia|].
  split; [apply N; unfold swipeThreshold; lia|].
  split; [apply S; unfold swipeThreshold; lia|].
  exact T.
Defined.

Lemma reopen_lands_on_requested_index_witness :
  0 <= 0 < js_length (images dog_open) /\
  currentImageIndex dog_open = 1 /\
  currentImageIndex
    (final (openLightbox 0
              (run (map Fire [1%nat]) (final (closeLightbox dog_open))))) = 0.
Proof.
  assert (K : 0 <= 0 < js_length (images dog_open)) by (cbn; lia).
  split; [exact K|]. split; [reflexivity|].
  apply (reopen_lands_on_requested_index dog_open 0 [1%nat] K).
Defined.

Lemma no_lightbox_no_effect_witness :
  lightboxes cat_dog_gallery = [] /\
  closeLightbox cat_dog_gallery = Ok tt cat_dog_gallery /\
  updateLightboxImage None cat_dog_gallery = Ok tt cat_dog_gallery.
Proof.
  split; [reflexivity|].
  apply (no_lightbox_no_effect cat_dog_gallery eq_refl).
Defined.

(** * Further properties of the methods *)

(** ** Navigation composed *)

Lemma repeatedly_nextImage n : forall w,
  in_range w ->
  images (repeatedly nextImage n w) = images w /\
  currentImageIndex (repeatedly nextImage n w)
  = Z.min (currentImageIndex w + Z.of_nat n) (js_length (images w) - 1).
Proof.
  unfold repeatedly. induction n as [|n IH]; intros w R.
  - cbn. unfold in_range in R. split; [reflexivity | lia].
  - rewrite Nat.iter_succ. destruct (IH w R) as (Ei & Ex).
    destruct (nextImage_frame' (Nat.iter n (fun w => final (nextImage w)) w))
      as (Fi & _ & Fx & _).
    rewrite Fi, Fx. unfold next_index. rewrite Ei, Ex.
    split; [reflexivity|]. unfold in_range in R.
    destruct (Z.ltb_spec
                (Z.min (currentImageIndex w + Z.of_nat n)
                   (js_length (images w) - 1))
                (js_length (images w) - 1)); lia.
Qed.

Lemma repeatedly_prevImage n : forall w,
  in_range w ->
  images (repeatedly prevImage n w) = images w /\
  currentImageIndex (repeatedly prevImage n w)
  = Z.max (currentImageIndex w - Z.of_nat n) 0.
Proof.
  unfold repeatedly. induction n as [|n IH]; intros w R.
  - cbn. unfold in_range in R. split; [reflexivity | lia].
  - rewrite Nat.iter_succ. destruct (IH w R) as (Ei & Ex).
    destruct (prevImage_frame' (Nat.iter n (fun w => final (prevImage w)) w))
      as (Fi & _ & Fx & _).
    rewrite Fi, Fx. unfold prev_index. rewrite Ei, Ex.
    split; [reflexivity|]. unfold in_range in R.
    destruct (Z.gtb_spec (Z.max (currentImageIndex w - Z.of_nat n) 0) 0); lia.
Qed.

(** X1.  Navigation saturates at the ends.  From a state with
    [0 <= i < N], [n] calls of [nextImage()] in a row leave the index
    [min (i + n) (N - 1)], and [n] calls of [prevImage()] leave
    [max (i - n) 0]: once the last (first) image is reached, further calls
    change nothing, and the image array is never touched. *)
Theorem navigation_saturates (w : World) (n : nat) :
  in_range w ->
  currentImageIndex (repeatedly nextImage n w)
  = Z.min (currentImageIndex w + Z.of_nat n) (js_length (images w) - 1) /\
  currentImageIndex (repeatedly prevImage n w)
  = Z.max (currentImageIndex w - Z.of_nat n) 0 /\
  images (repeatedly nextImage n w) = images w /\
  images (repeatedly prevImage n w) = images w.
Proof.
  intros R.
  destruct (repeatedly_nextImage n w R) as (A & B).
  destruct (repeatedly_prevImage n w R) as (C & D).
  auto.
Qed.

(** X2.  Away from the ends the two navigations undo each other: with
    [0 <= i < N - 1], [nextImage()] followed by [prevImage()] leaves the
    index [i]; with [0 < i < N], [prevImage()] followed by [nextImage()]
    leaves [i].  At an end they do not: at the last image of at least two,
    [nextImage()] then [prevImage()] leaves [N - 2], and at the first,
    [prevImage()] then [nextImage()] leaves 1. *)
Theorem next_and_prev_undo_each_other (w : World) :
  in_range w ->
  let i := currentImageIndex w in
  let N := js_length (images w) in
  let next_prev := currentImageIndex (final (prevImage (final (nextImage w)))) in
  let prev_next := currentImageIndex (final (nextImage (final (prevImage w)))) in
  (i < N - 1 -> next_prev = i) /\
  (0 < i -> prev_next = i) /\
  (i = N - 1 -> 2 <= N -> next_prev = N - 2) /\
  (i = 0 -> 2 <= N -> prev_next = 1).
Proof.
  intros R. unfold in_range in R. cbv zeta.
  destruct (nextImage_frame' w) as (Ni & _ & Nx & _).
  destruct (prevImage_frame' w) as (Pi & _ & Px & _).
  destruct (prevImage_frame' (final (nextImage w))) as (_ & _ & PNx & _).
  destruct (nextImage_frame' (final (prevImage w))) as (_ & _ & NPx & _).
  rewrite PNx, NPx. unfold next_index, prev_index in *.
  rewrite Nx, Px, Pi.
  destruct (Z.ltb_spec (currentImageIndex w) (js_length (images w) - 1));
    destruct (Z.gtb_spec (currentImageIndex w) 0);
    repeat match goal with
           | |- context [?a <? ?b] => destruct (Z.ltb_spec a b)
           | |- context [?a >? ?b] => destruct (Z.gtb_spec a b)
           end; repeat split; intros; lia.
Qed.

(** ** The keyboard *)

Lemma keyHandler_ArrowRight w : keyHandler_body "ArrowRight" w = nextImage w.
Proof. reflexivity. Qed.

Lemma keyHandler_ArrowLeft w : keyHandler_body "ArrowLeft" w = prevImage w.
Proof.
  unfold keyHandler_body, bind, ret.
  change ("ArrowLeft" =? "Escape")%string with false.
  change ("ArrowLeft" =? "ArrowLeft")%string with true.
  change ("ArrowLeft" =? "ArrowRight")%string with false.
  cbv beta iota.
  now destruct (prevImage w) as [[] w'|e w'].
Qed.

Lemma keyHandler_Escape w : keyHandler_body "Escape" w = closeLightbox w.
Proof.
  unfold keyHandler_body, bind, ret.
  change ("Escape" =? "Escape")%string with true.
  change ("Escape" =? "ArrowLeft")%string with false.
  change ("Escape" =? "ArrowRight")%string with false.
  cbv beta iota.
  now destruct (closeLightbox w) as [[] w'|e w'].
Qed.

Lemma keyHandler_other key w :
  key <> "Escape" -> key <> "ArrowLeft" -> key <> "ArrowRight" ->
  keyHandler_body key w = Ok tt w.
Proof.
  intros A B C. unfold keyHandler_body, bind, ret.
  apply String.eqb_neq in A, B, C. now rewrite A, B, C.
Qed.

Lemma dispatch_other key ls : forall w,
  key <> "Escape" -> key <> "ArrowLeft" -> key <> "ArrowRight" ->
  dispatch_keydown key ls w = w.
Proof.
  induction ls as [|h rest IH]; intros w A B C; cbn; [reflexivity|].
  unfold deliver. rewrite keyHandler_other by assumption.
  destruct (existsb _ _); now apply IH.
Qed.

Lemma deliver_ext (h h' : M unit) w : h w = h' w -> deliver h w = deliver h' w.
Proof. unfold deliver. now intros ->. Qed.

Lemma deliver_nextImage w :
  let w' := deliver nextImage w in
  keydown w' = keydown w /\ images w' = images w /\
  currentImageIndex w' = next_index w /\
  calls w' = (calls w ++ [CallNextImage])%list.
Proof.
  destruct (nextImage_frame w) as (L & E & _). unfold deliver.
  destruct (nextImage w) as [u w1|e w1]; cbn in E; subst w1; cbn; auto.
Qed.

Lemma deliver_prevImage w :
  let w' := deliver prevImage w in
  keydown w' = keydown w /\ images w' = images w /\
  currentImageIndex w' = prev_index w /\
  calls w' = (calls w ++ [CallPrevImage])%list.
Proof.
  destruct (prevImage_frame w) as (L & E & _). unfold deliver.
  destruct (prevImage w) as [u w1|e w1]; cbn in E; subst w1; cbn; auto.
Qed.

Lemma existsb_In h l : In h l -> existsb (Nat.eqb h) l = true.
Proof.
  intros H. apply existsb_exists. exists h. split; [exact H|].
  apply Nat.eqb_refl.
Qed.

Lemma dispatch_ArrowRight ls : forall w,
  Forall (fun h => In h (keydown w)) ls ->
  let w' := dispatch_keydown "ArrowRight" ls w in
  images w' = images w /\
  calls w' = (calls w ++ repeat CallNextImage (List.length ls))%list /\
  (in_range w ->
   currentImageIndex w'
   = Z.min (currentImageIndex w + Z.of_nat (List.length ls))
           (js_length (images w) - 1)).
Proof.
  induction ls as [|h rest IH]; intros w F; cbn [dispatch_keydown].
  - cbn. rewrite app_nil_r. unfold in_range. repeat split; trivial. lia.
  - inversion F as [|? ? Hh Hr]; subst. rewrite (existsb_In _ _ Hh).
    rewrite (deliver_ext _ nextImage w (keyHandler_ArrowRight w)).
    destruct (deliver_nextImage w) as (Ek & Ei & Ex & Ec).
    destruct (IH (deliver nextImage w)) as (Ji & Jc & Jx).
    { eapply Forall_impl; [|exact Hr]. cbn. intros a. now rewrite Ek. }
    cbv zeta in *. rewrite Ji, Jc, Ei, Ec. split; [reflexivity|]. split.
    + rewrite <- app_assoc. cbn [app List.length repeat]. reflexivity.
    + intros R.
      assert (R' : in_range (deliver nextImage w)).
      { unfold in_range. rewrite Ex, Ei. now apply next_index_in_range. }
      rewrite (Jx R'), Ex, Ei. unfold next_index, in_range in *.
      cbn [List.length].
      destruct (Z.ltb_spec (currentImageIndex w) (js_length (images w) - 1));
        lia.
Qed.

Lemma dispatch_ArrowLeft ls : forall w,
  Forall (fun h => In h (keydown w)) ls ->
  let w' := dispatch_keydown "ArrowLeft" ls w in
  images w' = images w /\
  calls w' = (calls w ++ repeat CallPrevImage (List.length ls))%list /\
  (in_range w ->
   currentImageIndex w'
   = Z.max (currentImageIndex w - Z.of_nat (List.length ls)) 0).
Proof.
  induction ls as [|h rest IH]; intros w F; cbn [dispatch_keydown].
  - cbn. rewrite app_nil_r. unfold in_range. repeat split; trivial. lia.
  - inversion F as [|? ? Hh Hr]; subst. rewrite (existsb_In _ _ Hh).
    rewrite (deliver_ext _ prevImage w (keyHandler_ArrowLeft w)).
    destruct (deliver_prevImage w) as (Ek & Ei & Ex & Ec).
    destruct (IH (deliver prevImage w)) as (Ji & Jc & Jx).
    { eapply Forall_impl; [|exact Hr]. cbn. intros a. now rewrite Ek. }
    cbv zeta in *. rewrite Ji, Jc, Ei, Ec. split; [reflexivity|]. split.
    + rewrite <- app_assoc. cbn [app List.length repeat]. reflexivity.
    + intros R.
      assert (R' : in_range (deliver prevImage w)).
      { unfold in_range. rewrite Ex, Ei. now apply prev_index_in_range. }
      rewrite (Jx R'), Ex. unfold prev_index, in_range in *.
      cbn [List.length].
      destruct (Z.gtb_spec (currentImageIndex w) 0); lia.
Qed.

Lemma Forall_In_self {A} (l : list A) : Forall (fun h => In h l) l.
Proof. apply Forall_forall. auto. Qed.

(** X3.  The keydown listener.  A key other than Escape, ArrowLeft and
    ArrowRight changes nothing.  ArrowRight enters [nextImage()] once for
    each keydown listener registered on the document and nothing else, and
    ArrowLeft enters [prevImage()] likewise: with one listener, the normal
    case, exactly one step; with [n] listeners, which calls of
    [openLightbox] not matched by a [closeLightbox] leave behind, [n] steps,
    saturating at the ends.  Escape, with the one listener being
    [this.keyHandler], is [closeLightbox()]. *)
Theorem keyboard_navigation (w : World) :
  (forall key,
     key <> "Escape" -> key <> "ArrowLeft" -> key <> "ArrowRight" ->
     press key w = w) /\
  calls (press "ArrowRight" w)
  = (calls w ++ repeat CallNextImage (List.length (keydown w)))%list /\
  calls (press "ArrowLeft" w)
  = (calls w ++ repeat CallPrevImage (List.length (keydown w)))%list /\
  (in_range w ->
   currentImageIndex (press "ArrowRight" w)
   = Z.min (currentImageIndex w + Z.of_nat (List.length (keydown w)))
           (js_length (images w) - 1) /\
   currentImageIndex (press "ArrowLeft" w)
   = Z.max (currentImageIndex w - Z.of_nat (List.length (keydown w))) 0) /\
  (forall h, keydown w = [h] -> press "Escape" w = final (closeLightbox w)).
Proof.
  unfold press.
  destruct (dispatch_ArrowRight (keydown w) w (Forall_In_self _))
    as (_ & Rc & Rx).
  destruct (dispatch_ArrowLeft (keydown w) w (Forall_In_self _))
    as (_ & Lc & Lx).
  split; [intros key A B C; now apply dispatch_other|].
  split; [exact Rc|]. split; [exact Lc|]. split; [auto|].
  intros h E. rewrite E. cbn [dispatch_keydown]. rewrite E. cbn [existsb].
  rewrite Nat.eqb_refl. cbn [orb]. unfold deliver.
  rewrite keyHandler_Escape.
  destruct (closeLightbox_ok w) as (w' & ->). reflexivity.
Qed.

(** ** Which element the methods work on *)

Lemma update_lightbox_head e f lb rest :
  update_lightbox e f ((e, lb) :: rest) = (e, f lb) :: rest.
Proof. cbn. now rewrite Nat.eqb_refl. Qed.

Lemma updateLightboxImage_head w e lb rest :
  lightboxes w = (e, lb) :: rest ->
  exists lb', lightboxes (final (updateLightboxImage None w)) = (e, lb') :: rest.
Proof.
  intros L. rewrite updateLightboxImage_run.
  unfold target, querySelector_lightbox. rewrite L. cbv zeta.
  repeat break_match;
    cbn [final lightboxes set_lightboxes];
    rewrite ?update_lightbox_head; eexists; reflexivity.
Qed.

(** X4.  The methods that look the lightbox up in the document work on the
    first [.tg-lightbox] element and on no other: when the document holds
    several, [updateLightboxImage()], [nextImage()], [prevImage()] and
    [closeLightbox()] leave every element after the first exactly as it
    was, and neither add nor remove one. *)
Theorem only_the_first_lightbox_is_touched
  (w : World) (e : nat) (lb : Lightbox) (rest : list (nat * Lightbox)) :
  lightboxes w = (e, lb) :: rest ->
  (exists lb',
     lightboxes (final (updateLightboxImage None w)) = (e, lb') :: rest) /\
  (exists lb', lightboxes (final (nextImage w)) = (e, lb') :: rest) /\
  (exists lb', lightboxes (final (prevImage w)) = (e, lb') :: rest) /\
  (exists lb', lightboxes (final (closeLightbox w)) = (e, lb') :: rest).
Proof.
  intros L. split; [exact (updateLightboxImage_head w e lb rest L)|].
  split; [|split].
  - rewrite nextImage_run. cbv zeta.
    destruct (currentImageIndex w <? js_length (images w) - 1).
    + apply updateLightboxImage_head with (lb := lb). exact L.
    + exists lb. exact L.
  - rewrite prevImage_run. cbv zeta.
    destruct (currentImageIndex w >? 0).
    + apply updateLightboxImage_head with (lb := lb). exact L.
    + exists lb. exact L.
  - unfold closeLightbox, querySelector_lightbox. unfold_monad. rewrite L.
    cbn [final lightboxes set_lightboxes set_keydown set_overflow set_timers].
    rewrite L, update_lightbox_head. eexists; reflexivity.
Qed.

(** ** Opening and closing *)

Lemma js_index_outside arr i :
  ~ (0 <= i < js_length arr) -> js_index arr i = None.
Proof.
  intros H. unfold js_index, js_length in *.
  destruct (Z.ltb_spec i 0); [reflexivity|].
  apply nth_error_None. lia.
Qed.

Lemma openLightbox_complete k w image image_id image_name id_text alt text :
  fresh w ->
  js_index (images w) k = Some image ->
  get_field "id" (Some image) = Some image_id ->
  get_field "name" (Some image) = Some image_name ->
  template image_id = Some id_text ->
  template image_name = Some alt ->
  text_content image_name = Some text ->
  exists w',
    openLightbox k w = Ok tt w' /\
    currentImageIndex w' = k /\
    lightboxes w' =
      (lightboxes w
         ++ [(nextId w,
              opened_lightbox image_name id_text alt text k
                (js_length (images w)))])%list /\
    keydown w' = (keydown w ++ [S (nextId w)])%list /\
    keyHandler w' = Some (S (nextId w)) /\
    overflow w' = "hidden" /\
    timers w' = (timers w ++ [(10, ShowLightbox (nextId w))])%list /\
    nextId w' = S (S (nextId w)) /\
    images w' = images w /\ container w' = container w /\
    console w' = console w /\ requests w' = requests w /\ calls w' = calls w.
Proof.
  intros F J I N Ti Tn Tc.
  unfold openLightbox, setupTouchNavigation. unfold_monad.
  rewrite updateLightboxImage_run. unfold target. cbv zeta.
  cbn [images currentImageIndex lightboxes nextId set_currentImageIndex
       set_nextId set_lightboxes set_overflow].
  rewrite J, I, N, Ti, Tn, Tc.
  eexists. split; [reflexivity|].
  cbn [images currentImageIndex lightboxes nextId keydown keyHandler overflow
       timers container console requests calls
       set_currentImageIndex set_nextId set_lightboxes set_overflow
       set_keyHandler set_keydown set_timers].
  rewrite !update_lightbox_app_fresh by exact F.
  repeat split.
Qed.

Lemma openLightbox_incomplete k w :
  fresh w ->
  get_field "id" (js_index (images w) k) = None ->
  exists w',
    openLightbox k w = Raise TypeError w' /\
    currentImageIndex w' = k /\
    lightboxes w'
    = (lightboxes w ++ [(nextId w, hide_opacity fresh_lightbox)])%list /\
    overflow w' = "hidden" /\
    keydown w' = keydown w /\ keyHandler w' = keyHandler w /\
    timers w' = timers w /\ images w' = images w /\
    nextId w' = S (nextId w).
Proof.
  intros F I.
  unfold openLightbox, setupTouchNavigation. unfold_monad.
  rewrite updateLightboxImage_run. unfold target. cbv zeta.
  cbn [images currentImageIndex lightboxes nextId set_currentImageIndex
       set_nextId set_lightboxes set_overflow].
  rewrite I.
  eexists. split; [reflexivity|].
  cbn [images currentImageIndex lightboxes nextId keydown keyHandler overflow
       timers set_currentImageIndex set_nextId set_lightboxes set_overflow].
  rewrite !update_lightbox_app_fresh by exact F.
  repeat split.
Qed.

(** Every call of [openLightbox] appends one element to the document; it
    registers its listener and its timeout when the rendering completes,
    and neither when the rendering throws. *)
Lemma openLightbox_outcome k w :
  fresh w ->
  exists o,
    (openLightbox k w = Ok tt o /\
     exists lb,
       lightboxes o = (lightboxes w ++ [(nextId w, lb)])%list /\
       keydown o = (keydown w ++ [S (nextId w)])%list /\
       keyHandler o = Some (S (nextId w)) /\
       timers o = (timers w ++ [(10, ShowLightbox (nextId w))])%list /\
       nextId o = S (S (nextId w))) \/
    (openLightbox k w = Raise TypeError o /\
     exists lb,
       lightboxes o = (lightboxes w ++ [(nextId w, lb)])%list /\
       keydown o = keydown w /\
       keyHandler o = keyHandler w /\
       timers o = timers w /\
       nextId o = S (nextId w)).
Proof.
  intros F.
  unfold openLightbox, setupTouchNavigation. unfold_monad.
  rewrite updateLightboxImage_run. unfold target. cbv zeta.
  cbn [images currentImageIndex lightboxes nextId set_currentImageIndex
       set_nextId set_lightboxes set_overflow].
  destruct (get_field "id" _) as [a|];
    [destruct (template a);
     [destruct (get_field "name" _) as [b|];
      [destruct (template b); [destruct (text_content b)|]|]|]|];
    eexists;
    first [left; split; [reflexivity|] | right; split; [reflexivity|]];
    cbn [images currentImageIndex lightboxes nextId keydown keyHandler
         overflow timers set_currentImageIndex set_nextId set_lightboxes
         set_overflow set_keyHandler set_keydown set_timers];
    rewrite !update_lightbox_app_fresh by exact F;
    eexists; repeat split.
Qed.

(** X5.  [openLightbox(index)] does not check its argument.  With an index
    outside [0 .. N-1], or one whose array element is [null], it throws a
    TypeError from the rendering, after it has stored the index, appended
    the new element to the document and disabled the page's scrolling, and
    before it registers any listener or timeout: the element stays in the
    document with empty caption and counter and without click, key or touch
    listener, and the stored index is the one given. *)
Theorem openLightbox_with_invalid_index_leaves_inert_element
  (w : World) (k : Z) :
  fresh w ->
  ~ (0 <= k < js_length (images w)) \/ js_index (images w) k = Some JNull ->
  exists w' lb,
    openLightbox k w = Raise TypeError w' /\
    currentImageIndex w' = k /\
    lightboxes w' = (lightboxes w ++ [(nextId w, lb)])%list /\
    caption lb = "" /\ counter lb = "" /\
    clicks_wired lb = false /\ touchStartX lb = None /\
    overflow w' = "hidden" /\
    keydown w' = keydown w /\ keyHandler w' = keyHandler w /\
    timers w' = timers w.
Proof.
  intros F H.
  assert (I : get_field "id" (js_index (images w) k) = None).
  { destruct H as [H|H]; [rewrite (js_index_outside _ _ H) | rewrite H];
      reflexivity. }
  destruct (openLightbox_incomplete k w F I)
    as (w' & E & X & L & O & K & KH & T & _).
  exists w', (hide_opacity fresh_lightbox). repeat split; trivial.
Qed.

Lemma closeLightbox_head w e lb rest :
  lightboxes w = (e, lb) :: rest ->
  closeLightbox w
  = Ok tt
      (set_timers (timers w ++ [(300, RemoveLightbox e)])
         (set_overflow ""
            (set_keydown (removeEventListener (keyHandler w) (keydown w))
               (set_lightboxes ((e, set_visible false lb) :: rest) w)))).
Proof.
  intros L. destruct w. cbn in L. subst.
  unfold closeLightbox, querySelector_lightbox. unfold_monad. cbn.
  now rewrite Nat.eqb_refl.
Qed.

Lemma filter_below (n : nat) (l : list nat) :
  Forall (fun h => (h < n)%nat) l ->
  filter (fun k' => negb (Nat.eqb k' n)) (l ++ [n]) = l.
Proof.
  induction l as [|h rest IH]; cbn; intros F.
  - now rewrite Nat.eqb_refl.
  - inversion F as [|? ? Hh Hr]; subst.
    destruct (Nat.eqb_spec h n); [lia|]. cbn. now rewrite IH.
Qed.

Lemma nth_error_second_last {A} (l : list A) (a b : A) :
  nth_error (l ++ [a; b]) (S (List.length l)) = Some b.
Proof. induction l; cbn; [reflexivity | exact IHl]. Qed.

(** X6.  A lightbox opened from the closed state and closed again.  Start
    with no lightbox element in the document and keydown listeners that
    predate the call.  [openLightbox(k)], where the [k]-th element of the
    array is presentable (its [id] and [name] can be read and converted to
    strings), completes, adds one keydown listener and disables scrolling;
    [closeLightbox()] then removes exactly that listener, so that the
    listeners are those of the start, sets the page's overflow to the empty
    string (whatever it was before the lightbox opened), hides the element
    and schedules its removal 300 ms later; the index stays [k].  When that
    timeout runs the document holds no lightbox element again. *)
Theorem open_then_close_returns_to_closed
  (w : World) (k : Z) (image : json) :
  lightboxes w = [] ->
  Forall (fun h => (h < nextId w)%nat) (keydown w) ->
  js_index (images w) k = Some image ->
  presentable image = true ->
  exists opened closed lb,
    openLightbox k w = Ok tt opened /\
    closeLightbox opened = Ok tt closed /\
    keydown opened = (keydown w ++ [S (nextId w)])%list /\
    overflow opened = "hidden" /\
    keydown closed = keydown w /\
    overflow closed = "" /\
    currentImageIndex closed = k /\
    lightboxes closed = [(nextId w, lb)] /\ lb_visible lb = false /\
    timers closed
    = (timers w ++ [(10, ShowLightbox (nextId w));
                    (300, RemoveLightbox (nextId w))])%list /\
    lightboxes (fire (S (List.length (timers w))) closed) = [] /\
    keydown (fire (S (List.length (timers w))) closed) = keydown w.
Proof.
  intros L K J P.
  destruct (presentable_fields image P)
    as (a & b & sa & sb & t & Ha & Hb & Ta & Tb & Tc).
  assert (F : fresh w) by (intros e lb; rewrite L; intros []).
  destruct (openLightbox_complete k w image a b sa sb t F J Ha Hb Ta Tb Tc)
    as (o & Eo & Ox & Ol & Okd & Oh & Oo & Ot & _).
  rewrite L in Ol. cbn [app] in Ol.
  exists o.
  pose proof (closeLightbox_head o _ _ _ Ol) as C.
  eexists. eexists. split; [exact Eo|]. split; [exact C|].
  cbn [keydown overflow currentImageIndex lightboxes timers
       set_timers set_overflow set_keydown set_lightboxes].
  rewrite Okd, Oh, Ot.
  cbn [removeEventListener].
  rewrite (filter_below (S (nextId w)) (keydown w))
    by (eapply Forall_impl; [|exact K]; cbn; lia).
  rewrite <- app_assoc. cbn [app].
  repeat split; trivial.
  - unfold fire. cbn [timers set_timers].
    rewrite nth_error_second_last.
    cbn [run_timer lightboxes set_timers set_lightboxes set_overflow
         set_keydown filter fst].
    now rewrite Nat.eqb_refl.
  - unfold fire. cbn [timers set_timers].
    rewrite nth_error_second_last. reflexivity.
Qed.

(** ** What the lightbox presents *)

Lemma render_single_view w el lb :
  lightboxes w = [(el, lb)] -> in_range w -> all_presentable (images w) ->
  exists lb',
    updateLightboxImage None w = Ok tt (set_lightboxes [(el, lb')] w) /\
    current_view w = Some (view lb').
Proof.
  intros L R N. rewrite updateLightboxImage_run.
  unfold target, querySelector_lightbox, current_view. rewrite L. cbv zeta.
  destruct (js_index_fields _ _ R N)
    as (a & b & sa & sb & t & -> & -> & -> & -> & ->).
  cbn [lightboxes set_lightboxes]. rewrite !update_lightbox_head.
  eexists. split; reflexivity.
Qed.

Lemma one_view_closed w : one_session w -> lightboxes w = [] -> one_view w.
Proof. intros S L. split; [exact S|]. rewrite L. intros e lb []. Qed.

Lemma one_view_step_to w i c :
  one_view w ->
  0 <= i < js_length (images w) \/ lightboxes w = [] ->
  one_view
    (final (updateLightboxImage None
              (set_currentImageIndex i (set_calls c w)))).
Proof.
  intros (S & V) R. split; [now apply one_session_step_to|].
  pose proof S as (_ & _ & [E|(el & lb & L & _ & N & _)]).
  - rewrite updateLightboxImage_absent by exact E. cbn. rewrite E.
    intros e lb [].
  - destruct R as [R|E]; [|congruence].
    destruct (render_single_view
                (set_currentImageIndex i (set_calls c w)) el lb L R N)
      as (lb' & -> & D).
    cbn [final lightboxes set_lightboxes]. intros e x [[= <- <-]|[]].
    exact D.
Qed.

Lemma keeps_view_nextImage : keeps one_view nextImage.
Proof.
  intros w H. rewrite nextImage_run. cbv zeta.
  destruct (Z.ltb_spec (currentImageIndex w) (js_length (images w) - 1)).
  - apply one_view_step_to; trivial.
    destruct H as ((_ & _ & [E|(el & lb & _ & R & _)]) & _); [now right|].
    left. unfold in_range in R. lia.
  - exact H.
Qed.

Lemma keeps_view_prevImage : keeps one_view prevImage.
Proof.
  intros w H. rewrite prevImage_run. cbv zeta.
  destruct (Z.gtb_spec (currentImageIndex w) 0).
  - apply one_view_step_to; trivial.
    destruct H as ((_ & _ & [E|(el & lb & _ & R & _)]) & _); [now right|].
    left. unfold in_range in R. lia.
  - exact H.
Qed.

Lemma in_update_lightbox el f e lb' l :
  In (e, lb') (update_lightbox el f l) ->
  exists lb, In (e, lb) l /\ (lb' = lb \/ lb' = f lb).
Proof.
  induction l as [|[e0 x] rest IH]; cbn; [intros []|].
  destruct (Nat.eqb e0 el).
  - intros [[= <- <-]|H]; [exists x | exists lb']; auto.
  - intros [[= <- <-]|H]; [exists x; auto|].
    destruct (IH H) as (lb & I & E). exists lb. auto.
Qed.

(** A change of elements that leaves what they present as it is. *)
Lemma one_view_touch w el f :
  (forall lb, prev_display (f lb) = prev_display lb /\
              next_display (f lb) = next_display lb) ->
  (forall lb, view (f lb) = view lb) ->
  one_view w ->
  one_view (set_lightboxes (update_lightbox el f (lightboxes w)) w).
Proof.
  intros Hb Hv (S & V). split; [now apply one_session_touch|].
  cbn [lightboxes set_lightboxes]. intros e lb' I.
  destruct (in_update_lightbox _ _ _ _ _ I) as (lb & Il & [->| ->]).
  - exact (V e lb Il).
  - rewrite Hv. exact (V e lb Il).
Qed.

Lemma keeps_view_closeLightbox : keeps one_view closeLightbox.
Proof.
  intros w H. unfold closeLightbox. unfold_monad.
  destruct (querySelector_lightbox w) as [el|]; cbn [final]; [|exact H].
  apply (one_view_touch w el (set_visible false)) in H;
    [exact H | intros lb; split; reflexivity | reflexivity].
Qed.

Lemma keeps_view_keyHandler_body key : keeps one_view (keyHandler_body key).
Proof.
  unfold keyHandler_body.
  repeat (apply keeps_bind; [|intros _]);
    apply keeps_if;
    auto using keeps_ret, keeps_view_closeLightbox, keeps_view_prevImage,
      keeps_view_nextImage.
Qed.

Lemma keeps_view_handleSwipe startX endX :
  keeps one_view (handleSwipe startX endX).
Proof.
  unfold handleSwipe.
  repeat apply keeps_if;
    auto using keeps_ret, keeps_view_prevImage, keeps_view_nextImage.
Qed.

Lemma deliver_view (h : M unit) w :
  keeps one_view h -> one_view w -> one_view (deliver h w).
Proof.
  intros K H. specialize (K w H). unfold deliver.
  destruct (h w) as [u w'|e w']; exact K.
Qed.

Lemma dispatch_keydown_view key ls w :
  one_view w -> one_view (dispatch_keydown key ls w).
Proof.
  revert w. induction ls as [|h rest IH]; intros w H; cbn; [exact H|].
  apply IH. destruct (existsb _ _); [|exact H].
  apply deliver_view; [apply keeps_view_keyHandler_body | exact H].
Qed.

Lemma on_item_view k f w :
  (forall it, click_index (f it) = click_index it) ->
  one_view w -> one_view (on_item k f w).
Proof.
  intros Hf (S & V). split; [now apply on_item_one|].
  unfold on_item. destruct (container w); exact V.
Qed.

Lemma openLightbox_view k w :
  one_session w -> lightboxes w = [] ->
  0 <= k < js_length (images w) -> all_presentable (images w) ->
  one_view (final (openLightbox k w)).
Proof.
  intros S L R N. split; [now apply openLightbox_one|].
  destruct (js_index_in_range _ _ R) as (image & J & I).
  destruct (presentable_fields image (all_presentable_In _ _ N I))
    as (a & b & sa & sb & t & Ha & Hb & Ta & Tb & Tc).
  assert (F : fresh w) by (intros e lb; rewrite L; intros []).
  destruct (openLightbox_complete k w image a b sa sb t F J Ha Hb Ta Tb Tc)
    as (o & -> & Ox & Ol & _ & _ & _ & _ & _ & Oi & _).
  cbn [final]. rewrite Ol, L. cbn [app]. intros e lb [[= <- <-]|[]].
  unfold current_view. rewrite Ox, Oi, J, Ha, Hb, Ta, Tb, Tc. reflexivity.
Qed.

Lemma fire_view n w : one_view w -> one_view (fire n w).
Proof.
  intros (S & V). split; [now apply fire_one|].
  unfold fire. destruct (nth_error (timers w) n) as [[d t]|]; [|exact V].
  assert (V0 : forall e lb,
             In (e, lb) (lightboxes (set_timers (remove_nth n (timers w)) w)) ->
             current_view (set_timers (remove_nth n (timers w)) w)
             = Some (view lb)) by exact V.
  revert V0. generalize (set_timers (remove_nth n (timers w)) w) as w0.
  intros w0 V0. destruct t; cbn [run_timer].
  - exact V0.
  - destruct (container w0) as [| | | |g items]; try exact V0.
    destruct (Nat.eqb g gallery); exact V0.
  - cbn [lightboxes set_lightboxes]. intros e lb' I.
    destruct (in_update_lightbox _ _ _ _ _ I) as (lb & Il & [->| ->]);
      exact (V0 e lb Il).
  - cbn [lightboxes set_lightboxes]. intros e lb I.
    apply filter_In in I. exact (V0 e lb (proj1 I)).
Qed.

Lemma step_view ev w :
  one_view w ->
  match ev with ClickItem _ => lightboxes w = [] | _ => True end ->
  one_view (step ev w).
Proof.
  intros H Hc. destruct ev; cbn [step].
  - unfold click_item.
    destruct (container w) as [| | | |gallery items] eqn:C; trivial.
    destruct (nth_error items k) as [it|] eqn:N; trivial.
    pose proof H as ((G & Gn & _) & _).
    assert (R : 0 <= click_index it < js_length (images w)).
    { specialize (G gallery items C). rewrite Forall_forall in G.
      apply G. eapply nth_error_In; eassumption. }
    pose proof (openLightbox_view (click_index it) w (proj1 H) Hc R
                  (Gn gallery items C)) as O.
    unfold deliver. destruct (openLightbox (click_index it) w); exact O.
  - unfold click_lightbox. destruct (find_lightbox _ _); trivial.
    destruct (clicks_wired _); trivial.
    destruct b; apply deliver_view;
      auto using keeps_view_closeLightbox, keeps_view_prevImage,
        keeps_view_nextImage.
  - apply dispatch_keydown_view; trivial.
  - unfold touchstart. destruct (find_lightbox _ _) as [lb|]; trivial.
    destruct (touchStartX lb); trivial.
    apply one_view_touch;
      [intros lb'; split; reflexivity | intros lb'; reflexivity | exact H].
  - unfold touchend. destruct (find_lightbox _ _) as [lb|]; trivial.
    destruct (touchStartX lb); trivial.
    apply deliver_view; trivial. apply keeps_view_handleSwipe.
  - unfold image_load. destruct (find_lightbox _ _) as [lb|]; trivial.
    destruct (img_onload lb); trivial.
    apply one_view_touch;
      [intros lb'; split; reflexivity | intros lb'; reflexivity | exact H].
  - unfold image_error. destruct (find_lightbox _ _) as [lb|]; trivial.
    destruct (img_onerror lb) as [[nm url]|]; trivial.
    apply (one_view_touch
             (set_console (console w ++ [ImageLoadFailed nm url]) w)
             el dimmed_image);
      [intros lb'; split; reflexivity | intros lb'; reflexivity | exact H].
  - now apply fire_view.
  - apply on_item_view; trivial. intros it. unfold intersecting.
    now destruct (thumb_observed it).
  - apply on_item_view; trivial. intros it. unfold thumb_load.
    now destruct (thumb_onload it).
Qed.

Lemma run_view evs : forall w,
  one_view w -> from_closed evs w -> one_view (run evs w).
Proof.
  unfold run. induction evs as [|ev rest IH]; intros w H F; cbn; [exact H|].
  destruct F as (Fc & Fr). apply IH; [now apply step_view | exact Fr].
Qed.

Lemma TattooGallery_lightboxes el net page w :
  TattooGallery el net page = ArrayImages w -> lightboxes w = lightboxes page.
Proof.
  unfold TattooGallery. destruct (falsy_string _).
  - now intros [= <-].
  - intros T. apply init_state in T. now destruct T as (-> & _).
Qed.

(** X7.  The lightbox presents the current image.  On a page that had no
    lightbox when the gallery was constructed, after any sequence of clicks,
    keys, swipes, image events and timeouts in which a grid item is
    activated only while no lightbox element is in the document, every
    lightbox element of the document has, for the image at
    [currentImageIndex]: the source [<base>/image/<id>?size=s2000], the
    image's [name] as alternative text and caption, the counter
    "index+1 / N", and load and error handlers, the latter bound to that
    name and URL.  In
    particular the current index is then one at which the array has an
    element that is not [null]. *)
Theorem lightbox_presents_the_current_image
  (el : ContainerElement) (net : Network) (page w : World)
  (evs : list Event) (e : nat) (lb : Lightbox) :
  lightboxes page = [] ->
  TattooGallery el net page = ArrayImages w ->
  from_closed evs w ->
  In (e, lb) (lightboxes (run evs w)) ->
  current_view (run evs w) = Some (view lb) /\
  exists image,
    js_index (images (run evs w)) (currentImageIndex (run evs w)) = Some image
    /\ image <> JNull.
Proof.
  intros L T F I.
  assert (V : one_view w).
  { apply one_view_closed; [now apply (TattooGallery_one el net page)|].
    now rewrite (TattooGallery_lightboxes _ _ _ _ T). }
  pose proof (run_view evs w V F) as (_ & Vr).
  pose proof (Vr e lb I) as D. split; [exact D|].
  unfold current_view in D.
  destruct (js_index _ _) as [image|]; [|discriminate].
  exists image. split; [reflexivity|]. intros ->. discriminate.
Qed.

Lemma one_view_run el net page w evs :
  lightboxes page = [] ->
  TattooGallery el net page = ArrayImages w ->
  from_closed evs w ->
  one_view (run evs w).
Proof.
  intros L T F. apply run_view; [|exact F].
  apply one_view_closed; [now apply (TattooGallery_one el net page)|].
  now rewrite (TattooGallery_lightboxes _ _ _ _ T).
Qed.

(** X13.  Image events leave the session as it is.  In the states of X7,
    for the lightbox element of the document: when its image fails to load,
    exactly one entry is logged, with the [name] of the current image and the
    URL that was requested, the image is dimmed to opacity 0.3, and neither
    the index nor what the element presents nor its buttons change, so that
    navigation goes on as before; when its image loads, the opacity becomes 1
    with a 0.3 s transition and nothing else changes. *)
Theorem image_events_leave_the_session
  (el : ContainerElement) (net : Network) (page w : World)
  (evs : list Event) (e : nat) (lb : Lightbox) :
  lightboxes page = [] ->
  TattooGallery el net page = ArrayImages w ->
  from_closed evs w ->
  In (e, lb) (lightboxes (run evs w)) ->
  let now := run evs w in
  exists image_name,
    template image_name = Some (img_alt lb) /\
    console (image_error e now)
    = (console now ++ [ImageLoadFailed image_name (img_src lb)])%list /\
    lightboxes (image_error e now) = [(e, dimmed_image lb)] /\
    img_opacity (dimmed_image lb) = "0.3" /\
    lightboxes (image_load e now) = [(e, loaded_image lb)] /\
    img_opacity (loaded_image lb) = "1" /\
    console (image_load e now) = console now /\
    currentImageIndex (image_error e now) = currentImageIndex now /\
    currentImageIndex (image_load e now) = currentImageIndex now /\
    one_view (image_error e now) /\ one_view (image_load e now) /\
    view (dimmed_image lb) = view lb /\ view (loaded_image lb) = view lb.
Proof.
  intros L T F I now.
  pose proof (one_view_run el net page w evs L T F) as V. fold now in V, I.
  pose proof (step_view (ImageError e) now V Logic.I) as VE.
  pose proof (step_view (ImageLoad e) now V Logic.I) as VL.
  cbn [step] in VE, VL.
  destruct V as ((_ & _ & [E|(e' & lb' & Ll & _)]) & Vw).
  { rewrite E in I. destruct I. }
  pose proof (Vw e lb I) as D.
  rewrite Ll in I. destruct I as [[= -> ->]|[]].
  unfold current_view in D.
  destruct (get_field "id" _) as [a|]; [|discriminate].
  destruct (get_field "name" _) as [b|]; [|discriminate].
  destruct (template a) as [sa|]; [|discriminate].
  destruct (template b) as [sb|] eqn:Tb; [|discriminate].
  destruct (text_content b) as [t|]; [|discriminate].
  assert (Halt : sb = img_alt lb) by (injection D; congruence).
  assert (Herr : img_onerror lb = Some (b, img_src lb))
    by (injection D; congruence).
  assert (Hload : img_onload lb = true) by (injection D; congruence).
  clear D.
  assert (EE : image_error e now
               = set_lightboxes [(e, dimmed_image lb)]
                   (set_console
                      (console now ++ [ImageLoadFailed b (img_src lb)]) now)).
  { unfold image_error. rewrite Ll. cbn [find_lightbox].
    rewrite Nat.eqb_refl, Herr. cbn [update_lightbox].
    now rewrite Nat.eqb_refl. }
  assert (EL : image_load e now = set_lightboxes [(e, loaded_image lb)] now).
  { unfold image_load. rewrite Ll. cbn [find_lightbox].
    rewrite Nat.eqb_refl, Hload. cbn [update_lightbox].
    now rewrite Nat.eqb_refl. }
  exists b.
  split; [now rewrite <- Halt|].
  split; [now rewrite EE|]. split; [now rewrite EE|].
  split; [reflexivity|].
  split; [now rewrite EL|]. split; [reflexivity|].
  split; [now rewrite EL|]. split; [now rewrite EE|].
  split; [now rewrite EL|].
  split; [exact VE|]. split; [exact VL|]. split; reflexivity.
Qed.

(** ** Fetching and initialising, the other outcomes *)

(** X8.  [fetchImages] issues exactly one request, to
    [<apiUrl>/<folderId>], whatever the answer and however it completes, and
    changes nothing else: it never retries.  It returns normally only for a
    response with a success status whose body parses to a value other than
    [null] with an absent or falsy [error], and then returns that value; a
    rejected [fetch] and a [null] body end in a TypeError, a body that does
    not parse in a SyntaxError. *)
Theorem fetchImages_requests_once (net : Network) (w : World) :
  final (fetchImages net w) = requested w /\
  requests (final (fetchImages net w))
  = (requests w
     ++ [(CONFIG.apiUrl ++ "/" ++ template_folder (folderId w))%string])%list /\
  (forall data w', fetchImages net w = Ok data w' ->
     data <> JNull /\
     exists r err,
       net (endpoint w) = Responded r /\ ok r = true /\ body r = Some data /\
       get_field "error" (Some data) = Some err /\ truthy err = false) /\
  (net (endpoint w) = NetworkFailure ->
     fetchImages net w = Raise TypeError (requested w)) /\
  (forall r, net (endpoint w) = Responded r -> ok r = true ->
     (body r = None -> fetchImages net w = Raise SyntaxError (requested w)) /\
     (body r = Some JNull ->
        fetchImages net w = Raise TypeError (requested w))).
Proof.
  split; [apply fetchImages_state|].
  split; [rewrite fetchImages_state; reflexivity|].
  rewrite fetchImages_run. split; [|split].
  - intros data w'.
    destruct (net (endpoint w)) as [|r]; [discriminate|].
    destruct (ok r) eqn:O; cbn [negb]; [|discriminate].
    destruct (body r) as [d|] eqn:B; [|discriminate].
    destruct (get_field "error" (Some d)) as [err|] eqn:E; [|discriminate].
    destruct (truthy err) eqn:T.
    + destruct (get_field "message" (Some d)); discriminate.
    + intros [= <- _]. split.
      * intros ->. discriminate E.
      * exists r, err. auto.
  - now intros ->.
  - intros r -> O. rewrite O. cbn [negb]. split; now intros ->.
Qed.

Lemma forEach_null imgs : forall index w,
  In JNull imgs -> forEach_createImageItem imgs index w = Raise TypeError w.
Proof.
  intros index w I. apply forEach_unpresentable.
  destruct (forallb presentable imgs) eqn:P; [|reflexivity].
  rewrite forallb_forall in P. discriminate (P JNull I).
Qed.

Lemma createImageItem_waiting image index w item w' :
  createImageItem image index w = Ok item w' ->
  thumb_src item = None /\ thumb_lazy item = true /\
  thumb_loaded item = false /\ item_visible item = false.
Proof.
  rewrite createImageItem_run. repeat (break_match; try discriminate).
  intros [= <- _]. repeat split.
Qed.

Lemma forEach_waiting imgs : forall index w items w',
  forEach_createImageItem imgs index w = Ok items w' ->
  Forall waiting (map observe items).
Proof.
  induction imgs as [|image rest IH]; intros index w items w'; cbn.
  - intros [= <- _]. constructor.
  - unfold bind.
    destruct (createImageItem image index w) as [item w1|e w1] eqn:C;
      [|discriminate].
    destruct (forEach_createImageItem rest (index + 1) w1) as [its w2|e w2] eqn:F;
      [|discriminate].
    intros [= <- _]. cbn [map]. constructor; [|eapply IH; eassumption].
    apply createImageItem_waiting in C. destruct C as (A & B & C & D).
    unfold waiting, observe. rewrite B. cbn. auto.
Qed.

(** What the [try] block of [init] and its handler leave, once
    [fetchImages] has returned the array [imgs]. *)
Lemma init_try_frame imgs w :
  let w' := final (try_catch (init_try imgs) init_catch w) in
  folderId w' = folderId w /\ columns w' = columns w /\
  keyHandler w' = keyHandler w /\
  currentImageIndex w' = currentImageIndex w /\
  lightboxes w' = lightboxes w /\ keydown w' = keydown w /\
  overflow w' = overflow w /\ (nextId w <= nextId w')%nat /\
  requests w' = requests w /\ calls w' = calls w /\ images w' = imgs /\
  ((container w' = ErrorBox generic_message /\
    console w' = (console w ++ [GalleryError TypeError])%list /\
    timers w' = timers w) \/
   (container w' = EmptyBox /\ imgs = [] /\
    console w' = console w /\ timers w' = timers w) \/
   (exists items,
      container w' = Grid (nextId w) items /\
      List.length items = List.length imgs /\
      imgs <> [] /\ all_presentable imgs /\
      Forall waiting items /\
      console w' = console w /\
      timers w'
      = (timers w ++ [(10, RevealGrid (nextId w) (List.length items))])%list)).
Proof.
  unfold try_catch. rewrite init_try_run. cbv zeta.
  unfold init_catch, showError. unfold_monad.
  destruct (Z.eqb_spec (js_length imgs) 0) as [Z|NZ]; cbn.
  - frame_fields. right. left.
    split; [reflexivity|]. split; [|split; reflexivity].
    destruct imgs; [reflexivity | discriminate].
  - match goal with
    | |- context [forEach_createImageItem imgs 0 ?w0] =>
        pose proof (forEach_items imgs 0 w0) as It;
        pose proof (forEach_presentable imgs 0 w0) as Nn;
        pose proof (forEach_waiting imgs 0 w0) as Wt;
        destruct (forEach_createImageItem imgs 0 w0) as [items w1|e w1] eqn:FE
    end; cbn.
    + frame_fields. right. right.
      exists (map observe items). split; [reflexivity|].
      split; [rewrite length_map; now destruct (It items _ eq_refl)|].
      split; [intros ->; now apply NZ|].
      split; [eapply Nn; reflexivity|].
      split; [eapply Wt; reflexivity|].
      split; [reflexivity|]. now rewrite length_map.
    + frame_fields. left.
      split; [reflexivity|]. split; [|reflexivity].
      destruct (forallb presentable imgs) eqn:P.
      * match type of FE with
        | forEach_createImageItem imgs 0 ?w0 = _ =>
            destruct (forEach_ok imgs 0 w0 P) as (items & FO)
        end.
        rewrite FO in FE. discriminate.
      * match type of FE with
        | forEach_createImageItem imgs 0 ?w0 = _ =>
            rewrite (forEach_unpresentable imgs 0 w0 P) in FE
        end.
        now injection FE as <- _.
Qed.

(** What [init] leaves of the instance and the document, and where it
    ends, whatever the network answers. *)
Lemma init_frame net w :
  let w' := state_of (init net w) in
  folderId w' = folderId w /\ columns w' = columns w /\
  keyHandler w' = keyHandler w /\
  currentImageIndex w' = currentImageIndex w /\
  lightboxes w' = lightboxes w /\ keydown w' = keydown w /\
  overflow w' = overflow w /\ (nextId w <= nextId w')%nat /\
  requests w' = (requests w ++ [endpoint w])%list /\
  calls w' = (calls w ++ [CallInit])%list /\
  ((container w' = ErrorBox generic_message /\
    (exists e, console w' = (console w ++ [GalleryError e])%list) /\
    timers w' = timers w) \/
   (container w' = EmptyBox /\
    length_is_zero (held (init net w)) = Some true /\
    console w' = console w /\ timers w' = timers w) \/
   (exists items,
      init net w = ArrayImages w' /\
      container w' = Grid (nextId w) items /\
      List.length items = List.length (images w') /\
      images w' <> [] /\ all_presentable (images w') /\
      Forall waiting items /\
      console w' = console w /\
      timers w'
      = (timers w ++ [(10, RevealGrid (nextId w) (List.length items))])%list)).
Proof.
  unfold init. fold (loading w).
  pose proof (fetchImages_state net (loading w)) as S.
  destruct (fetchImages net (loading w)) as [data w1|e w1]; cbn in S; subst w1.
  - assert (Other : forall d, is_array d = false ->
      let w' := final (try_catch (init_try_other d) init_catch
                         (requested (loading w))) in
      folderId w' = folderId w /\ columns w' = columns w /\
      keyHandler w' = keyHandler w /\
      currentImageIndex w' = currentImageIndex w /\
      lightboxes w' = lightboxes w /\ keydown w' = keydown w /\
      overflow w' = overflow w /\ (nextId w <= nextId w')%nat /\
      requests w' = (requests w ++ [endpoint w])%list /\
      calls w' = (calls w ++ [CallInit])%list /\
      ((container w' = ErrorBox generic_message /\
        (exists e, console w' = (console w ++ [GalleryError e])%list) /\
        timers w' = timers w) \/
       (container w' = EmptyBox /\
        length_is_zero d = Some true /\
        console w' = console w /\ timers w' = timers w) \/
       (exists items,
          OtherImages d w' = ArrayImages w' /\
          container w' = Grid (nextId w) items /\
          List.length items = List.length (images w') /\
          images w' <> [] /\ all_presentable (images w') /\
          Forall waiting items /\
          console w' = console w /\
          timers w'
          = (timers w
               ++ [(10, RevealGrid (nextId w) (List.length items))])%list))).
    { intros d _. cbv zeta. rewrite init_try_other_run.
      destruct (length_is_zero d) as [[|]|]; cbn;
        frame_fields.
      - right. left. repeat split.
      - left. split; [reflexivity|]. split; [eexists|]; reflexivity.
      - left. split; [reflexivity|]. split; [eexists|]; reflexivity. }
    destruct data as [| | | |imgs|]; try (apply Other; reflexivity).
    cbn [state_of held].
    match goal with
    | |- context [try_catch (init_try imgs) init_catch ?w0] =>
        pose proof (init_try_frame imgs w0) as T
    end.
    cbv zeta in T.
    destruct T as (A1 & A2 & A3 & A4 & A5 & A6 & A7 & A8 & A9 & A10 & A11 & E).
    repeat (split; [assumption|]).
    destruct E as [(C & Co & Ti)|[(C & Em & Co & Ti)|(items & C & Le & Ne & Pr & Wa & Co & Ti)]].
    + left. split; [exact C|]. split; [exists TypeError; exact Co | exact Ti].
    + right. left. split; [exact C|]. rewrite A11. subst imgs.
      split; [reflexivity|]. split; [exact Co | exact Ti].
    + right. right. exists items. rewrite A11.
      split; [reflexivity|]. split; [exact C|]. split; [exact Le|].
      split; [exact Ne|]. split; [exact Pr|]. split; [exact Wa|].
      split; [exact Co | exact Ti].
  - cbn [state_of held]. unfold init_catch, showError. unfold_monad. cbn.
    frame_fields. left.
    split; [reflexivity|]. split; [now exists e | reflexivity].
Qed.

(** X9.  [init] never leaves the container in the loading state, whatever
    the network answers.  When it is over the container shows either the
    fixed error message, with exactly one exception logged, or the empty
    state, when what [images] holds has length 0 (the empty array, and also
    the empty string or an object whose [length] is 0, which [init] stores
    as they are), or a grid, then with one item per image of a non-empty
    array of presentable elements, each thumbnail still without [src],
    observed for lazy loading, and one reveal timeout set for the gallery
    element.  In every case exactly one request was issued, and the index,
    the key handler and the document's lightboxes, listeners and overflow
    are untouched. *)
Theorem init_ends_in_error_empty_or_grid (net : Network) (w : World) :
  let w' := state_of (init net w) in
  requests w' = (requests w ++ [endpoint w])%list /\
  currentImageIndex w' = currentImageIndex w /\
  keyHandler w' = keyHandler w /\
  lightboxes w' = lightboxes w /\ keydown w' = keydown w /\
  overflow w' = overflow w /\
  container w' <> LoadingBox /\
  ((container w' = ErrorBox generic_message /\
    (exists e, console w' = (console w ++ [GalleryError e])%list) /\
    timers w' = timers w) \/
   (container w' = EmptyBox /\
    length_is_zero (held (init net w)) = Some true /\
    console w' = console w /\ timers w' = timers w) \/
   (exists items,
      init net w = ArrayImages w' /\
      container w' = Grid (nextId w) items /\
      List.length items = List.length (images w') /\
      images w' <> [] /\ all_presentable (images w') /\
      Forall waiting items /\
      console w' = console w /\
      timers w'
      = (timers w ++ [(10, RevealGrid (nextId w) (List.length items))])%list)) /\
  (container w' = EmptyBox ->
   forall imgs, held (init net w) = JArr imgs -> imgs = []).
Proof.
  destruct (init_frame net w)
    as (_ & _ & Kh & X & L & Kd & O & _ & R & _ & E).
  cbv zeta. repeat (split; [assumption|]).
  split; [|split; [exact E|]].
  - destruct E as [(-> & _)|[(-> & _)|(items & _ & -> & _)]]; discriminate.
  - intros C imgs H.
    destruct E as [(C' & _)|[(_ & Z & _)|(items & _ & C' & _)]];
      try congruence.
    rewrite H in Z. cbn in Z. destruct imgs; [reflexivity | discriminate].
Qed.

(** X10.  An array with a [null] element.  When [fetchImages] returns an
    array in which some element is [null], [renderGallery] throws a
    TypeError while it builds the items, before it touches the container: no
    grid, not even a partial one, is shown, and of the state only the
    identity given to the gallery element it created is used up.  [init]
    catches it: the
    container shows the fixed error message, the TypeError is logged, no
    timeout is set; the array has been stored in [images] all the same. *)
Theorem init_with_null_element_shows_error
  (net : Network) (w w1 : World) (imgs : list json) :
  fetchImages net (loading w) = Ok (JArr imgs) w1 ->
  In JNull imgs ->
  renderGallery (set_images imgs w1)
  = Raise TypeError (set_nextId (S (nextId w1)) (set_images imgs w1)) /\
  exists w',
    init net w = ArrayImages w' /\
    container w' = ErrorBox generic_message /\
    console w' = (console w ++ [GalleryError TypeError])%list /\
    images w' = imgs /\
    timers w' = timers w.
Proof.
  intros F I.
  assert (R : renderGallery (set_images imgs w1)
              = Raise TypeError
                  (set_nextId (S (nextId w1)) (set_images imgs w1))).
  { rewrite renderGallery_run. cbv zeta.
    change (images (set_images imgs w1)) with imgs.
    now rewrite (forEach_null imgs 0 _ I). }
  split; [exact R|].
  unfold init. fold (loading w). rewrite F.
  assert (T : final (try_catch (init_try imgs) init_catch w1)
              = set_container (ErrorBox generic_message)
                  (set_console (console w1 ++ [GalleryError TypeError])
                     (set_nextId (S (nextId w1)) (set_images imgs w1)))).
  { unfold try_catch. rewrite init_try_run. cbv zeta.
    destruct (Z.eqb_spec (js_length imgs) 0) as [Z|NZ].
    { destruct imgs; [destruct I | discriminate]. }
    now rewrite (forEach_null imgs 0 _ I). }
  rewrite T.
  pose proof (fetchImages_state net (loading w)) as S. rewrite F in S.
  cbn in S. subst w1. eexists. split; [reflexivity|].
  cbn. repeat split.
Qed.

(** X11.  The constructor.  An empty [data-folder-id] is treated like a
    missing one: the error "Missing data-folder-id attribute" is shown and no
    request is issued.  With a non-empty folder id exactly one request goes
    to [<apiUrl>/<folderId>].  In both cases [columns] is never 0 (it is the
    number parsed from [data-columns] unless that is 0 or not a number, then
    3), the index is 0, no key handler is set, and the document's
    lightboxes, keydown listeners and overflow are left as they were. *)
Theorem constructor_reads_its_attributes
  (el : ContainerElement) (net : Network) (page : World) :
  let w := state_of (TattooGallery el net page) in
  folderId w = dataset_folderId el /\
  columns w <> 0 /\
  (forall n, dataset_columns el = Some n -> n <> 0 -> columns w = n) /\
  (dataset_columns el = None \/ dataset_columns el = Some 0 ->
   columns w = 3) /\
  currentImageIndex w = 0 /\ keyHandler w = None /\
  lightboxes w = lightboxes page /\ keydown w = keydown page /\
  overflow w = overflow page /\
  (dataset_folderId el = None \/ dataset_folderId el = Some "" ->
   container w = ErrorBox "Missing data-folder-id attribute" /\
   requests w = requests page /\ calls w = calls page) /\
  (forall folder, dataset_folderId el = Some folder -> folder <> "" ->
   requests w
   = (requests page ++ [(CONFIG.apiUrl ++ "/" ++ folder)%string])%list /\
   calls w = (calls page ++ [CallInit])%list /\
   container w <> LoadingBox /\ container w <> Untouched).
Proof.
  unfold TattooGallery.
  set (cols := match dataset_columns el with
               | Some n => if n =? 0 then CONFIG.defaults_columns else n
               | None => CONFIG.defaults_columns
               end).
  assert (C0 : cols <> 0).
  { unfold cols, CONFIG.defaults_columns.
    destruct (dataset_columns el) as [n|]; [|lia].
    destruct (Z.eqb_spec n 0); lia. }
  assert (C1 : forall n, dataset_columns el = Some n -> n <> 0 -> cols = n).
  { intros n E N. unfold cols. rewrite E.
    destruct (Z.eqb_spec n 0); [contradiction | reflexivity]. }
  assert (C2 : dataset_columns el = None \/ dataset_columns el = Some 0 ->
               cols = 3).
  { unfold cols. intros [-> | ->]; reflexivity. }
  cbn [folderId set_currentImageIndex set_images set_columns set_folderId
       set_keyHandler].
  assert (Missing : forall w0,
            falsy_string (dataset_folderId el) = true ->
            final (showError "Missing data-folder-id attribute"
                     (set_currentImageIndex 0
                        (set_images []
                           (set_columns cols
                              (set_folderId (dataset_folderId el)
                                 (set_keyHandler None page))))))
            = w0 ->
            folderId w0 = dataset_folderId el /\
            columns w0 <> 0 /\
            (forall n, dataset_columns el = Some n -> n <> 0 -> columns w0 = n) /\
            (dataset_columns el = None \/ dataset_columns el = Some 0 ->
             columns w0 = 3) /\
            currentImageIndex w0 = 0 /\ keyHandler w0 = None /\
            lightboxes w0 = lightboxes page /\ keydown w0 = keydown page /\
            overflow w0 = overflow page /\
            (dataset_folderId el = None \/ dataset_folderId el = Some "" ->
             container w0 = ErrorBox "Missing data-folder-id attribute" /\
             requests w0 = requests page /\ calls w0 = calls page) /\
            (forall folder, dataset_folderId el = Some folder -> folder <> "" ->
             requests w0
             = (requests page ++ [(CONFIG.apiUrl ++ "/" ++ folder)%string])%list /\
             calls w0 = (calls page ++ [CallInit])%list /\
             container w0 <> LoadingBox /\ container w0 <> Untouched)).
  { intros w0 Fa <-. cbn.
    split; [reflexivity|]. split; [exact C0|]. split; [exact C1|].
    split; [exact C2|]. repeat (split; [reflexivity|]).
    split; [intros _; repeat split|].
    intros folder E N. rewrite E in Fa. cbn in Fa.
    apply String.eqb_eq in Fa. contradiction. }
  destruct (falsy_string (dataset_folderId el)) eqn:Fa.
  - cbv zeta. cbn [state_of]. now apply Missing.
  - cbv zeta.
    match goal with
    | |- context [init net ?w1] => pose proof (init_frame net w1) as I
    end.
    cbn in I.
    destruct I as (Fo & Co & Kh & X & L & Kd & O & _ & R & Ca & E).
    rewrite Co.
    split; [exact Fo|]. split; [exact C0|]. split; [exact C1|].
    split; [exact C2|]. split; [exact X|]. split; [exact Kh|].
    split; [exact L|]. split; [exact Kd|]. split; [exact O|]. split.
    + intros [H|H]; rewrite H in Fa; discriminate Fa.
    + intros folder H N. split; [|split; [exact Ca|]].
      * rewrite R. unfold endpoint. cbn. now rewrite H.
      * split; destruct E as [(-> & _)|[(-> & _)|(items & _ & -> & _)]];
          discriminate.
Qed.

(** ** Lazy loading *)

Lemma nth_error_update_nth {A} (f : A -> A) (l : list A) : forall k x,
  nth_error l k = Some x -> nth_error (update_nth k f l) k = Some (f x).
Proof.
  induction l as [|y rest IH]; intros [|k] x; cbn; try discriminate.
  - now intros [= ->].
  - apply IH.
Qed.

Lemma nth_error_update_nth_other {A} (f : A -> A) (l : list A) : forall k j,
  j <> k -> nth_error (update_nth k f l) j = nth_error l j.
Proof.
  induction l as [|y rest IH]; intros [|k] [|j] H; cbn; try reflexivity.
  - contradiction.
  - apply IH. congruence.
Qed.

Lemma update_nth_twice {A} (f : A -> A) (l : list A) : forall k,
  (forall x, f (f x) = f x) ->
  update_nth k f (update_nth k f l) = update_nth k f l.
Proof.
  induction l as [|y rest IH]; intros [|k] H; cbn; try reflexivity.
  - now rewrite H.
  - now rewrite IH.
Qed.

Lemma update_nth_fixed {A} (f : A -> A) (l : list A) : forall k,
  Forall (fun x => f x = x) l -> update_nth k f l = l.
Proof.
  induction l as [|y rest IH]; intros [|k] H; cbn; try reflexivity;
    inversion H; subst.
  - congruence.
  - now rewrite IH.
Qed.

Lemma intersecting_once it : intersecting (intersecting it) = intersecting it.
Proof.
  unfold intersecting. destruct (thumb_observed it) eqn:O; cbn; [reflexivity|].
  now rewrite O.
Qed.

Lemma set_container_same w : set_container (container w) w = w.
Proof. now destruct w. Qed.

Lemma init_descriptors net w w1 w' ims :
  fetchImages net (loading w) = Ok (JArr (map descriptor ims)) w1 ->
  ims <> [] ->
  init net w = ArrayImages w' ->
  container w' = Grid (nextId w) (map observe (thumbnails ims 0)).
Proof.
  intros F N. unfold init. fold (loading w). rewrite F. intros [= <-].
  pose proof (fetchImages_state net (loading w)) as S. rewrite F in S.
  cbn [final] in S. subst w1.
  unfold try_catch. rewrite init_try_run. cbv zeta.
  destruct (Z.eqb_spec (js_length (map descriptor ims)) 0) as [Z|NZ].
  { destruct ims; [contradiction | discriminate]. }
  now rewrite forEach_descriptors.
Qed.

(** X12.  Lazy loading of the thumbnails.  After [init] has rendered the
    descriptors [ims], the [k]-th thumbnail has no [src]: nothing is
    requested for it, and a load event on it does nothing.  When it comes
    near the viewport it gets as [src] the 800-pixel proxy URL of its image,
    loses the class [tg-lazy] and is no longer observed, and no other
    thumbnail changes; a second intersection changes nothing at all, so the
    image is requested once.  Its load event then marks it loaded. *)
Theorem thumbnails_load_once_when_they_intersect
  (net : Network) (w0 w1 w : World) (ims : list Image) (k : nat) (im : Image) :
  fetchImages net (loading w0) = Ok (JArr (map descriptor ims)) w1 ->
  init net w0 = ArrayImages w ->
  nth_error ims k = Some im ->
  let seen := step (Intersect k) w in
  (exists it, nth_error (grid_items w) k = Some it /\
              thumb_src it = None /\ thumb_observed it = true /\
              thumb_data_src it
              = image_base ++ "/image/" ++ id im ++ "?size=s800") /\
  step (ThumbLoad k) w = w /\
  nth_error (grid_items seen) k
  = Some (requested_thumbnail im (Z.of_nat k)) /\
  (forall j, j <> k ->
     nth_error (grid_items seen) j = nth_error (grid_items w) j) /\
  step (Intersect k) seen = seen /\
  (exists it, nth_error (grid_items (step (ThumbLoad k) seen)) k = Some it /\
              thumb_loaded it = true /\
              thumb_src it = thumb_src (requested_thumbnail im (Z.of_nat k))).
Proof.
  intros F I Hk.
  assert (N : ims <> []) by (intros ->; destruct k; discriminate).
  pose proof (init_descriptors net w0 w1 w ims F N I) as C.
  assert (G : nth_error (map observe (thumbnails ims 0)) k
              = Some (observe (thumbnail im (Z.of_nat k)))).
  { rewrite nth_error_map, thumbnails_nth, Hk. reflexivity. }
  cbv zeta. unfold step, on_item, grid_items. rewrite C.
  cbn [container set_container].
  split; [eexists; split; [exact G|]; repeat split|].
  split.
  { rewrite update_nth_fixed; [rewrite <- C; apply set_container_same|].
    apply Forall_forall. intros it Hin. apply in_map_iff in Hin.
    destruct Hin as (x & <- & Hx). clear - Hx.
    assert (O : thumb_onload x = false).
    { revert Hx. generalize 0. induction ims as [|i rest IH]; cbn; [tauto|].
      intros z [<-|H]; [reflexivity | eapply IH; eassumption]. }
    unfold thumb_load, observe. destruct (thumb_lazy x); cbn; now rewrite O. }
  split; [rewrite (nth_error_update_nth _ _ _ _ G); reflexivity|].
  split; [intros j Hj; now apply nth_error_update_nth_other|].
  split.
  { rewrite update_nth_twice by apply intersecting_once. reflexivity. }
  eexists. split.
  - apply nth_error_update_nth. apply nth_error_update_nth. exact G.
  - split; reflexivity.
Qed.

(** ** Listeners over open and close cycles *)

Lemma tidy_transfer w w' :
  tidy w ->
  nextId w' = nextId w -> keydown w' = keydown w ->
  keyHandler w' = keyHandler w -> timers w' = timers w ->
  map fst (lightboxes w') = map fst (lightboxes w) ->
  tidy w'.
Proof.
  unfold tidy, pending_removal. intros H En Ek Eh Et El.
  now rewrite En, Ek, Eh, Et, El.
Qed.

Lemma keeps_tidy_nextImage : keeps tidy nextImage.
Proof.
  intros w H. destruct (nextImage_frame w) as (L & -> & E).
  apply (tidy_transfer w); trivial.
Qed.

Lemma keeps_tidy_prevImage : keeps tidy prevImage.
Proof.
  intros w H. destruct (prevImage_frame w) as (L & -> & E).
  apply (tidy_transfer w); trivial.
Qed.

Lemma removeEventListener_nil h : removeEventListener h [] = [].
Proof. now destruct h. Qed.

Lemma closeLightbox_absent w :
  lightboxes w = [] -> closeLightbox w = Ok tt w.
Proof.
  intros L. unfold closeLightbox. unfold_monad.
  unfold querySelector_lightbox. now rewrite L.
Qed.

Lemma keeps_tidy_closeLightbox : keeps tidy closeLightbox.
Proof.
  intros w (K1 & K2 & K3).
  destruct (lightboxes w) as [|[e lb] rest] eqn:L.
  - rewrite (closeLightbox_absent w L). cbn [final].
    unfold tidy. now rewrite L.
  - rewrite (closeLightbox_head w e lb rest L). cbn [final].
    unfold tidy, pending_removal.
    cbn [nextId lightboxes keydown keyHandler timers set_timers set_overflow
         set_keydown set_lightboxes map fst].
    split; [exact K1|]. split.
    + intros el. rewrite map_app, in_app_iff. cbn [map snd In].
      intros [H|[[= <-]|[]]]; [now apply K2|].
      now inversion K1.
    + left. destruct K3 as [->|(h & el & -> & -> & _)].
      * apply removeEventListener_nil.
      * cbn. now rewrite Nat.eqb_refl.
Qed.

Lemma keeps_tidy_keyHandler_body key : keeps tidy (keyHandler_body key).
Proof.
  unfold keyHandler_body.
  repeat (apply keeps_bind; [|intros _]);
    apply keeps_if;
    auto using keeps_ret, keeps_tidy_closeLightbox, keeps_tidy_prevImage,
      keeps_tidy_nextImage.
Qed.

Lemma keeps_tidy_handleSwipe startX endX :
  keeps tidy (handleSwipe startX endX).
Proof.
  unfold handleSwipe.
  repeat apply keeps_if;
    auto using keeps_ret, keeps_tidy_prevImage, keeps_tidy_nextImage.
Qed.

Lemma deliver_tidy (h : M unit) w :
  keeps tidy h -> tidy w -> tidy (deliver h w).
Proof.
  intros K H. specialize (K w H). unfold deliver.
  destruct (h w) as [u w'|e w']; exact K.
Qed.

Lemma dispatch_keydown_tidy key ls w :
  tidy w -> tidy (dispatch_keydown key ls w).
Proof.
  revert w. induction ls as [|h rest IH]; intros w H; cbn; [exact H|].
  apply IH. destruct (existsb _ _); [|exact H].
  apply deliver_tidy; [apply keeps_tidy_keyHandler_body | exact H].
Qed.

Lemma tidy_touch w el f :
  tidy w -> tidy (set_lightboxes (update_lightbox el f (lightboxes w)) w).
Proof.
  intros H. apply (tidy_transfer w); trivial.
  cbn. apply update_lightbox_ids.
Qed.

Lemma openLightbox_tidy k w :
  tidy w -> lightboxes w = [] -> tidy (final (openLightbox k w)).
Proof.
  intros (K1 & K2 & K3) L.
  assert (Kd : keydown w = []).
  { destruct K3 as [E|(h & el & _ & _ & E & _)]; [exact E|].
    rewrite L in E. discriminate. }
  assert (F : fresh w) by (intros e lb; rewrite L; intros []).
  destruct (openLightbox_outcome k w F)
    as (o & [(-> & lb & Ol & Ok' & Oh & Ot & On)
            |(-> & lb & Ol & Ok' & Oh & Ot & On)]).
  - cbn [final]. unfold tidy, pending_removal.
    rewrite Ol, Ok', Oh, Ot, On, L, Kd. cbn [app map fst].
    split; [constructor; [lia | constructor]|]. split.
    + intros el. rewrite map_app, in_app_iff. cbn [map snd In].
      intros [H|[[=]|[]]]. specialize (K2 el H). lia.
    + right. exists (S (nextId w)), (nextId w). repeat split.
      rewrite map_app, in_app_iff. cbn [map snd In].
      intros [H|[[=]|[]]]. specialize (K2 _ H). lia.
  - cbn [final]. unfold tidy, pending_removal.
    rewrite Ol, Ok', Ot, On, L, Kd. cbn [app map fst].
    split; [constructor; [lia | constructor]|]. split.
    + intros el H. specialize (K2 el H). lia.
    + now left.
Qed.

Lemma In_remove_nth {A} (x : A) (l : list A) : forall n,
  In x (remove_nth n l) -> In x l.
Proof.
  induction l as [|y rest IH]; intros [|n]; cbn; auto.
  intros [H|H]; [now left | right; eapply IH; eassumption].
Qed.

Lemma reveal_timers_no_removal el gallery count : forall i,
  ~ In (RemoveLightbox el) (map snd (reveal_timers gallery i count)).
Proof.
  induction count as [|rest IH]; intros i; cbn; [tauto|].
  intros [H|H]; [discriminate | now apply (IH (S i))].
Qed.

Lemma filter_ids el (l : list (nat * Lightbox)) :
  map fst (filter (fun p => negb (Nat.eqb (fst p) el)) l)
  = filter (fun e => negb (Nat.eqb e el)) (map fst l).
Proof.
  induction l as [|[e lb] rest IH]; cbn; [reflexivity|].
  destruct (negb (Nat.eqb e el)); cbn; now rewrite IH.
Qed.

Lemma fire_tidy n w : tidy w -> tidy (fire n w).
Proof.
  intros H. unfold fire.
  destruct (nth_error (timers w) n) as [[d t]|] eqn:Nt; [|exact H].
  assert (P : forall el, t = RemoveLightbox el -> pending_removal el w).
  { intros el ->. unfold pending_removal. apply in_map_iff.
    exists (d, RemoveLightbox el). split; [reflexivity|].
    eapply nth_error_In; eassumption. }
  assert (Sub : forall el,
            pending_removal el (set_timers (remove_nth n (timers w)) w) ->
            pending_removal el w).
  { unfold pending_removal. cbn [timers set_timers]. intros el Hin.
    apply in_map_iff in Hin. destruct Hin as (x & E & Hin).
    apply in_map_iff. exists x.
    split; [exact E | eapply In_remove_nth; eassumption]. }
  assert (H0 : tidy (set_timers (remove_nth n (timers w)) w)).
  { destruct H as (K1 & K2 & K3). split; [exact K1|].
    split; [intros el Hin; apply K2; now apply Sub|].
    destruct K3 as [E|(h & el & E1 & E2 & E3 & E4)]; [now left|].
    right. exists h, el. repeat split; trivial. intros Hin. apply E4.
    now apply Sub. }
  assert (Ek : keydown (set_timers (remove_nth n (timers w)) w) = keydown w)
    by reflexivity.
  assert (El : lightboxes (set_timers (remove_nth n (timers w)) w)
               = lightboxes w) by reflexivity.
  clear Nt. revert H0 Sub Ek El.
  generalize (set_timers (remove_nth n (timers w)) w) as w0.
  intros w0 H0 Sub Ek El. destruct t; cbn [run_timer].
  - destruct H0 as (K1 & K2 & K3). unfold tidy, pending_removal in *.
    cbn [nextId lightboxes keydown keyHandler timers set_timers].
    generalize (querySelectorAll_items gallery count w0) as c. intros c.
    assert (S : forall el,
              In (RemoveLightbox el)
                 (map snd (timers w0 ++ reveal_timers gallery 0 c)) ->
              In (RemoveLightbox el) (map snd (timers w0))).
    { intros el. rewrite map_app, in_app_iff. intros [Hin|Hin]; [exact Hin|].
      now apply reveal_timers_no_removal in Hin. }
    split; [exact K1|]. split; [intros el Hin; apply K2; now apply S|].
    destruct K3 as [E|(h & el & E1 & E2 & E3 & E4)]; [now left|].
    right. exists h, el. repeat split; trivial. intros Hin. apply E4.
    now apply S.
  - destruct (container w0) as [| | | |g items]; try exact H0.
    destruct (Nat.eqb g gallery); exact H0.
  - now apply tidy_touch.
  - destruct H0 as (K1 & K2 & K3). destruct H as (_ & _ & K3w).
    unfold tidy.
    cbn [nextId lightboxes keydown keyHandler timers set_lightboxes].
    unfold pending_removal at 1 2. cbn [timers set_lightboxes].
    rewrite filter_ids.
    split; [apply Forall_forall; intros e Hin; apply filter_In in Hin;
            rewrite Forall_forall in K1; now apply K1|].
    split; [exact K2|].
    destruct K3 as [E|(h & el' & E1 & E2 & E3 & E4)]; [now left|].
    right. exists h, el'. repeat split; trivial. rewrite E3. cbn [filter].
    assert (Ne : el' <> el).
    { intros ->. destruct K3w as [E|(h' & el'' & _ & _ & E3' & E4')].
      - rewrite Ek in E1. congruence.
      - rewrite El in E3. rewrite E3 in E3'. injection E3' as <-.
        apply E4'. now apply P. }
    destruct (Nat.eqb_spec el' el); [contradiction | reflexivity].
Qed.

Lemma on_item_tidy k f w : tidy w -> tidy (on_item k f w).
Proof. intros H. unfold on_item. destruct (container w); exact H. Qed.

Lemma step_tidy ev w :
  tidy w ->
  match ev with ClickItem _ => lightboxes w = [] | _ => True end ->
  tidy (step ev w).
Proof.
  intros H Hc. destruct ev; cbn [step].
  - unfold click_item.
    destruct (container w) as [| | | |gallery items]; trivial.
    destruct (nth_error items k) as [it|]; trivial.
    pose proof (openLightbox_tidy (click_index it) w H Hc) as O.
    unfold deliver. destruct (openLightbox (click_index it) w); exact O.
  - unfold click_lightbox. destruct (find_lightbox _ _); trivial.
    destruct (clicks_wired _); trivial.
    destruct b; apply deliver_tidy;
      auto using keeps_tidy_closeLightbox, keeps_tidy_prevImage,
        keeps_tidy_nextImage.
  - now apply dispatch_keydown_tidy.
  - unfold touchstart. destruct (find_lightbox _ _) as [lb|]; trivial.
    destruct (touchStartX lb); trivial. now apply tidy_touch.
  - unfold touchend. destruct (find_lightbox _ _) as [lb|]; trivial.
    destruct (touchStartX lb); trivial.
    apply deliver_tidy; trivial. apply keeps_tidy_handleSwipe.
  - unfold image_load. destruct (find_lightbox _ _) as [lb|]; trivial.
    destruct (img_onload lb); trivial. now apply tidy_touch.
  - unfold image_error. destruct (find_lightbox _ _) as [lb|]; trivial.
    destruct (img_onerror lb) as [[nm url]|]; trivial.
    apply (tidy_touch
             (set_console (console w ++ [ImageLoadFailed nm url]) w)
             el dimmed_image).
    exact H.
  - now apply fire_tidy.
  - now apply on_item_tidy.
  - now apply on_item_tidy.
Qed.

Lemma run_tidy evs : forall w,
  tidy w -> from_closed evs w -> tidy (run evs w).
Proof.
  unfold run. induction evs as [|ev rest IH]; intros w H F; cbn; [exact H|].
  destruct F as (Fc & Fr). apply IH; [now apply step_tidy | exact Fr].
Qed.

Lemma TattooGallery_tidy el net page w :
  lightboxes page = [] -> keydown page = [] -> timers page = [] ->
  TattooGallery el net page = ArrayImages w ->
  tidy w.
Proof.
  intros L K T. unfold TattooGallery. destruct (falsy_string _).
  - intros [= <-]. unfold tidy, pending_removal. cbn. rewrite L, K, T.
    split; [constructor|]. split; [intros e0 []|now left].
  - intros I.
    match type of I with
    | init net ?w1 = _ => pose proof (init_frame net w1) as Fr
    end.
    rewrite I in Fr. cbn in Fr.
    destruct Fr as (_ & _ & _ & _ & El & Ek & _ & _ & _ & _ & E).
    unfold tidy, pending_removal. rewrite El, Ek, L, K.
    split; [constructor|]. split; [|now left].
    intros e0.
    destruct E as [(_ & _ & ->)|[(_ & _ & _ & ->)
                  |(items & _ & _ & _ & _ & _ & _ & _ & ->)]];
      rewrite T; cbn; intuition discriminate.
Qed.

(** X14.  Keydown listeners do not pile up over open and close cycles.  On
    a page that had no lightbox, no keydown listener and no pending timeout
    when the gallery was constructed, after any sequence of clicks, keys,
    swipes, image events and timeouts in which a grid item is activated only
    while no lightbox element is in the document: at most one keydown
    listener is registered, it is [this.keyHandler], and none is registered
    when the document holds no lightbox element.  So an arrow key enters its
    navigation method at most once. *)
Theorem listeners_do_not_accumulate
  (el : ContainerElement) (net : Network) (page w : World)
  (evs : list Event) :
  lightboxes page = [] -> keydown page = [] -> timers page = [] ->
  TattooGallery el net page = ArrayImages w ->
  from_closed evs w ->
  let now := run evs w in
  (List.length (keydown now) <= 1)%nat /\
  (forall h, In h (keydown now) -> keyHandler now = Some h) /\
  (lightboxes now = [] -> keydown now = []) /\
  (keydown now <> [] -> List.length (lightboxes now) = 1%nat) /\
  (calls (press "ArrowRight" now) = calls now \/
   calls (press "ArrowRight" now) = (calls now ++ [CallNextImage])%list) /\
  (calls (press "ArrowLeft" now) = calls now \/
   calls (press "ArrowLeft" now) = (calls now ++ [CallPrevImage])%list).
Proof.
  intros L K T C F now.
  pose proof (run_tidy evs w (TattooGallery_tidy el net page w L K T C) F)
    as (_ & _ & K3). fold now in K3.
  destruct (dispatch_ArrowRight (keydown now) now (Forall_In_self _))
    as (_ & Rc & _).
  destruct (dispatch_ArrowLeft (keydown now) now (Forall_In_self _))
    as (_ & Lc & _).
  unfold press. rewrite Rc, Lc.
  destruct K3 as [E|(h & e & E1 & E2 & E3 & _)].
  - rewrite E. cbn. rewrite !app_nil_r.
    split; [lia|]. split; [intros h []|]. split; [reflexivity|].
    split; [intros N; now contradiction N|]. split; now left.
  - rewrite E1. cbn.
    split; [lia|]. split; [intros h' [<-|[]]; exact E2|].
    split; [intros El; rewrite El in E3; discriminate|].
    split; [intros _; rewrite <- (length_map fst), E3; reflexivity|].
    split; now right.
Qed.

(** Outside that protocol they do pile up.  A second grid item activated
    while the first lightbox is open registers a second listener and
    overwrites [this.keyHandler]; each [closeLightbox()] removes
    [this.keyHandler] only, so the listener of the first call stays.  Once
    both elements are closed and removed, no lightbox is in the document, a
    listener is still registered, and ArrowRight still moves the index. *)
Example listener_left_by_a_second_open :
  let w := run [ClickItem 0; ClickItem 0; Press "Escape"; Fire 3;
                Press "Escape"; Fire 3] cat_dog_gallery in
  lightboxes w = [] /\
  keydown w = [2%nat] /\
  keyHandler w = Some 4%nat /\
  currentImageIndex w = 0 /\
  currentImageIndex (press "ArrowRight" w) = 1.
Proof. cbv zeta. repeat split. Qed.

(** ** The staggered reveal of the grid *)

Lemma reveal_timers_seq gallery count : forall i,
  reveal_timers gallery i count
  = map (fun j => (Z.of_nat j * 50, RevealItem gallery j)) (seq i count).
Proof.
  induction count as [|rest IH]; intros i; cbn; [reflexivity|].
  now rewrite IH.
Qed.

Lemma nth_error_update_nth_at {A} (f : A -> A) (l : list A) k j :
  nth_error (update_nth k f l) j
  = if Nat.eqb j k then option_map f (nth_error l j) else nth_error l j.
Proof.
  destruct (Nat.eqb_spec j k) as [->|N].
  - destruct (nth_error l k) as [x|] eqn:E.
    + now apply nth_error_update_nth.
    + cbn. apply nth_error_None. apply nth_error_None in E.
      clear - E. revert k E. induction l as [|y rest IH]; intros [|k] E; cbn in *;
        try lia. specialize (IH k). lia.
  - now apply nth_error_update_nth_other.
Qed.

Lemma reveal_in_order_container gallery order : forall w items,
  container w = Grid gallery items ->
  container (reveal_in_order gallery order w)
  = Grid gallery (fold_left (fun l i => update_nth i reveal l) order items) /\
  timers (reveal_in_order gallery order w) = timers w /\
  lightboxes (reveal_in_order gallery order w) = lightboxes w /\
  images (reveal_in_order gallery order w) = images w.
Proof.
  unfold reveal_in_order.
  induction order as [|i rest IH]; intros w items C; cbn [fold_left].
  - auto.
  - destruct (IH (run_timer (RevealItem gallery i) w)
                (update_nth i reveal items))
      as (A & B & D & E).
    + cbn. rewrite C, Nat.eqb_refl. reflexivity.
    + rewrite A, B, D, E. cbn. rewrite C, Nat.eqb_refl. auto.
Qed.

Lemma reveal_in_order_elsewhere gallery order : forall w,
  (forall items, container w <> Grid gallery items) ->
  reveal_in_order gallery order w = w.
Proof.
  unfold reveal_in_order.
  induction order as [|i rest IH]; intros w C; cbn [fold_left];
    [reflexivity|].
  assert (E : run_timer (RevealItem gallery i) w = w).
  { cbn. destruct (container w) as [| | | |g items] eqn:Cw; try reflexivity.
    destruct (Nat.eqb_spec g gallery) as [->|]; [|reflexivity].
    now contradiction (C items). }
  rewrite E. now apply IH.
Qed.

Lemma nth_error_snoc {A} (l : list A) (a : A) :
  nth_error (l ++ [a]) (List.length l) = Some a.
Proof. induction l; cbn; [reflexivity | exact IHl]. Qed.

Lemma remove_nth_snoc {A} (l : list A) (a : A) :
  remove_nth (List.length l) (l ++ [a]) = l.
Proof. induction l; cbn; [reflexivity | now rewrite IHl]. Qed.

Lemma fold_reveal_nth order : forall items j,
  nth_error (fold_left (fun l i => update_nth i reveal l) order items) j
  = option_map (fun it => if existsb (Nat.eqb j) order then reveal it else it)
      (nth_error items j).
Proof.
  induction order as [|i rest IH]; intros items j; cbn [fold_left existsb].
  - now destruct (nth_error items j).
  - rewrite IH, nth_error_update_nth_at.
    destruct (Nat.eqb j i); destruct (nth_error items j) as [it|]; cbn;
      try reflexivity.
    now destruct (existsb (Nat.eqb j) rest).
Qed.

(** X15.  The staggered reveal of [renderGallery].  When [renderGallery]
    completes it has put its gallery element in the container and set one
    timeout for it.  That timeout, when it runs, sets one timeout per item
    of that gallery, the [i]-th with delay [50 * i] ms.  Each of these marks
    its own item visible and changes nothing else of the grid; whatever the
    order in which they run, and however often, once each has run every
    item is visible, and the thumbnails and the index each item opens are as
    [createImageItem] set them.  The timeouts act on the gallery and the
    items they captured: once the container holds something else (a message,
    or the gallery of a later [renderGallery]), they change nothing of the
    page, and the first still sets one timeout per item of its own
    gallery. *)
Theorem reveal_makes_every_item_visible
  (w0 w : World) (order : list nat) :
  renderGallery w0 = Ok tt w ->
  exists items,
    let gallery := nextId w0 in
    let fired := fire (List.length (timers w0)) w in
    container w = Grid gallery items /\
    timers w
    = (timers w0 ++ [(10, RevealGrid gallery (List.length items))])%list /\
    container fired = Grid gallery items /\
    timers fired
    = (timers w0
       ++ map (fun i => (Z.of_nat i * 50, RevealItem gallery i))
              (seq 0 (List.length items)))%list /\
    ((forall i, (i < List.length items)%nat -> In i order) ->
     container (reveal_in_order gallery order fired)
     = Grid gallery (map reveal items) /\
     Forall (fun it => item_visible it = true) (map reveal items) /\
     map click_index (map reveal items) = map click_index items /\
     map thumb_src (map reveal items) = map thumb_src items /\
     lightboxes (reveal_in_order gallery order fired) = lightboxes w /\
     images (reveal_in_order gallery order fired) = images w) /\
    (forall elsewhere,
       (forall its, container elsewhere <> Grid gallery its) ->
       reveal_in_order gallery order elsewhere = elsewhere /\
       container
         (run_timer (RevealGrid gallery (List.length items)) elsewhere)
       = container elsewhere /\
       timers (run_timer (RevealGrid gallery (List.length items)) elsewhere)
       = (timers elsewhere
          ++ map (fun i => (Z.of_nat i * 50, RevealItem gallery i))
                 (seq 0 (List.length items)))%list).
Proof.
  rewrite renderGallery_run. cbv zeta.
  destruct (forEach_createImageItem _ _ _) as [items w1|e w1]; [|discriminate].
  intros [= <-]. exists items. cbv zeta.
  set (gallery := nextId w0).
  set (w := set_timers _ _).
  assert (Fi : fire (List.length (timers w0)) w
               = set_timers
                   (timers w0 ++ reveal_timers gallery 0 (List.length items))
                   w).
  { unfold fire, w. cbn [timers set_timers].
    rewrite nth_error_snoc, remove_nth_snoc.
    cbn [run_timer]. unfold querySelectorAll_items.
    cbn [container set_timers set_container timers].
    now rewrite Nat.eqb_refl. }
  rewrite Fi.
  split; [reflexivity|]. split; [reflexivity|]. split; [reflexivity|].
  split; [cbn [timers set_timers]; now rewrite reveal_timers_seq|].
  split.
  - intros O.
    match goal with
    | |- context [reveal_in_order gallery order ?f] =>
        destruct (reveal_in_order_container gallery order f items eq_refl)
          as (A & _ & D & E)
    end.
    split.
    { rewrite A. f_equal. apply nth_error_ext. intros j.
      rewrite fold_reveal_nth, nth_error_map.
      destruct (nth_error items j) as [it|] eqn:N; [|reflexivity].
      assert (In j order) as Hin.
      { apply O. apply nth_error_Some. congruence. }
      cbn. now rewrite (existsb_In _ _ Hin). }
    split; [apply Forall_forall; intros it Hin; apply in_map_iff in Hin;
            destruct Hin as (x & <- & _); reflexivity|].
    split; [rewrite map_map; reflexivity|].
    split; [rewrite map_map; reflexivity|].
    split; [exact D | exact E].
  - intros elsewhere C.
    split; [now apply reveal_in_order_elsewhere|].
    split; [reflexivity|].
    cbn [run_timer timers set_timers]. unfold querySelectorAll_items.
    rewrite reveal_timers_seq.
    destruct (container elsewhere) as [| | | |g its] eqn:Ce; try reflexivity.
    destruct (Nat.eqb_spec g gallery) as [->|]; [|reflexivity].
    now contradiction (C its).
Qed.

(** ** Closing before the lightbox was shown *)

Lemma nth_error_last_but_one {A} (l : list A) (a b : A) :
  nth_error (l ++ [a; b]) (List.length l) = Some a.
Proof. induction l; cbn; [reflexivity | exact IHl]. Qed.

(** X16.  [closeLightbox()] does not cancel the timeout by which
    [openLightbox] shows the element.  From the closed state,
    [openLightbox(k)] on the index of a presentable element, followed by
    [closeLightbox()] before that timeout has run, leaves it pending beside
    the removal; when it runs, the element that
    is closing, hidden and without key listener, gets the class
    [tg-lightbox-visible] back, and stays in the document until the removal
    runs. *)
Theorem closing_does_not_cancel_the_show_timeout
  (w : World) (k : Z) (image : json) :
  lightboxes w = [] ->
  Forall (fun h => (h < nextId w)%nat) (keydown w) ->
  js_index (images w) k = Some image ->
  presentable image = true ->
  exists opened closed lb,
    openLightbox k w = Ok tt opened /\
    closeLightbox opened = Ok tt closed /\
    lightboxes closed = [(nextId w, lb)] /\ lb_visible lb = false /\
    nth_error (timers closed) (List.length (timers w))
    = Some (10, ShowLightbox (nextId w)) /\
    lightboxes (fire (List.length (timers w)) closed)
    = [(nextId w, set_visible true lb)] /\
    keydown (fire (List.length (timers w)) closed) = keydown w /\
    pending_removal (nextId w) (fire (List.length (timers w)) closed).
Proof.
  intros L K J P.
  destruct (presentable_fields image P)
    as (a & b & sa & sb & t & Ha & Hb & Ta & Tb & Tc).
  assert (F : fresh w) by (intros e lb; rewrite L; intros []).
  destruct (openLightbox_complete k w image a b sa sb t F J Ha Hb Ta Tb Tc)
    as (o & Eo & Ox & Ol & Okd & Oh & Oo & Ot & _).
  rewrite L in Ol. cbn [app] in Ol.
  pose proof (closeLightbox_head o _ _ _ Ol) as C.
  exists o. eexists. eexists. split; [exact Eo|]. split; [exact C|].
  unfold fire, pending_removal.
  cbn [keydown lightboxes timers set_timers set_overflow set_keydown
       set_lightboxes].
  rewrite Okd, Oh, Ot. cbn [removeEventListener].
  rewrite (filter_below (S (nextId w)) (keydown w))
    by (eapply Forall_impl; [|exact K]; cbn; lia).
  rewrite <- app_assoc. cbn [app]. rewrite nth_error_last_but_one.
  cbn [run_timer lightboxes keydown timers set_timers set_overflow
       set_keydown set_lightboxes].
  rewrite update_lightbox_head.
  split; [reflexivity|]. split; [reflexivity|]. split; [reflexivity|].
  split; [reflexivity|]. split; [reflexivity|].
  apply in_map_iff. exists (300, RemoveLightbox (nextId w)).
  split; [reflexivity|].
  clear. induction (timers w) as [|t rest IH]; cbn; [now left | now right].
Qed.

(** * The further properties on the concrete page *)

Lemma navigation_saturates_witness :
  in_range cat_dog_gallery /\
  currentImageIndex (repeatedly nextImage 5 cat_dog_gallery) = 1 /\
  currentImageIndex (repeatedly prevImage 5 dog_open) = 0.
Proof.
  assert (R0 : in_range cat_dog_gallery) by (unfold in_range; cbn; lia).
  assert (R1 : in_range dog_open) by (unfold in_range; cbn; lia).
  destruct (navigation_saturates cat_dog_gallery 5 R0) as (A & _).
  destruct (navigation_saturates dog_open 5 R1) as (_ & B & _).
  split; [exact R0|]. split; [rewrite A | rewrite B]; reflexivity.
Defined.

Lemma next_and_prev_undo_each_other_witness :
  in_range cat_dog_gallery /\
  currentImageIndex
    (final (prevImage (final (nextImage cat_dog_gallery)))) = 0.
Proof.
  assert (R0 : in_range cat_dog_gallery) by (unfold in_range; cbn; lia).
  split; [exact R0|].
  destruct (next_and_prev_undo_each_other cat_dog_gallery R0) as (A & _).
  rewrite A; [reflexivity | cbn; lia].
Defined.

Lemma keyboard_navigation_witness :
  press "a" dog_open = dog_open /\
  calls (press "ArrowLeft" dog_open) = [CallInit; CallPrevImage] /\
  currentImageIndex (press "ArrowLeft" dog_open) = 0.
Proof.
  destruct (keyboard_navigation dog_open) as (O & _ & L & X & _).
  assert (R1 : in_range dog_open) by (unfold in_range; cbn; lia).
  split; [apply O; discriminate|]. split; [rewrite L; reflexivity|].
  destruct (X R1) as (_ & P). rewrite P. reflexivity.
Defined.

Lemma only_the_first_lightbox_is_touched_witness :
  lightboxes two_open = [(1%nat, first_of_two); (3%nat, second_of_two)] /\
  counter second_of_two = "2 / 2" /\
  (exists lb',
     lightboxes (final (prevImage two_open))
     = [(1%nat, lb'); (3%nat, second_of_two)]) /\
  (exists lb',
     lightboxes (final (closeLightbox two_open))
     = [(1%nat, lb'); (3%nat, second_of_two)]) /\
  (exists lb',
     lightboxes (final (updateLightboxImage None two_open))
     = [(1%nat, lb'); (3%nat, second_of_two)]).
Proof.
  split; [reflexivity|]. split; [reflexivity|].
  destruct (only_the_first_lightbox_is_touched
              two_open 1%nat first_of_two [(3%nat, second_of_two)] eq_refl)
    as (U & _ & P & C).
  split; [exact P|]. split; [exact C | exact U].
Defined.

Lemma openLightbox_with_invalid_index_leaves_inert_element_witness :
  fresh cat_dog_gallery /\
  ~ (0 <= 7 < js_length (images cat_dog_gallery)) /\
  exists w',
    openLightbox 7 cat_dog_gallery = Raise TypeError w' /\
    currentImageIndex w' = 7 /\ overflow w' = "hidden" /\ keydown w' = [].
Proof.
  assert (F : fresh cat_dog_gallery) by (intros e lb []).
  assert (O : ~ (0 <= 7 < js_length (images cat_dog_gallery)))
    by (cbn; lia).
  split; [exact F|]. split; [exact O|].
  destruct (openLightbox_with_invalid_index_leaves_inert_element
              cat_dog_gallery 7 F (or_introl O))
    as (w' & lb & E & X & _ & _ & _ & _ & _ & Ov & K & _).
  exists w'. split; [exact E|]. split; [exact X|]. split; [exact Ov | exact K].
Defined.

Lemma open_then_close_returns_to_closed_witness :
  lightboxes cat_dog_gallery = [] /\
  js_index (images cat_dog_gallery) 1 = Some (descriptor (mkImage "b" "Dog")) /\
  presentable (descriptor (mkImage "b" "Dog")) = true /\
  exists opened closed,
    openLightbox 1 cat_dog_gallery = Ok tt opened /\
    closeLightbox opened = Ok tt closed /\
    keydown closed = [] /\ overflow closed = "" /\
    lightboxes (fire 2 closed) = [].
Proof.
  split; [reflexivity|]. split; [reflexivity|]. split; [reflexivity|].
  destruct (open_then_close_returns_to_closed
              cat_dog_gallery 1 (descriptor (mkImage "b" "Dog"))
              eq_refl (Forall_nil _) eq_refl eq_refl)
    as (o & c & lb & Eo & Ec & _ & _ & K & Ov & _ & _ & _ & _ & Lf & _).
  exists o, c. split; [exact Eo|]. split; [exact Ec|]. split; [exact K|].
  split; [exact Ov | exact Lf].
Defined.

Lemma lightbox_presents_the_current_image_witness :
  from_closed back_to_cat cat_dog_gallery /\
  In (1%nat, cat_lightbox) (lightboxes (run back_to_cat cat_dog_gallery)) /\
  current_view (run back_to_cat cat_dog_gallery) = Some (view cat_lightbox) /\
  caption cat_lightbox = "Cat" /\ counter cat_lightbox = "1 / 2".
Proof.
  assert (F : from_closed back_to_cat cat_dog_gallery)
    by (vm_compute; repeat split).
  assert (I : In (1%nat, cat_lightbox)
                 (lightboxes (run back_to_cat cat_dog_gallery)))
    by (vm_compute; left; reflexivity).
  split; [exact F|]. split; [exact I|].
  split; [|split; reflexivity].
  exact (proj1 (lightbox_presents_the_current_image
                  f1 cat_dog_net blank_page cat_dog_gallery back_to_cat
                  1%nat cat_lightbox eq_refl eq_refl F I)).
Defined.

Lemma image_events_leave_the_session_witness :
  from_closed back_to_cat cat_dog_gallery /\
  In (1%nat, cat_lightbox) (lightboxes (run back_to_cat cat_dog_gallery)) /\
  exists image_name,
    console (image_error 1 (run back_to_cat cat_dog_gallery))
    = (console (run back_to_cat cat_dog_gallery)
       ++ [ImageLoadFailed image_name (img_src cat_lightbox)])%list /\
    currentImageIndex (image_error 1 (run back_to_cat cat_dog_gallery)) = 0.
Proof.
  assert (F : from_closed back_to_cat cat_dog_gallery)
    by (vm_compute; repeat split).
  assert (I : In (1%nat, cat_lightbox)
                 (lightboxes (run back_to_cat cat_dog_gallery)))
    by (vm_compute; left; reflexivity).
  split; [exact F|]. split; [exact I|].
  destruct (image_events_leave_the_session
              f1 cat_dog_net blank_page cat_dog_gallery back_to_cat
              1%nat cat_lightbox eq_refl eq_refl F I)
    as (nm & _ & C & _ & _ & _ & _ & _ & X & _).
  exists nm. split; [exact C|]. rewrite X. reflexivity.
Defined.

Lemma fetchImages_requests_once_witness :
  requests (final (fetchImages (fun _ => NetworkFailure) cat_dog_gallery))
  = [(CONFIG.apiUrl ++ "/F1")%string; (CONFIG.apiUrl ++ "/F1")%string] /\
  fetchImages (fun _ => NetworkFailure) cat_dog_gallery
  = Raise TypeError (requested cat_dog_gallery).
Proof.
  destruct (fetchImages_requests_once (fun _ => NetworkFailure) cat_dog_gallery)
    as (_ & R & _ & N & _).
  split; [rewrite R; reflexivity | exact (N eq_refl)].
Defined.

Lemma init_ends_in_error_empty_or_grid_witness :
  init cat_dog_net blank_page = ArrayImages cat_dog_loaded /\
  requests cat_dog_loaded = [(CONFIG.apiUrl ++ "/undefined")%string] /\
  lightboxes cat_dog_loaded = [] /\
  container
    (state_of
       (init (fun _ => Responded (mkResponse 200 (Some (JStr "abc"))))
          blank_page))
  <> LoadingBox.
Proof.
  split; [reflexivity|].
  destruct (init_ends_in_error_empty_or_grid cat_dog_net blank_page)
    as (R & _ & _ & L & _).
  split; [exact R|]. split; [exact L|].
  destruct (init_ends_in_error_empty_or_grid
              (fun _ => Responded (mkResponse 200 (Some (JStr "abc"))))
              blank_page)
    as (_ & _ & _ & _ & _ & _ & N & _).
  exact N.
Defined.

Lemma init_with_null_element_shows_error_witness :
  fetchImages cat_null_net (loading blank_page)
  = Ok (JArr [descriptor (mkImage "a" "Cat"); JNull])
       (requested (loading blank_page)) /\
  In JNull [descriptor (mkImage "a" "Cat"); JNull] /\
  exists w',
    init cat_null_net blank_page = ArrayImages w' /\
    container w' = ErrorBox generic_message /\
    images w' = [descriptor (mkImage "a" "Cat"); JNull].
Proof.
  assert (I : In JNull [descriptor (mkImage "a" "Cat"); JNull])
    by (right; left; reflexivity).
  split; [reflexivity|]. split; [exact I|].
  destruct (init_with_null_element_shows_error
              cat_null_net blank_page (requested (loading blank_page))
              [descriptor (mkImage "a" "Cat"); JNull] eq_refl I)
    as (_ & w' & E & C & _ & Im & _).
  exists w'. split; [exact E|]. split; [exact C | exact Im].
Defined.

Lemma constructor_reads_its_attributes_witness :
  TattooGallery f1 cat_dog_net blank_page = ArrayImages cat_dog_gallery /\
  columns cat_dog_gallery = 3 /\
  requests cat_dog_gallery = [(CONFIG.apiUrl ++ "/F1")%string].
Proof.
  split; [reflexivity|].
  destruct (constructor_reads_its_attributes f1 cat_dog_net blank_page)
    as (_ & _ & _ & C & _ & _ & _ & _ & _ & _ & R).
  split; [apply C; now left|].
  destruct (R "F1" eq_refl ltac:(discriminate)) as (Rq & _).
  exact Rq.
Defined.

Lemma thumbnails_load_once_when_they_intersect_witness :
  fetchImages cat_dog_net (loading blank_page)
  = Ok (JArr (map descriptor cat_dog)) (requested (loading blank_page)) /\
  init cat_dog_net blank_page = ArrayImages cat_dog_loaded /\
  nth_error cat_dog 1 = Some (mkImage "b" "Dog") /\
  nth_error (grid_items (step (Intersect 1) cat_dog_loaded)) 1
  = Some (requested_thumbnail (mkImage "b" "Dog") 1) /\
  step (Intersect 1) (step (Intersect 1) cat_dog_loaded)
  = step (Intersect 1) cat_dog_loaded.
Proof.
  split; [reflexivity|]. split; [reflexivity|]. split; [reflexivity|].
  destruct (thumbnails_load_once_when_they_intersect
              cat_dog_net blank_page (requested (loading blank_page))
              cat_dog_loaded cat_dog 1 (mkImage "b" "Dog")
              eq_refl eq_refl eq_refl)
    as (_ & _ & A & _ & B & _).
  split; [exact A | exact B].
Defined.

Lemma listeners_do_not_accumulate_witness :
  from_closed back_to_cat cat_dog_gallery /\
  (List.length (keydown (run back_to_cat cat_dog_gallery)) <= 1)%nat /\
  (forall h, In h (keydown (run back_to_cat cat_dog_gallery)) ->
             keyHandler (run back_to_cat cat_dog_gallery) = Some h).
Proof.
  assert (F : from_closed back_to_cat cat_dog_gallery)
    by (vm_compute; repeat split).
  split; [exact F|].
  destruct (listeners_do_not_accumulate
              f1 cat_dog_net blank_page cat_dog_gallery back_to_cat
              eq_refl eq_refl eq_refl eq_refl F) as (A & B & _).
  split; [exact A | exact B].
Defined.

Lemma reveal_makes_every_item_visible_witness :
  exists items,
    renderGallery listed = Ok tt rendered /\
    container rendered = Grid 0 items /\
    timers (fire 0 rendered) = [(0, RevealItem 0 0); (50, RevealItem 0 1)] /\
    container (reveal_in_order 0 [1; 0; 1]%nat (fire 0 rendered))
    = Grid 0 (map reveal items) /\
    reveal_in_order 0 [1; 0; 1]%nat blank_page = blank_page.
Proof.
  assert (R : renderGallery listed = Ok tt rendered) by reflexivity.
  destruct (reveal_makes_every_item_visible listed rendered [1; 0; 1]%nat R)
    as (items & C & T & _ & Tf & V & E).
  exists items. split; [exact R|]. split; [exact C|].
  assert (Len : List.length items = 2%nat).
  { assert (H : timers rendered
                = [(10, RevealGrid 0 2)]) by reflexivity.
    rewrite T in H. cbn in H. now injection H. }
  rewrite Len in Tf. split; [exact Tf|]. split.
  - apply V. rewrite Len. intros i H.
    destruct i as [|[|i]]; [right; left | left | lia]; reflexivity.
  - apply E. intros its. discriminate.
Defined.

Lemma closing_does_not_cancel_the_show_timeout_witness :
  lightboxes cat_dog_gallery = [] /\
  js_index (images cat_dog_gallery) 0 = Some (descriptor (mkImage "a" "Cat")) /\
  presentable (descriptor (mkImage "a" "Cat")) = true /\
  exists opened closed lb,
    openLightbox 0 cat_dog_gallery = Ok tt opened /\
    closeLightbox opened = Ok tt closed /\
    lightboxes closed = [(1%nat, lb)] /\ lb_visible lb = false /\
    lightboxes (fire 1 closed) = [(1%nat, set_visible true lb)].
Proof.
  split; [reflexivity|]. split; [reflexivity|]. split; [reflexivity|].
  destruct (closing_does_not_cancel_the_show_timeout
              cat_dog_gallery 0 (descriptor (mkImage "a" "Cat"))
              eq_refl (Forall_nil _) eq_refl eq_refl)
    as (o & c & lb & Eo & Ec & L & V & _ & Lf & _).
  exists o, c, lb. split; [exact Eo|]. split; [exact Ec|].
  split; [exact L|]. split; [exact V | exact Lf].
Defined.
